(** * email-verifier: the check orchestrator and its leaf checks

    A shallow embedding of [verifier.go], [mx.go], [gravatar.go] and
    [tld_check.go].  Go strings are byte strings ([string] of [ascii]),
    Go pointers that may be nil are [option], the [error] interface is an
    inductive type of the error values these files build, and the
    collaborators that live in other files (syntax parser, domain lists,
    resolver, HTTP client, SMTP probe) are fields of an environment
    record. *)

From Stdlib Require Import ZArith Lia Bool List Ascii String.
From stdpp Require Import base option list strings gmap.

Local Open Scope string_scope.
Local Open Scope Z_scope.

(** ** Byte strings, as the [strings] package sees them *)

Definition isUpperByte (c : ascii) : bool :=
  ((65 <=? nat_of_ascii c) && (nat_of_ascii c <=? 90))%nat.

(** [strings.ToLower] on one byte of an ASCII-only string ('A'..'Z' get
    +32). *)
Definition lowerByte (c : ascii) : ascii :=
  if isUpperByte c then ascii_of_nat (nat_of_ascii c + 32) else c.

(** The byte loop [strings.ToLower] runs on a string of ASCII bytes
    only.  It is not [strings.ToLower] itself, which maps any other
    string rune by rune with the Unicode tables: the checks below take
    the library function as a parameter, and this loop is the
    lower-casing of the sample world. *)
Fixpoint ToLowerASCII (s : string) : string :=
  match s with
  | EmptyString => EmptyString
  | String c r => String (lowerByte c) (ToLowerASCII r)
  end.

(** [strings.LastIndex(s, sep)] for a one-byte separator: the index of
    the last occurrence, or -1. *)
Fixpoint LastIndexByte (s : string) (c : ascii) : Z :=
  match s with
  | EmptyString => -1
  | String a r =>
      let i := LastIndexByte r c in
      if 0 <=? i then i + 1
      else if Ascii.eqb a c then 0 else -1
  end.

(** [s[n:]]; [None] stands for the slice-bounds panic. *)
Fixpoint sliceFrom (n : nat) (s : string) : option string :=
  match n, s with
  | O, _ => Some s
  | S n', String _ r => sliceFrom n' r
  | S _, EmptyString => None
  end.

Fixpoint containsByte (c : ascii) (s : string) : bool :=
  match s with
  | EmptyString => false
  | String a r => Ascii.eqb a c || containsByte c r
  end.

Definition dot : ascii := "."%char.

(** ** tld_check.go *)

Section TLDCheck.
(** [strings.ToLower] is Go's. *)
Variable ToLower : string → string.

(** The two tables [GenericTLDs] and [CountryCodeTLDs]
    (Go [map[string]struct{}]) are declared in another file; only
    membership is used. *)
Variables GenericTLDs CountryCodeTLDs : gset string.

Definition TopLevelDomainExists (email : string) : bool :=
  let email := ToLower email in
  let lastDot := LastIndexByte email dot in
  if lastDot =? -1 then false
  else
    match sliceFrom (Z.to_nat (lastDot + 1)) email with
    | Some tld =>
        let ok1 := bool_decide (tld ∈ GenericTLDs) in
        let ok2 := bool_decide (tld ∈ CountryCodeTLDs) in
        ok1 || ok2
    | None => false
    end.
End TLDCheck.

(** ** Data model *)

(** [Syntax] (address.go) and [SMTP] (smtp.go) are declared next to the
    collaborators that produce them; the fields are the ones [Verify] and
    its tests read. *)
Record Syntax := mkSyntax {
  Username : string;
  Domain : string;
  Valid : bool
}.

Record SMTP := mkSMTP {
  HostExists : bool;
  FullInbox : bool;
  CatchAll : bool;
  Deliverable : bool;
  Disabled : bool
}.

(** gravatar.go *)
Record Gravatar := mkGravatar {
  HasGravatar : bool;
  GravatarUrl : string
}.

(** [net.MX] *)
Record MX := mkMX {
  Host : string;
  Pref : Z
}.

(** mx.go *)
Record Mx := mkMx {
  HasMXRecord : bool;
  Records : list MX
}.

(** verifier.go, [Result].  The fields [Syntax], [SMTP] and [Gravatar]
    are spelled [rSyntax], [rSMTP] and [rGravatar] here, their source
    names being taken by the types. *)
Record Result := mkResult {
  Email : string;
  Reachable : string;
  rSyntax : Syntax;
  rSMTP : option SMTP;
  rGravatar : option Gravatar;
  Suggestion : string;
  Disposable : bool;
  RoleAccount : bool;
  Free : bool;
  HasMxRecords : bool;
  TLDExists : bool
}.

(** verifier.go, [Verifier]: the switches and identities.  The schedule
    handle and the API verifier table play no part in [Verify] itself. *)
Record Verifier := mkVerifier {
  mxCheckEnabled : bool;
  smtpCheckEnabled : bool;
  catchAllCheckEnabled : bool;
  domainSuggestEnabled : bool;
  gravatarCheckEnabled : bool;
  TopLevelDomainDisabled : bool;
  fromEmail : string;
  helloName : string;
  proxyURI : string;
  connectTimeout : Z;
  operationTimeout : Z
}.

(** Modelled from the spec: the three reachability constants
    ([reachableYes], [reachableNo], [reachableUnknown]) are declared in a
    file that is not part of the sources at hand; the specification names
    the verdicts yes / no / unknown. *)
Definition reachableYes : string := "yes".
Definition reachableNo : string := "no".
Definition reachableUnknown : string := "unknown".

(** Nanoseconds in [time.Second]. *)
Definition Second : Z := 1000000000.

(** *** Errors *)

Set Warnings "-register-all".

(** The [error] values that flow through these files: values handed back
    by a collaborator, the [fmt.Errorf] values built in [Verify], and the
    result of [errors.Join]. *)
Inductive error :=
| errExtern (msg : string)
| errTLD (domainIDNA : string)
| errWrap (prefix : string) (cause : error)
| errJoin (errs : list error).

(** [errors.Join]: nil arguments are dropped, and the result is nil when
    nothing is left. *)
Definition errors_Join (errs : list (option error)) : option error :=
  match omap id errs with
  | [] => None
  | es => Some (errJoin es)
  end.

Definition newline : string := String (ascii_of_nat 10) EmptyString.

Section ErrorText.
(** [strconv.Quote], which [%q] applies to its argument. *)
Variable quote : string → string.

(** The [Error()] method. *)
Fixpoint Error (e : error) : string :=
  match e with
  | errExtern msg => msg
  | errTLD d => "TLD domain " +:+ quote d +:+ " does not exist"
  | errWrap prefix cause => prefix +:+ Error cause
  | errJoin errs =>
      match List.map Error errs with
      | [] => ""
      | m :: ms => fold_left (λ acc x, acc +:+ newline +:+ x) ms m
      end
  end.
End ErrorText.

(** Everything [errors.Is] visits from [e]: the value itself, then what
    [Unwrap] yields, depth first. *)
Fixpoint errTree (e : error) : list error :=
  e :: match e with
       | errExtern _ | errTLD _ => []
       | errWrap _ cause => errTree cause
       | errJoin errs => List.flat_map errTree errs
       end.

(** *** Contexts *)

(** A [context.Context], as far as the checks can tell: whether it has
    been cancelled, and the tightest timeout put on it. *)
Record Ctx := mkCtx {
  cancelled : bool;
  timeout : option Z
}.

Definition Background : Ctx := mkCtx false None.

Definition WithTimeout (ctx : Ctx) (d : Z) : Ctx :=
  mkCtx (cancelled ctx)
        (match timeout ctx with
         | Some d0 => Some (Z.min d0 d)
         | None => Some d
         end).

Definition cancel (ctx : Ctx) : Ctx := mkCtx true (timeout ctx).

(** *** The collaborators *)

Record Response := mkResponse {
  StatusCode : Z;
  Body : string * option error   (* what [io.ReadAll(resp.Body)] gives *)
}.

(** Functions, tables and services that [Verify] and the checks call but
    that are defined elsewhere: pure helpers, [strings.ToLower], the DNS
    resolver, the HTTP client and the SMTP probe. *)
Record Env := mkEnv {
  trimLower : string → string;
  domainToASCII : string → string;
  ToLower : string → string;
  ParseAddress : Verifier → string → Syntax;
  IsFreeDomain : Verifier → string → bool;
  IsRoleAccount : Verifier → string → bool;
  IsDisposable : Verifier → string → bool;
  SuggestDomain : Verifier → string → string;
  GenericTLDs : gset string;
  CountryCodeTLDs : gset string;
  LookupMX : Ctx → string → list MX * option error;
  probeSMTP : Verifier → Ctx → string → string → option SMTP * option error;
  getMD5Hash : string → string * option error;
  gravatarBaseUrl : string;
  gravatarDefaultMd5 : string;
  NewRequest : string → option error;
  Do : Ctx → string → option Response * option error
}.

(** *** Effects *)

(** The calls that the code of these files makes, in order: to the
    collaborators, to the resolver ([CheckMX]) and to the HTTP client
    ([CheckGravatar]).  A call is one event; what a collaborator does
    inside is not logged.  In particular [EvCheckSMTP] stands for the
    whole call of [CheckSMTP], whose own lookups of mail exchangers and
    connections are made in smtp.go. *)
Inductive Event :=
| EvParseAddress (email : string)
| EvIsFreeDomain (domain : string)
| EvIsRoleAccount (username : string)
| EvIsDisposable (domain : string)
| EvTopLevelDomainExists (domain : string)
| EvCheckMX (domain : string)
| EvLookupMX (domain : string)
| EvCheckSMTP (domain username : string)
| EvCheckGravatar (email : string)
| EvHTTPGet (url : string)
| EvSuggestDomain (domain : string).

(** Computations that log events and may panic ([None]). *)
Definition M (A : Type) : Type := list Event → option (A * list Event).

#[export] Instance M_ret : MRet M := λ A x t, Some (x, t).
#[export] Instance M_bind : MBind M := λ A B f m t,
  match m t with
  | Some (x, t') => f x t'
  | None => None
  end.

Definition emit (e : Event) : M unit := λ t, Some (tt, (t ++ [e])%list).
Definition panic {A} : M A := λ _, None.

(** Field updates of the [ret] record that [Verify] fills in. *)
Definition setSyntax (x : Syntax) (r : Result) : Result :=
  mkResult (Email r) (Reachable r) x (rSMTP r) (rGravatar r) (Suggestion r)
           (Disposable r) (RoleAccount r) (Free r) (HasMxRecords r) (TLDExists r).
Definition setReachable (x : string) (r : Result) : Result :=
  mkResult (Email r) x (rSyntax r) (rSMTP r) (rGravatar r) (Suggestion r)
           (Disposable r) (RoleAccount r) (Free r) (HasMxRecords r) (TLDExists r).
Definition setSMTP (x : option SMTP) (r : Result) : Result :=
  mkResult (Email r) (Reachable r) (rSyntax r) x (rGravatar r) (Suggestion r)
           (Disposable r) (RoleAccount r) (Free r) (HasMxRecords r) (TLDExists r).
Definition setGravatar (x : option Gravatar) (r : Result) : Result :=
  mkResult (Email r) (Reachable r) (rSyntax r) (rSMTP r) x (Suggestion r)
           (Disposable r) (RoleAccount r) (Free r) (HasMxRecords r) (TLDExists r).
Definition setSuggestion (x : string) (r : Result) : Result :=
  mkResult (Email r) (Reachable r) (rSyntax r) (rSMTP r) (rGravatar r) x
           (Disposable r) (RoleAccount r) (Free r) (HasMxRecords r) (TLDExists r).
Definition setDisposable (x : bool) (r : Result) : Result :=
  mkResult (Email r) (Reachable r) (rSyntax r) (rSMTP r) (rGravatar r) (Suggestion r)
           x (RoleAccount r) (Free r) (HasMxRecords r) (TLDExists r).
Definition setRoleAccount (x : bool) (r : Result) : Result :=
  mkResult (Email r) (Reachable r) (rSyntax r) (rSMTP r) (rGravatar r) (Suggestion r)
           (Disposable r) x (Free r) (HasMxRecords r) (TLDExists r).
Definition setFree (x : bool) (r : Result) : Result :=
  mkResult (Email r) (Reachable r) (rSyntax r) (rSMTP r) (rGravatar r) (Suggestion r)
           (Disposable r) (RoleAccount r) x (HasMxRecords r) (TLDExists r).
Definition setHasMxRecords (x : bool) (r : Result) : Result :=
  mkResult (Email r) (Reachable r) (rSyntax r) (rSMTP r) (rGravatar r) (Suggestion r)
           (Disposable r) (RoleAccount r) (Free r) x (TLDExists r).
Definition setTLDExists (x : bool) (r : Result) : Result :=
  mkResult (Email r) (Reachable r) (rSyntax r) (rSMTP r) (rGravatar r) (Suggestion r)
           (Disposable r) (RoleAccount r) (Free r) (HasMxRecords r) x.

(** ** verifier.go: the pure parts *)

Definition enabledOptions (v : Verifier) : Z :=
  let c := 0 in
  let c := if mxCheckEnabled v then c + 1 else c in
  let c := if smtpCheckEnabled v then c + 1 else c in
  let c := if gravatarCheckEnabled v then c + 1 else c in
  let c := if domainSuggestEnabled v then c + 1 else c in
  c.

(** [calculateReachable]; [s] is a pointer, and reading a field of a nil
    [s] panics ([None]). *)
Definition calculateReachable (v : Verifier) (s : option SMTP) : option string :=
  if negb (smtpCheckEnabled v) then Some reachableUnknown
  else
    match s with
    | None => None
    | Some s =>
        if Deliverable s then Some reachableYes
        else if CatchAll s then Some reachableUnknown
        else Some reachableNo
    end.

(** The classifier as the specification words it (section 4.4). *)
Inductive Verdict := yes | no | unknown.

Definition classify (smtpEnabled : bool) (result : SMTP) : Verdict :=
  if negb smtpEnabled then unknown
  else if Deliverable result then yes
  else if CatchAll result then unknown
  else no.

Definition verdictName (x : Verdict) : string :=
  match x with
  | yes => "yes"
  | no => "no"
  | unknown => "unknown"
  end.

(** *** The runners behind [errgrouper] *)

(** A function handed to [Go]: it reads the context in force when it
    runs, fills in fields of the shared [ret], and returns an error or
    nil. *)
Definition Task : Type := Ctx → Result → M (Result * option error).

Record noGroup := mkNoGroup { err : option error }.

Definition noGroup_Go (ng : noGroup) (ctx : Ctx) (f : Task) (ret : Result)
  : M (noGroup * Result) :=
  '(ret, e) ← f ctx ret;
  match e with
  | Some e => mret (mkNoGroup (errors_Join [err ng; Some e]), ret)
  | None => mret (ng, ret)
  end.

Definition noGroup_Wait (ng : noGroup) : option error := err ng.

(** [errgroup.Group] made by [errgroup.WithContext].  The goroutines
    started by [Go] finish in an order the scheduler picks: [order] gives,
    for each completion, which of the goroutines still running finishes
    next (an index, taken modulo their number) and whether it got to see
    a cancellation of the group context that happened before. *)
Record Group := mkGroup {
  order : list (nat * bool);
  goroutines : list Task
}.

Definition WithContext (order : list (nat * bool)) : Group := mkGroup order [].

Definition Group_Go (g : Group) (f : Task) : Group :=
  mkGroup (order g) (goroutines g ++ [f])%list.

(** Let the [n] goroutines in [running] finish.  [first] is the error
    [errOnce] has kept so far; once it is set the group context is
    cancelled. *)
Fixpoint finish (n : nat) (order : list (nat * bool)) (running : list Task)
    (parent : Ctx) (first : option error) (ret : Result)
  : M (option error * Result) :=
  match n with
  | O => mret (first, ret)
  | S n' =>
      let '(pick, saw) := hd (O, false) order in
      let i := (pick mod length running)%nat in
      match running !! i with
      | None => mret (first, ret)
      | Some f =>
          let ctx := match first with
                     | Some _ => if saw then cancel parent else parent
                     | None => parent
                     end in
          '(ret, e) ← f ctx ret;
          let first := match first with Some _ => first | None => e end in
          finish n' (tl order) (delete i running) parent first ret
      end
  end.

(** [Wait]: all goroutines have returned; the first error is the result. *)
Definition Group_Wait (g : Group) (parent : Ctx) (ret : Result)
  : M (option error * Result) :=
  finish (length (goroutines g)) (order g) (goroutines g) parent None ret.

(** A value of interface type [errgrouper]. *)
Inductive errgrouper :=
| viaNoGroup (ng : noGroup)
| viaGroup (g : Group).

Definition Go (g : errgrouper) (ctx : Ctx) (f : Task) (ret : Result)
  : M (errgrouper * Result) :=
  match g with
  | viaNoGroup ng => '(ng, ret) ← noGroup_Go ng ctx f ret; mret (viaNoGroup ng, ret)
  | viaGroup eg => mret (viaGroup (Group_Go eg f), ret)
  end.

Definition Wait (g : errgrouper) (ctx : Ctx) (ret : Result)
  : M (option error * Result) :=
  match g with
  | viaNoGroup ng => mret (noGroup_Wait ng, ret)
  | viaGroup eg => Group_Wait eg ctx ret
  end.

(** ** The checks and the orchestrator *)

Section Verify.
Variable E : Env.

(** A call to a pure collaborator, logged. *)
Definition call {A} (ev : Event) (x : A) : M A :=
  _ ← emit ev; mret x.

(** *** mx.go *)

Definition CheckMX (v : Verifier) (ctx : Ctx) (domain : string)
  : M (option Mx * option error) :=
  _ ← emit (EvCheckMX domain);
  if negb (mxCheckEnabled v) then mret (Some (mkMx false []), None)
  else
    let domain := domainToASCII E domain in
    '(mx, err) ← call (EvLookupMX domain) (LookupMX E ctx domain);
    match err with
    | Some e =>
        if (length mx =? 0)%nat then mret (None, Some e)
        else mret (Some (mkMx (0 <? length mx)%nat mx), None)
    | None => mret (Some (mkMx (0 <? length mx)%nat mx), None)
    end.

(** *** gravatar.go *)

Definition CheckGravatar (v : Verifier) (ctx : Ctx) (email : string)
  : M (option Gravatar * option error) :=
  _ ← emit (EvCheckGravatar email);
  if negb (gravatarCheckEnabled v) then mret (None, None)
  else
    let ctx := WithTimeout ctx (10 * Second) in
    let '(emailMd5, err) := getMD5Hash E (trimLower E email) in
    match err with
    | Some e => mret (None, Some e)
    | None =>
    let gravatarUrl := gravatarBaseUrl E +:+ emailMd5 +:+ "?d=404" in
    match NewRequest E gravatarUrl with
    | Some e => mret (None, Some e)
    | None =>
    '(resp, err) ← call (EvHTTPGet gravatarUrl) (Do E ctx gravatarUrl);
    match err with
    | Some e => mret (None, Some e)
    | None =>
    match resp with
    | None => panic
    | Some resp =>
    let '(body, err) := Body resp in
    match err with
    | Some e => mret (None, Some e)
    | None =>
    let '(md5Body, err) := getMD5Hash E body in
    match err with
    | Some e => mret (None, Some e)
    | None =>
        if String.eqb md5Body (gravatarDefaultMd5 E)
           || negb (StatusCode resp =? 200)
        then mret (Some (mkGravatar false ""), None)
        else mret (Some (mkGravatar true gravatarUrl), None)
    end end end end end end.

(** *** smtp.go *)

(** [CheckSMTP] is defined in a file that is not at hand; what it
    returns is the environment's [probeSMTP], and the call is logged as
    one event, whatever it does on the network. *)
Definition CheckSMTP (v : Verifier) (ctx : Ctx) (domain username : string)
  : M (option SMTP * option error) :=
  call (EvCheckSMTP domain username) (probeSMTP E v ctx domain username).

(** *** verifier.go: [Verify] *)

(** The four closures handed to [g.Go], in the order of the source. *)
Definition checkMX (v : Verifier) (syntax : Syntax) : Task := λ ctx ret,
  '(mx, err) ← CheckMX v ctx (Domain syntax);
  match err with
  | Some e => mret (ret, Some (errWrap "CheckMX failed: " e))
  | None =>
      match mx with
      | Some mx => mret (setHasMxRecords (HasMXRecord mx) ret, None)
      | None => panic
      end
  end.

Definition checkSMTP (v : Verifier) (syntax : Syntax) : Task := λ ctx ret,
  '(smtp, err) ← CheckSMTP v ctx (Domain syntax) (Username syntax);
  match err with
  | Some e => mret (ret, Some (errWrap "CheckSMTP failed: " e))
  | None =>
      let ret := setSMTP smtp ret in
      match calculateReachable v smtp with
      | Some reachable => mret (setReachable reachable ret, None)
      | None => panic
      end
  end.

Definition checkGravatar (v : Verifier) (email : string) : Task := λ ctx ret,
  '(gravatar, err) ← CheckGravatar v ctx email;
  match err with
  | Some e => mret (ret, Some (errWrap "CheckGravatar failed: " e))
  | None => mret (setGravatar gravatar ret, None)
  end.

Definition suggest (v : Verifier) (syntax : Syntax) : Task := λ ctx ret,
  if domainSuggestEnabled v then
    s ← call (EvSuggestDomain (Domain syntax)) (SuggestDomain E v (Domain syntax));
    mret (setSuggestion s ret, None)
  else mret (ret, None).

(** From the first [g.Go] to the end of [Verify], for a given runner. *)
Definition runChecks (g : errgrouper) (v : Verifier) (ctx : Ctx)
    (email : string) (syntax : Syntax) (ret : Result)
  : M (option Result * option error) :=
  '(g, ret) ← Go g ctx (checkMX v syntax) ret;
  '(g, ret) ← Go g ctx (checkSMTP v syntax) ret;
  '(g, ret) ← Go g ctx (checkGravatar v email) ret;
  '(g, ret) ← Go g ctx (suggest v syntax) ret;
  '(err, ret) ← Wait g ctx ret;
  match err with
  | Some e => mret (Some ret, Some e)
  | None => mret (Some ret, None)
  end.

(** [Verify] with the choice of runner left to [concurrent]. *)
Definition VerifyWith (concurrent : bool) (v : Verifier)
    (order : list (nat * bool)) (ctx : Ctx) (email : string)
  : M (option Result * option error) :=
  let email := trimLower E email in
  let ret := mkResult email reachableUnknown (mkSyntax "" "" false)
                      None None "" false false false false false in
  syntax ← call (EvParseAddress email) (ParseAddress E v email);
  let ret := setSyntax syntax ret in
  if negb (Valid syntax) then mret (Some ret, None)
  else
    free ← call (EvIsFreeDomain (Domain syntax)) (IsFreeDomain E v (Domain syntax));
    let ret := setFree free ret in
    role ← call (EvIsRoleAccount (Username syntax)) (IsRoleAccount E v (Username syntax));
    let ret := setRoleAccount role ret in
    disp ← call (EvIsDisposable (Domain syntax)) (IsDisposable E v (Domain syntax));
    let ret := setDisposable disp ret in
    let rest (ret : Result) : M (option Result * option error) :=
      if Disposable ret then mret (Some ret, None)
      else
        let g := if concurrent then viaGroup (WithContext order)
                 else viaNoGroup (mkNoGroup None) in
        runChecks g v ctx email syntax ret in
    if negb (TopLevelDomainDisabled v) then
      let domainIDNA := domainToASCII E (Domain syntax) in
      exists_ ← call (EvTopLevelDomainExists domainIDNA)
                  (TopLevelDomainExists (ToLower E) (GenericTLDs E)
                     (CountryCodeTLDs E) domainIDNA);
      if negb exists_ then mret (None, Some (errTLD domainIDNA))
      else rest (setTLDExists true ret)
    else rest ret.

(** [Verify]: goroutines are started only when more than one option is
    enabled. *)
Definition Verify (v : Verifier) (order : list (nat * bool)) (ctx : Ctx)
    (email : string) : M (option Result * option error) :=
  VerifyWith (1 <? enabledOptions v) v order ctx email.
End Verify.

(** ** A small world to run the model in *)

Module Sample.
(** Split at the first '@'. *)
Fixpoint splitAt (s : string) : option (string * string) :=
  match s with
  | EmptyString => None
  | String c r =>
      if Ascii.eqb c "@"%char then Some (EmptyString, r)
      else match splitAt r with
           | Some (u, d) => Some (String c u, d)
           | None => None
           end
  end.

Definition parse (_ : Verifier) (email : string) : Syntax :=
  match splitAt email with
  | Some (u, d) =>
      if String.eqb u "" || String.eqb d "" then mkSyntax "" "" false
      else mkSyntax u d true
  | None => mkSyntax "" "" false
  end.

Definition noSuchHost : error := errExtern "no such host".
Definition canceled : error := errExtern "context canceled".

Definition catchAllSMTP : SMTP := mkSMTP true false true false false.

Definition world : Env := {|
  trimLower := ToLowerASCII;
  domainToASCII := λ d, d;
  ToLower := ToLowerASCII;
  ParseAddress := parse;
  IsFreeDomain := λ _ d, String.eqb d "gmail.com";
  IsRoleAccount := λ _ u, String.eqb u "admin";
  IsDisposable := λ _ d, String.eqb d "zzjbfwqi.shop";
  SuggestDomain := λ _ d, if String.eqb d "gmai.com" then "gmail.com" else "";
  GenericTLDs := {[ "com"; "shop" ]};
  CountryCodeTLDs := {[ "ch"; "de" ]};
  LookupMX := λ ctx d,
    if cancelled ctx then ([], Some canceled)
    else if String.eqb d "github.com" then ([mkMX "mx.github.com" 10], None)
    else if String.eqb d "nomx.com" then
      (* resolves, but has no MX record: Go's resolver reports an empty
         answer as "no such host" *)
      ([], Some noSuchHost)
    else ([], Some noSuchHost);
  probeSMTP := λ v ctx d u,
    if negb (smtpCheckEnabled v) then (None, None)
    else if cancelled ctx then (None, Some canceled)
    else if String.eqb d "github.com" then (Some catchAllSMTP, None)
    else (None, Some noSuchHost);
  getMD5Hash := λ s, (s, None);
  gravatarBaseUrl := "https://www.gravatar.com/avatar/";
  gravatarDefaultMd5 := "default";
  NewRequest := λ _, None;
  Do := λ ctx url,
    if cancelled ctx then (None, Some canceled)
    else (Some (mkResponse 404 ("", None)), None)
|}.

(** [NewVerifier()]: MX and catch-all checks on, the rest off. *)
Definition NewVerifier : Verifier :=
  mkVerifier true false true false false false
             "user@example.org" "localhost" "" (10 * Second) (10 * Second).

Definition EnableSMTPCheck (v : Verifier) : Verifier :=
  mkVerifier (mxCheckEnabled v) true (catchAllCheckEnabled v)
             (domainSuggestEnabled v) (gravatarCheckEnabled v)
             (TopLevelDomainDisabled v) (fromEmail v) (helloName v)
             (proxyURI v) (connectTimeout v) (operationTimeout v).

Definition DisableMXCheck (v : Verifier) : Verifier :=
  mkVerifier false (smtpCheckEnabled v) (catchAllCheckEnabled v)
             (domainSuggestEnabled v) (gravatarCheckEnabled v)
             (TopLevelDomainDisabled v) (fromEmail v) (helloName v)
             (proxyURI v) (connectTimeout v) (operationTimeout v).

Definition EnableGravatarCheck (v : Verifier) : Verifier :=
  mkVerifier (mxCheckEnabled v) (smtpCheckEnabled v) (catchAllCheckEnabled v)
             (domainSuggestEnabled v) true
             (TopLevelDomainDisabled v) (fromEmail v) (helloName v)
             (proxyURI v) (connectTimeout v) (operationTimeout v).
End Sample.


(** ** verifier.go: the configuration surface *)

(** [NewVerifier] and three of the switches are spelled out in [Sample]
    above; here are their names at top level, and the other setters. *)
Definition NewVerifier : Verifier := Sample.NewVerifier.
Definition EnableSMTPCheck : Verifier → Verifier := Sample.EnableSMTPCheck.
Definition DisableMXCheck : Verifier → Verifier := Sample.DisableMXCheck.
Definition EnableGravatarCheck : Verifier → Verifier := Sample.EnableGravatarCheck.

Definition DisableGravatarCheck (v : Verifier) : Verifier :=
  mkVerifier (mxCheckEnabled v) (smtpCheckEnabled v) (catchAllCheckEnabled v)
             (domainSuggestEnabled v) false
             (TopLevelDomainDisabled v) (fromEmail v) (helloName v)
             (proxyURI v) (connectTimeout v) (operationTimeout v).

Definition EnableMXCheck (v : Verifier) : Verifier :=
  mkVerifier true (smtpCheckEnabled v) (catchAllCheckEnabled v)
             (domainSuggestEnabled v) (gravatarCheckEnabled v)
             (TopLevelDomainDisabled v) (fromEmail v) (helloName v)
             (proxyURI v) (connectTimeout v) (operationTimeout v).

Definition DisableSMTPCheck (v : Verifier) : Verifier :=
  mkVerifier (mxCheckEnabled v) false (catchAllCheckEnabled v)
             (domainSuggestEnabled v) (gravatarCheckEnabled v)
             (TopLevelDomainDisabled v) (fromEmail v) (helloName v)
             (proxyURI v) (connectTimeout v) (operationTimeout v).

Definition EnableCatchAllCheck (v : Verifier) : Verifier :=
  mkVerifier (mxCheckEnabled v) (smtpCheckEnabled v) true
             (domainSuggestEnabled v) (gravatarCheckEnabled v)
             (TopLevelDomainDisabled v) (fromEmail v) (helloName v)
             (proxyURI v) (connectTimeout v) (operationTimeout v).

Definition DisableCatchAllCheck (v : Verifier) : Verifier :=
  mkVerifier (mxCheckEnabled v) (smtpCheckEnabled v) false
             (domainSuggestEnabled v) (gravatarCheckEnabled v)
             (TopLevelDomainDisabled v) (fromEmail v) (helloName v)
             (proxyURI v) (connectTimeout v) (operationTimeout v).

Definition EnableDomainSuggest (v : Verifier) : Verifier :=
  mkVerifier (mxCheckEnabled v) (smtpCheckEnabled v) (catchAllCheckEnabled v)
             true (gravatarCheckEnabled v)
             (TopLevelDomainDisabled v) (fromEmail v) (helloName v)
             (proxyURI v) (connectTimeout v) (operationTimeout v).

Definition DisableDomainSuggest (v : Verifier) : Verifier :=
  mkVerifier (mxCheckEnabled v) (smtpCheckEnabled v) (catchAllCheckEnabled v)
             false (gravatarCheckEnabled v)
             (TopLevelDomainDisabled v) (fromEmail v) (helloName v)
             (proxyURI v) (connectTimeout v) (operationTimeout v).

Definition FromEmail (v : Verifier) (email : string) : Verifier :=
  mkVerifier (mxCheckEnabled v) (smtpCheckEnabled v) (catchAllCheckEnabled v)
             (domainSuggestEnabled v) (gravatarCheckEnabled v)
             (TopLevelDomainDisabled v) email (helloName v)
             (proxyURI v) (connectTimeout v) (operationTimeout v).

Definition HelloName (v : Verifier) (domain : string) : Verifier :=
  mkVerifier (mxCheckEnabled v) (smtpCheckEnabled v) (catchAllCheckEnabled v)
             (domainSuggestEnabled v) (gravatarCheckEnabled v)
             (TopLevelDomainDisabled v) (fromEmail v) domain
             (proxyURI v) (connectTimeout v) (operationTimeout v).

Definition Proxy (v : Verifier) (uri : string) : Verifier :=
  mkVerifier (mxCheckEnabled v) (smtpCheckEnabled v) (catchAllCheckEnabled v)
             (domainSuggestEnabled v) (gravatarCheckEnabled v)
             (TopLevelDomainDisabled v) (fromEmail v) (helloName v)
             uri (connectTimeout v) (operationTimeout v).

Definition ConnectTimeout (v : Verifier) (timeout : Z) : Verifier :=
  mkVerifier (mxCheckEnabled v) (smtpCheckEnabled v) (catchAllCheckEnabled v)
             (domainSuggestEnabled v) (gravatarCheckEnabled v)
             (TopLevelDomainDisabled v) (fromEmail v) (helloName v)
             (proxyURI v) timeout (operationTimeout v).

Definition OperationTimeout (v : Verifier) (timeout : Z) : Verifier :=
  mkVerifier (mxCheckEnabled v) (smtpCheckEnabled v) (catchAllCheckEnabled v)
             (domainSuggestEnabled v) (gravatarCheckEnabled v)
             (TopLevelDomainDisabled v) (fromEmail v) (helloName v)
             (proxyURI v) (connectTimeout v) timeout.

(** *** The disposable-domain stores *)

(** The two package-level stores: the map [additionalDisposableDomains]
    and the [sync.Map] [disposableSyncDomains], whose values are empty
    structs. *)
Record Stores := mkStores {
  additionalDisposableDomains : gmap string bool;
  disposableSyncDomains : gset string
}.

Definition storeDomain (st : Stores) (d : string) : Stores :=
  mkStores (<[d := true]> (additionalDisposableDomains st))
           ({[ d ]} ∪ disposableSyncDomains st).

(** [AddDisposableDomains]: the loop over [domains], and the verifier
    handed back. *)
Definition AddDisposableDomains (v : Verifier) (domains : list string)
    (st : Stores) : Verifier * Stores :=
  (v, fold_left storeDomain domains st).

(** [init]: every key of the built-in table [disposableDomains] (declared
    elsewhere; Go ranges over it in no particular order) goes into
    [disposableSyncDomains]. *)
Definition init {V} (disposableDomains : gmap string V) (st : Stores) : Stores :=
  fold_left (λ st d, mkStores (additionalDisposableDomains st)
                              ({[ d ]} ∪ disposableSyncDomains st))
            (fst <$> map_to_list disposableDomains) st.

(** *** The API verifiers *)

Section APIVerifiers.
(** The vendor name [YAHOO] and the value [newYahooAPIVerifier] builds
    are declared elsewhere. *)
Variable smtpAPIVerifier : Type.
Variable YAHOO : string.
Variable newYahooAPIVerifier : smtpAPIVerifier.

(** [EnableAPIVerifier], on the field [apiVerifiers]. *)
Definition EnableAPIVerifier (apiVerifiers : gmap string smtpAPIVerifier)
    (name : string) : gmap string smtpAPIVerifier * option error :=
  if String.eqb name YAHOO
  then (<[YAHOO := newYahooAPIVerifier]> apiVerifiers, None)
  else (apiVerifiers,
        Some (errExtern
                ("unsupported to enable the API verifier for vendor: " +:+ name))).

Definition DisableAPIVerifier (apiVerifiers : gmap string smtpAPIVerifier)
    (name : string) : gmap string smtpAPIVerifier :=
  delete name apiVerifiers.
End APIVerifiers.

(** *** The refresh schedule *)

(** What happens to schedules: [newSchedule(...).start()], [stop()], and
    the immediate [updateDisposableDomains] call.  A schedule is known by
    the number it was created under. *)
Inductive ScheduleEvent :=
| Started (s : nat)
| Stopped (s : nat)
| Updated.

(** The [schedule] field of the verifier, the schedules created so far,
    and what has happened to them. *)
Record Refresher := mkRefresher {
  schedule : option nat;
  created : nat;
  history : list ScheduleEvent
}.

Definition stopCurrentSchedule (r : Refresher) : Refresher :=
  match schedule r with
  | Some s => mkRefresher (schedule r) (created r) (history r ++ [Stopped s])
  | None => r
  end.

Definition EnableAutoUpdateDisposable (r : Refresher) : Refresher :=
  let r := stopCurrentSchedule r in
  let r := mkRefresher (schedule r) (created r) (history r ++ [Updated]) in
  let s := created r in
  mkRefresher (Some s) (S (created r)) (history r ++ [Started s]).

Definition DisableAutoUpdateDisposable (r : Refresher) : Refresher :=
  stopCurrentSchedule r.

(** The sample world with a Gravatar server that has an image for
    everyone. *)
Definition gravatarWorld : Env :=
  mkEnv (trimLower Sample.world) (domainToASCII Sample.world)
        (ToLower Sample.world)
        (ParseAddress Sample.world) (IsFreeDomain Sample.world)
        (IsRoleAccount Sample.world) (IsDisposable Sample.world)
        (SuggestDomain Sample.world) (GenericTLDs Sample.world)
        (CountryCodeTLDs Sample.world) (LookupMX Sample.world)
        (probeSMTP Sample.world) (getMD5Hash Sample.world)
        (gravatarBaseUrl Sample.world) (gravatarDefaultMd5 Sample.world)
        (NewRequest Sample.world)
        (λ ctx url,
           if cancelled ctx then (None, Some Sample.canceled)
           else (Some (mkResponse 200 ("image", None)), None)).


(** * The vocabulary of the properties *)

(** The events that stand for a check being invoked or a request going
    out on the network. *)
Definition isCheckEvent (ev : Event) : bool :=
  match ev with
  | EvCheckMX _ | EvLookupMX _ | EvCheckSMTP _ _
  | EvCheckGravatar _ | EvHTTPGet _ | EvSuggestDomain _ => true
  | _ => false
  end.

(** The events past the syntax check. *)
Definition isDownstreamEvent (ev : Event) : bool :=
  match ev with
  | EvParseAddress _ => false
  | _ => true
  end.

(** The events of the classification steps. *)
Definition classified (E : Env) (v : Verifier) (email : string) : list Event :=
  let email' := trimLower E email in
  let syntax := ParseAddress E v email' in
  [EvParseAddress email'; EvIsFreeDomain (Domain syntax);
   EvIsRoleAccount (Username syntax); EvIsDisposable (Domain syntax)].

(** What [Verify] does once the top-level domain has been dealt with. *)
Definition startChecks (E : Env) (concurrent : bool) (v : Verifier)
    (order : list (nat * bool)) (ctx : Ctx) (email : string)
    (syntax : Syntax) (ret : Result) : M (option Result * option error) :=
  if Disposable ret then mret (Some ret, None)
  else runChecks E (if concurrent then viaGroup (WithContext order)
                    else viaNoGroup (mkNoGroup None))
                 v ctx email syntax ret.

(** [ret] as it stands after the classification steps. *)
Definition classifiedResult (E : Env) (v : Verifier) (email : string) : Result :=
  let email' := trimLower E email in
  let syntax := ParseAddress E v email' in
  mkResult email' reachableUnknown syntax None None ""
           (IsDisposable E v (Domain syntax))
           (IsRoleAccount E v (Username syntax))
           (IsFreeDomain E v (Domain syntax)) false false.

(** A task keeps [P] when every run of it that returns leaves a result
    satisfying [P] behind. *)
Definition preserves (P : Result → Prop) (f : Task) : Prop :=
  ∀ ctx ret tr ret' e tr',
    P ret → f ctx ret tr = Some ((ret', e), tr') → P ret'.

(** A closure either panics, or updates [ret], returns an error or nil,
    and logs some events; which of these depends on the context only,
    not on [ret] or on what was logged before. *)
Inductive outcome :=
| Panics
| Yields (upd : Result → Result) (e : option error) (evs : list Event).

Definition behaves (f : Task) (ctx : Ctx) (o : outcome) : Prop :=
  ∀ ret tr,
    f ctx ret tr = match o with
                   | Panics => None
                   | Yields upd e evs => Some ((upd ret, e), (tr ++ evs)%list)
                   end.

(** The sequential runner over closures with outcomes [os]: the updates
    are applied in launch order and every error is joined onto [acc]. *)
Fixpoint seqRun (os : list outcome) (acc : option error) (ret : Result)
    (tr : list Event) : option (option error * Result * list Event) :=
  match os with
  | [] => Some ((acc, ret), tr)
  | Panics :: _ => None
  | Yields upd e evs :: os' =>
      seqRun os'
             (match e with
              | Some x => errors_Join [acc; Some x]
              | None => acc
              end)
             (upd ret) (tr ++ evs)%list
  end.

(** The errgroup over closures whose outcome is [fst] under the live
    context and [snd] under the cancelled one. *)
Fixpoint concRun (n : nat) (order : list (nat * bool))
    (running : list (outcome * outcome)) (first : option error)
    (ret : Result) (tr : list Event)
  : option (option error * Result * list Event) :=
  match n with
  | O => Some ((first, ret), tr)
  | S n' =>
      let '(pick, saw) := hd (O, false) order in
      let i := (pick mod length running)%nat in
      match running !! i with
      | None => Some ((first, ret), tr)
      | Some (o, o') =>
          match (match first with
                 | Some _ => if saw then o' else o
                 | None => o
                 end) with
          | Panics => None
          | Yields upd e evs =>
              concRun n' (tl order) (delete i running)
                      (match first with Some _ => first | None => e end)
                      (upd ret) (tr ++ evs)%list
          end
      end
  end.

(** [f] run under [ctx] returns the error [x]. *)
Definition fails (f : Task) (ctx : Ctx) (x : error) : Prop :=
  ∃ ret tr ret' tr', f ctx ret tr = Some ((ret', Some x), tr').

(** [errors.Is(e, x)] can find [x]. *)
Definition exposes (e : option error) (x : error) : Prop :=
  ∃ e', e = Some e' ∧ In x (errTree e').

(** One of the three checks that can fail does fail with [x] when run
    under the caller's context. *)
Definition checkFails (E : Env) (v : Verifier) (ctx : Ctx) (email : string)
    (syntax : Syntax) (x : error) : Prop :=
  fails (checkMX E v syntax) ctx x
  ∨ fails (checkSMTP E v syntax) ctx x
  ∨ fails (checkGravatar E v email) ctx x.

Definition failure (E : Env) (v : Verifier) (ctx : Ctx) (email : string)
    (x : error) : Prop :=
  let email' := trimLower E email in
  checkFails E v ctx email' (ParseAddress E v email') x.

(** The four closures [Verify] hands to [g.Go], in launch order. *)
Definition closures (E : Env) (v : Verifier) (email : string) : list Task :=
  let email' := trimLower E email in
  let syntax := ParseAddress E v email' in
  [checkMX E v syntax; checkSMTP E v syntax; checkGravatar E v email';
   suggest E v syntax].

(** The order in which the goroutines of the errgroup finish: the
    picks of [finish], one after the other. *)
Fixpoint completion {A} (n : nat) (order : list (nat * bool))
    (running : list A) : list A :=
  match n with
  | O => []
  | S n' =>
      let i := (fst (hd (O, false) order) mod length running)%nat in
      match running !! i with
      | None => []
      | Some f => f :: completion n' (tl order) (delete i running)
      end
  end.

(** [x] is the error of the first of [fs] to fail under [ctx]: the
    ones before it in [fs] do not fail. *)
Definition firstToFail (ctx : Ctx) (fs : list Task) (x : error) : Prop :=
  ∃ pre f post,
    fs = (pre ++ f :: post)%list
    ∧ fails f ctx x
    ∧ ∀ g, g ∈ pre → ∀ y, ¬ fails g ctx y.

(** Modelled from the spec: [CheckSMTP] is defined in smtp.go, which is
    not among the sources at hand.  The specification has the SMTP
    result absent when SMTP checking is disabled, and the test
    [TestCheckEmail_DisabledSMTPCheck] expects no error and a nil [SMTP]
    then: a disabled [CheckSMTP] returns nil, nil. *)
Definition quietWhenOff (E : Env) : Prop :=
  ∀ v ctx domain username,
    smtpCheckEnabled v = false →
    probeSMTP E v ctx domain username = (None, None).

(** Two outcomes of [Verify], the first of the sequential runner and
    the second of the errgroup, that agree: both panic, or both return
    the same result.  Where a result came back the first error is nil
    when the second is, and otherwise the one-element [errors.Join] of
    it; where none did (the top-level domain is not known) the error is
    the same.  Either way the messages are the same. *)
Definition agreeUpToJoin
    (a b : option (option Result * option error * list Event)) : Prop :=
  match a, b with
  | Some ((r1, e1), _), Some ((r2, e2), _) =>
      r1 = r2
      ∧ e1 = match r1 with
             | Some _ => (λ x, errJoin [x]) <$> e2
             | None => e2
             end
      ∧ (∀ quote, Error quote <$> e1 = Error quote <$> e2)
  | None, None => True
  | _, _ => False
  end.


(** The calls each of the four closures makes, whatever the context
    and whatever it returns; the one of the SMTP closure is the call of
    [CheckSMTP]. *)
Definition mxEvents (E : Env) (v : Verifier) (syntax : Syntax) : list Event :=
  EvCheckMX (Domain syntax)
  :: (if mxCheckEnabled v
      then [EvLookupMX (domainToASCII E (Domain syntax))] else []).

Definition smtpEvents (syntax : Syntax) : list Event :=
  [EvCheckSMTP (Domain syntax) (Username syntax)].

Definition gravatarEvents (E : Env) (v : Verifier) (email : string)
  : list Event :=
  EvCheckGravatar email
  :: (if gravatarCheckEnabled v then
        match getMD5Hash E (trimLower E email) with
        | (emailMd5, None) =>
            let gravatarUrl := gravatarBaseUrl E +:+ emailMd5 +:+ "?d=404" in
            match NewRequest E gravatarUrl with
            | None => [EvHTTPGet gravatarUrl]
            | Some _ => []
            end
        | (_, Some _) => []
        end
      else []).

Definition suggestEvents (v : Verifier) (syntax : Syntax) : list Event :=
  if domainSuggestEnabled v then [EvSuggestDomain (Domain syntax)] else [].

Definition checkEvents (E : Env) (v : Verifier) (email : string)
    (syntax : Syntax) : list (list Event) :=
  [mxEvents E v syntax; smtpEvents syntax; gravatarEvents E v email;
   suggestEvents v syntax].

(** An outcome that, if it returns, has logged [L]. *)
Definition logs (o : outcome) (L : list Event) : Prop :=
  match o with
  | Panics => True
  | Yields _ _ evs => evs = L
  end.

(** The events before the checks. *)
Definition prelude (E : Env) (v : Verifier) (email : string) : list Event :=
  let syntax := ParseAddress E v (trimLower E email) in
  (classified E v email
     ++ (if TopLevelDomainDisabled v then []
         else [EvTopLevelDomainExists (domainToASCII E (Domain syntax))]))%list.

(** The lookup of [CheckMX] (mx.go), the request of [CheckGravatar]
    (gravatar.go), and so on. *)
Definition isLookupMX (ev : Event) : bool :=
  match ev with EvLookupMX _ => true | _ => false end.
Definition isHTTPGet (ev : Event) : bool :=
  match ev with EvHTTPGet _ => true | _ => false end.
Definition isSuggestDomain (ev : Event) : bool :=
  match ev with EvSuggestDomain _ => true | _ => false end.
Definition isCheckMX (ev : Event) : bool :=
  match ev with EvCheckMX _ => true | _ => false end.
Definition isCheckSMTP (ev : Event) : bool :=
  match ev with EvCheckSMTP _ _ => true | _ => false end.
Definition isCheckGravatar (ev : Event) : bool :=
  match ev with EvCheckGravatar _ => true | _ => false end.

(** How many events of [evs] satisfy [p]. *)
Definition count (p : Event → bool) (evs : list Event) : nat :=
  length (List.filter p evs).

(** [g.Go(f)] for each [f] of [fs] in turn, then [g.Wait()]. *)
Fixpoint GoAll (g : errgrouper) (ctx : Ctx) (fs : list Task) (ret : Result)
  : M (option error * Result) :=
  match fs with
  | [] => Wait g ctx ret
  | f :: fs' => '(g, ret) ← Go g ctx f ret; GoAll g ctx fs' ret
  end.

(** The closures [fs] were run one after the other, each on the result
    and the log the one before left, and returned [es]. *)
Inductive ranAll (ctx : Ctx)
  : list Task → Result → list Event →
    list (option error) → Result → list Event → Prop :=
| ranAll_nil ret tr : ranAll ctx [] ret tr [] ret tr
| ranAll_cons f fs ret tr ret1 e tr1 es ret' tr' :
    f ctx ret tr = Some ((ret1, e), tr1) →
    ranAll ctx fs ret1 tr1 es ret' tr' →
    ranAll ctx (f :: fs) ret tr (e :: es) ret' tr'.

(** The errors among what the closures returned. *)
Definition failures (es : list (option error)) : list error := omap id es.

(** Messages put one per line. *)
Definition joinLines (ms : list string) : option string :=
  match ms with
  | [] => None
  | m :: ms => Some (fold_left (λ acc x, acc +:+ newline +:+ x) ms m)
  end.

(** A call of one of the builder methods of the verifier. *)
Inductive BuilderCall :=
| callEnableGravatarCheck | callDisableGravatarCheck
| callEnableMXCheck | callDisableMXCheck
| callEnableSMTPCheck | callDisableSMTPCheck
| callEnableCatchAllCheck | callDisableCatchAllCheck
| callEnableDomainSuggest | callDisableDomainSuggest
| callFromEmail (email : string)
| callHelloName (domain : string)
| callProxy (proxyURI : string)
| callConnectTimeout (timeout : Z)
| callOperationTimeout (timeout : Z).

Definition build (v : Verifier) (c : BuilderCall) : Verifier :=
  match c with
  | callEnableGravatarCheck => EnableGravatarCheck v
  | callDisableGravatarCheck => DisableGravatarCheck v
  | callEnableMXCheck => EnableMXCheck v
  | callDisableMXCheck => DisableMXCheck v
  | callEnableSMTPCheck => EnableSMTPCheck v
  | callDisableSMTPCheck => DisableSMTPCheck v
  | callEnableCatchAllCheck => EnableCatchAllCheck v
  | callDisableCatchAllCheck => DisableCatchAllCheck v
  | callEnableDomainSuggest => EnableDomainSuggest v
  | callDisableDomainSuggest => DisableDomainSuggest v
  | callFromEmail email => FromEmail v email
  | callHelloName domain => HelloName v domain
  | callProxy proxyURI => Proxy v proxyURI
  | callConnectTimeout t => ConnectTimeout v t
  | callOperationTimeout t => OperationTimeout v t
  end.

(** A chain [v.m1(...).m2(...)...]. *)
Definition chain (v : Verifier) (cs : list BuilderCall) : Verifier :=
  fold_left build cs v.

(** The value a field has after the calls [cs], when [w c] is what the
    call [c] writes to it, if anything: the last one written, or [old]. *)
Definition lastWrite {A} (w : BuilderCall → option A) (cs : list BuilderCall)
    (old : A) : A :=
  fold_left (λ a c, default a (w c)) cs old.

(** A call of one of the two methods that manage the API verifiers. *)
Inductive APICall :=
| callEnableAPIVerifier (name : string)
| callDisableAPIVerifier (name : string).

(** A call of one of the two methods that manage the refresh schedule. *)
Inductive ScheduleCall :=
| callEnableAutoUpdateDisposable
| callDisableAutoUpdateDisposable.

Definition reschedule (r : Refresher) (c : ScheduleCall) : Refresher :=
  match c with
  | callEnableAutoUpdateDisposable => EnableAutoUpdateDisposable r
  | callDisableAutoUpdateDisposable => DisableAutoUpdateDisposable r
  end.

(** The schedules that were started and not stopped since. *)
Definition runningAfter (h : list ScheduleEvent) : list nat :=
  fold_left (λ run ev,
               match ev with
               | Started s => (run ++ [s])%list
               | Stopped s => List.filter (λ s', negb (s' =? s)%nat) run
               | Updated => run
               end) h [].

Section ManageAPIVerifiers.
Variable smtpAPIVerifier : Type.
Variable YAHOO : string.
Variable newYahooAPIVerifier : smtpAPIVerifier.

Definition manage (m : gmap string smtpAPIVerifier) (c : APICall)
  : gmap string smtpAPIVerifier :=
  match c with
  | callEnableAPIVerifier name =>
      fst (EnableAPIVerifier smtpAPIVerifier YAHOO newYahooAPIVerifier m name)
  | callDisableAPIVerifier name => DisableAPIVerifier smtpAPIVerifier m name
  end.
End ManageAPIVerifiers.

(** Either nothing is running, or the schedule of the [schedule] field
    is and nothing else. *)
Definition tidy (r : Refresher) : Prop :=
  runningAfter (history r) = []
  ∨ ∃ s, schedule r = Some s ∧ runningAfter (history r) = [s].




(** What the properties of the top-level-domain check use of
    [strings.ToLower].  It lower-cases rune by rune and leaves the ASCII
    dot alone: no other rune is mapped to a dot, and the bytes of a rune
    outside ASCII are all 0x80 or more.  So it puts no dot where there
    was none, and lower-casing a text with a dot in it is lower-casing
    the two sides of the dot. *)
Definition leavesDotsAlone (lower : string → string) : Prop :=
  (∀ s, containsByte dot s = false → containsByte dot (lower s) = false)
  ∧ (∀ a b, lower (a +:+ String dot b) = lower a +:+ String dot (lower b)).

(** * Properties *)

(** The test tables of the repository, run in that world. *)
Example TestTopLevelDomainExists_ch :
  TopLevelDomainExists (ToLower Sample.world) (GenericTLDs Sample.world)
      (CountryCodeTLDs Sample.world)
                       "example.ch" = true.
Proof. reflexivity. Qed.

Example TestTopLevelDomainExists_con :
  TopLevelDomainExists (ToLower Sample.world) (GenericTLDs Sample.world)
      (CountryCodeTLDs Sample.world)
                       "example.con" = false.
Proof. reflexivity. Qed.

Example TestCheckGravatarFailed :
  fst <$> CheckGravatar Sample.world (Sample.EnableGravatarCheck Sample.NewVerifier)
                        Background "MyemailaddressHasNoGravatar@example.com" []
  = Some (Some (mkGravatar false ""), None).
Proof. reflexivity. Qed.

Example TestCheckEmail_TLD_NotExists :
  fst <$> Verify Sample.world (Sample.DisableMXCheck Sample.NewVerifier) []
                 Background "exampleuser@iamdisposableemail.testing" []
  = Some (None, Some (errTLD "iamdisposableemail.testing")).
Proof. reflexivity. Qed.

(** *** Facts about the string primitives *)

Lemma lowerByte_dot c : Ascii.eqb (lowerByte c) dot = Ascii.eqb c dot.
Proof.
  unfold lowerByte. destruct (isUpperByte c) eqn:Hu; [|reflexivity].
  destruct c as [[] [] [] [] [] [] [] []]; vm_compute in Hu |- *;
    try reflexivity; discriminate.
Qed.

Lemma lowerByte_idem c : lowerByte (lowerByte c) = lowerByte c.
Proof. destruct c as [[] [] [] [] [] [] [] []]; reflexivity. Qed.

Lemma ToLowerASCII_idem s : ToLowerASCII (ToLowerASCII s) = ToLowerASCII s.
Proof. induction s as [|c r IH]; simpl; [reflexivity|]. by rewrite lowerByte_idem, IH. Qed.

Lemma ToLowerASCII_app a b : ToLowerASCII (a ++ b) = ToLowerASCII a ++ ToLowerASCII b.
Proof. induction a as [|c r IH]; simpl; [reflexivity|]. by rewrite IH. Qed.

Lemma containsByte_ToLowerASCII s : containsByte dot (ToLowerASCII s) = containsByte dot s.
Proof. induction s as [|c r IH]; simpl; [reflexivity|]. by rewrite lowerByte_dot, IH. Qed.

Lemma LastIndexByte_lower_bound s c : -1 <= LastIndexByte s c.
Proof.
  induction s as [|a r IH]; simpl; [lia|].
  destruct (0 <=? LastIndexByte r c) eqn:H; [apply Z.leb_le in H; lia|].
  destruct (Ascii.eqb a c); lia.
Qed.

Lemma LastIndexByte_absent s c :
  containsByte c s = false → LastIndexByte s c = -1.
Proof.
  induction s as [|a r IH]; simpl; [reflexivity|].
  intros [Ha Hr]%orb_false_iff. rewrite (IH Hr), Ha. reflexivity.
Qed.

Lemma LastIndexByte_present s c :
  containsByte c s = true → 0 <= LastIndexByte s c.
Proof.
  induction s as [|a r IH]; simpl; [discriminate|].
  destruct (0 <=? LastIndexByte r c) eqn:H.
  - apply Z.leb_le in H. lia.
  - destruct (Ascii.eqb a c); simpl; [lia|].
    intros Hr. apply IH in Hr. apply Z.leb_gt in H. lia.
Qed.

(** The last separator of [a ++ c :: b] sits right after [a] when [b]
    holds none. *)
Lemma LastIndexByte_split a b c :
  containsByte c b = false →
  LastIndexByte (a ++ String c b) c = Z.of_nat (String.length a).
Proof.
  intros Hb. induction a as [|x r IH].
  - simpl. rewrite (LastIndexByte_absent _ _ Hb). simpl.
    by rewrite Ascii.eqb_refl.
  - simpl. rewrite IH.
    destruct (0 <=? Z.of_nat (String.length r)) eqn:H; [lia|].
    apply Z.leb_gt in H. lia.
Qed.

Lemma sliceFrom_app a b : sliceFrom (String.length a) (a ++ b) = Some b.
Proof. induction a as [|x r IH]; simpl; [by destruct b|exact IH]. Qed.

(** The slice [email[lastDot+1:]] is always within bounds. *)
Lemma sliceFrom_after_LastIndexByte s c :
  is_Some (sliceFrom (Z.to_nat (LastIndexByte s c + 1)) s).
Proof.
  induction s as [|a r IH]; simpl; [eexists; reflexivity|].
  destruct (0 <=? LastIndexByte r c) eqn:H.
  - apply Z.leb_le in H.
    replace (Z.to_nat (LastIndexByte r c + 1 + 1))
      with (S (Z.to_nat (LastIndexByte r c + 1))) by lia.
    exact IH.
  - destruct (Ascii.eqb a c); simpl; eexists; reflexivity.
Qed.


(** ** The monad, unfolded *)

Lemma bind_Some {A B} (m : M A) (k : A → M B) t x t' :
  m t = Some (x, t') → (m ≫= k) t = k x t'.
Proof. intros H. unfold mbind, M_bind. by rewrite H. Qed.

Lemma bind_None {A B} (m : M A) (k : A → M B) t :
  m t = None → (m ≫= k) t = None.
Proof. intros H. unfold mbind, M_bind. by rewrite H. Qed.

Lemma bind_inv {A B} (m : M A) (k : A → M B) t y t'' :
  (m ≫= k) t = Some (y, t'') →
  ∃ x t', m t = Some (x, t') ∧ k x t' = Some (y, t'').
Proof.
  unfold mbind, M_bind. destruct (m t) as [[x t']|]; [|discriminate].
  intros H. by exists x, t'.
Qed.

Ltac run := unfold call, emit, panic, mbind, M_bind, mret, M_ret; simpl.

(** ** The reachability classifier *)

(** C1: on every SMTP result [s], [calculateReachable] is the classifier
    of the specification: unknown when SMTP checking is off, else yes for
    a deliverable mailbox, else unknown for a catch-all host, else no. *)
Theorem calculateReachable_is_classify (v : Verifier) (s : SMTP) :
  calculateReachable v (Some s)
  = Some (verdictName (classify (smtpCheckEnabled v) s))
  ∧ (smtpCheckEnabled v = false →
       calculateReachable v (Some s) = Some reachableUnknown)
  ∧ (smtpCheckEnabled v = true → Deliverable s = true →
       calculateReachable v (Some s) = Some reachableYes)
  ∧ (smtpCheckEnabled v = true → Deliverable s = false → CatchAll s = true →
       calculateReachable v (Some s) = Some reachableUnknown)
  ∧ (smtpCheckEnabled v = true → Deliverable s = false → CatchAll s = false →
       calculateReachable v (Some s) = Some reachableNo).
Proof.
  unfold calculateReachable, classify.
  repeat split; try (intros; repeat match goal with H : _ = _ |- _ => rewrite H end; reflexivity).
  destruct (smtpCheckEnabled v), (Deliverable s), (CatchAll s); reflexivity.
Qed.

Lemma calculateReachable_is_classify_witness :
  calculateReachable (Sample.EnableSMTPCheck Sample.NewVerifier)
                     (Some Sample.catchAllSMTP) = Some "unknown".
Proof.
  exact (proj1 (proj2 (proj2 (proj2
           (calculateReachable_is_classify
              (Sample.EnableSMTPCheck Sample.NewVerifier) Sample.catchAllSMTP))))
           eq_refl eq_refl eq_refl).
Defined.

(** ** The top-level-domain check *)

Lemma append_cons (x : ascii) (r s : string) :
  String x r +:+ s = String x (r +:+ s).
Proof. reflexivity. Qed.

Lemma append_snoc (a : string) (c : ascii) (b : string) :
  (a +:+ String c EmptyString) +:+ b = a +:+ String c b.
Proof.
  induction a as [|x r IH]; [reflexivity|].
  by rewrite !append_cons, IH.
Qed.

Lemma length_snoc (a : string) (c : ascii) :
  String.length (a +:+ String c EmptyString)
  = Z.to_nat (Z.of_nat (String.length a) + 1).
Proof.
  induction a as [|x r IH]; [reflexivity|].
  rewrite append_cons. simpl String.length. rewrite IH. lia.
Qed.

(** The byte loop is a lower-casing of the kind the properties ask
    for. *)
Lemma ToLowerASCII_leavesDotsAlone : leavesDotsAlone ToLowerASCII.
Proof.
  split.
  - intros s Hs. by rewrite containsByte_ToLowerASCII.
  - intros a b. rewrite ToLowerASCII_app. reflexivity.
Qed.

Section TLDFacts.
Variable lower : string → string.
Variables G C : gset string.
Hypothesis lower_ok : leavesDotsAlone lower.

Lemma TopLevelDomainExists_no_dot (s : string) :
  containsByte dot s = false → TopLevelDomainExists lower G C s = false.
Proof.
  intros H. unfold TopLevelDomainExists.
  rewrite LastIndexByte_absent; [reflexivity|].
  by apply (proj1 lower_ok).
Qed.

Lemma TopLevelDomainExists_suffix (a b : string) :
  containsByte dot b = false →
  TopLevelDomainExists lower G C (a +:+ String dot b)
  = bool_decide (lower b ∈ G) || bool_decide (lower b ∈ C).
Proof.
  intros Hb. unfold TopLevelDomainExists.
  rewrite (proj2 lower_ok).
  rewrite LastIndexByte_split by (by apply (proj1 lower_ok)).
  destruct (Z.of_nat (String.length (lower a)) =? -1) eqn:Hneg;
    [apply Z.eqb_eq in Hneg; lia|].
  rewrite <- (append_snoc (lower a) dot (lower b)).
  rewrite <- (length_snoc (lower a) dot).
  by rewrite sliceFrom_app.
Qed.
End TLDFacts.

(** C9: [strings.ToLower] leaving dots alone, an input without a dot is
    rejected; an input [a.b] whose part [b] holds no dot is accepted
    exactly when the lower-cased [b] is in one of the two tables; hence
    the answer is the same for inputs that differ in case only, and
    depends on the part after the last dot only.  When lower-casing
    twice is lower-casing once, the answer for the lower-cased input is
    the answer for the input. *)
Theorem TopLevelDomainExists_spec (lower : string → string) (G C : gset string) :
  leavesDotsAlone lower →
  (∀ s, containsByte dot s = false → TopLevelDomainExists lower G C s = false)
  ∧ (∀ a b, containsByte dot b = false →
       TopLevelDomainExists lower G C (a +:+ String dot b)
       = bool_decide (lower b ∈ G) || bool_decide (lower b ∈ C))
  ∧ (∀ s s', lower s = lower s' →
       TopLevelDomainExists lower G C s = TopLevelDomainExists lower G C s')
  ∧ ((∀ s, lower (lower s) = lower s) →
     ∀ s, TopLevelDomainExists lower G C (lower s)
          = TopLevelDomainExists lower G C s)
  ∧ (∀ a a' b b', containsByte dot b = false → containsByte dot b' = false →
       lower b = lower b' →
       TopLevelDomainExists lower G C (a +:+ String dot b)
       = TopLevelDomainExists lower G C (a' +:+ String dot b')).
Proof.
  intros Hlower. split; [|split; [|split; [|split]]].
  - by apply TopLevelDomainExists_no_dot.
  - by apply TopLevelDomainExists_suffix.
  - intros s s' Heq. unfold TopLevelDomainExists. by rewrite Heq.
  - intros Hidem s. unfold TopLevelDomainExists. by rewrite Hidem.
  - intros a a' b b' Hb Hb' Heq.
    rewrite !(TopLevelDomainExists_suffix lower G C Hlower) by assumption.
    by rewrite Heq.
Qed.

Lemma TopLevelDomainExists_spec_witness :
  TopLevelDomainExists ToLowerASCII {[ "com" ]} {[ "ch" ]} "localhost" = false
  ∧ TopLevelDomainExists ToLowerASCII {[ "com" ]} {[ "ch" ]} "Example.CH"
    = TopLevelDomainExists ToLowerASCII {[ "com" ]} {[ "ch" ]} "a.b.ch".
Proof.
  destruct (TopLevelDomainExists_spec ToLowerASCII {[ "com" ]} {[ "ch" ]}
              ToLowerASCII_leavesDotsAlone) as (H1 & _ & _ & _ & H5).
  split.
  - apply H1. reflexivity.
  - apply (H5 "Example" "a.b" "CH" "ch"); reflexivity.
Defined.

(** ** The mail-exchanger resolver *)

Section CheckMXFacts.
Variable E : Env.

Lemma CheckMX_disabled v ctx domain tr :
  mxCheckEnabled v = false →
  CheckMX E v ctx domain tr
  = Some ((Some (mkMx false []), None), (tr ++ [EvCheckMX domain])%list).
Proof. intros H. unfold CheckMX. run. by rewrite H. Qed.

Lemma CheckMX_enabled v ctx domain tr :
  mxCheckEnabled v = true →
  CheckMX E v ctx domain tr
  = let d := domainToASCII E domain in
    let '(mx, err) := LookupMX E ctx d in
    Some (match err, mx with
          | Some e, [] => (None, Some e)
          | _, _ => (Some (mkMx (0 <? length mx)%nat mx), None)
          end,
          (tr ++ [EvCheckMX domain] ++ [EvLookupMX d])%list).
Proof.
  intros H. unfold CheckMX. run. rewrite H. simpl.
  destruct (LookupMX E ctx (domainToASCII E domain)) as [mx [e|]];
    destruct mx; simpl; by rewrite <- app_assoc.
Qed.
End CheckMXFacts.





(** ** [Verify]: the paths that return before any check *)

Section ShortCircuits.
Variable E : Env.
Variables (v : Verifier) (order : list (nat * bool)) (ctx : Ctx).
Variables (email : string) (tr : list Event).

Let email' := trimLower E email.
Let syntax := ParseAddress E v email'.
Let domainIDNA := domainToASCII E (Domain syntax).

Lemma VerifyWith_invalid c :
  Valid syntax = false →
  VerifyWith E c v order ctx email tr
  = Some ((Some (mkResult email' reachableUnknown syntax None None ""
                          false false false false false), None),
          (tr ++ [EvParseAddress email'])%list).
Proof.
  intros H. unfold VerifyWith. run. fold email'. fold syntax.
  by rewrite H.
Qed.

Lemma VerifyWith_unknown_TLD c :
  Valid syntax = true →
  TopLevelDomainDisabled v = false →
  TopLevelDomainExists (ToLower E) (GenericTLDs E)
    (CountryCodeTLDs E) domainIDNA = false →
  VerifyWith E c v order ctx email tr
  = Some ((None, Some (errTLD domainIDNA)),
          (tr ++ classified E v email ++ [EvTopLevelDomainExists domainIDNA])%list).
Proof.
  intros H1 H2 H3. unfold VerifyWith. run. fold email'. fold syntax.
  rewrite H1, H2. simpl. fold domainIDNA. rewrite H3. simpl.
  by rewrite <- !app_assoc.
Qed.

Lemma VerifyWith_disposable c :
  Valid syntax = true →
  IsDisposable E v (Domain syntax) = true →
  (TopLevelDomainDisabled v = true
   ∨ TopLevelDomainExists (ToLower E) (GenericTLDs E)
       (CountryCodeTLDs E) domainIDNA = true) →
  VerifyWith E c v order ctx email tr
  = Some ((Some (mkResult email' reachableUnknown syntax None None ""
                          true (IsRoleAccount E v (Username syntax))
                          (IsFreeDomain E v (Domain syntax))
                          false (negb (TopLevelDomainDisabled v))), None),
          (tr ++ classified E v email
              ++ (if TopLevelDomainDisabled v then []
                  else [EvTopLevelDomainExists domainIDNA]))%list).
Proof.
  intros H1 H2 H3. unfold VerifyWith. run. fold email'. fold syntax.
  rewrite H1. simpl.
  destruct (TopLevelDomainDisabled v) eqn:Hd; simpl.
  - rewrite H2. by rewrite <- !app_assoc.
  - destruct H3 as [H3|H3]; [discriminate|].
    fold domainIDNA. rewrite H3. simpl. rewrite H2. by rewrite <- !app_assoc.
Qed.
End ShortCircuits.

(** C8: an address that fails syntax parsing gets a non-nil result that
    carries the syntax failure and otherwise zero values, with
    [Reachable] unknown, and a nil error; nothing but the parser is
    called. *)
Theorem Verify_invalid_syntax (E : Env) (v : Verifier)
    (order : list (nat * bool)) (ctx : Ctx) (email : string) (tr : list Event) :
  let syntax := ParseAddress E v (trimLower E email) in
  Valid syntax = false →
  ∃ r evs,
    Verify E v order ctx email tr = Some ((Some r, None), (tr ++ evs)%list)
    ∧ r = mkResult (trimLower E email) reachableUnknown syntax None None ""
                   false false false false false
    ∧ Valid (rSyntax r) = false
    ∧ rSMTP r = None ∧ HasMxRecords r = false ∧ TLDExists r = false
    ∧ Reachable r = reachableUnknown
    ∧ Forall (λ ev, isDownstreamEvent ev = false) evs.
Proof.
  intros syntax H. eexists _, _. split.
  - unfold Verify. by apply VerifyWith_invalid.
  - repeat split; try done. by repeat constructor.
Qed.

Lemma Verify_invalid_syntax_witness :
  ∃ r evs,
    Verify Sample.world Sample.NewVerifier [] Background "@yahoo.com" []
    = Some ((Some r, None), ([] ++ evs)%list)
    ∧ r = mkResult "@yahoo.com" "unknown" (mkSyntax "" "" false) None None ""
                   false false false false false
    ∧ Valid (rSyntax r) = false
    ∧ rSMTP r = None ∧ HasMxRecords r = false ∧ TLDExists r = false
    ∧ Reachable r = reachableUnknown
    ∧ Forall (λ ev, isDownstreamEvent ev = false) evs.
Proof.
  exact (Verify_invalid_syntax Sample.world Sample.NewVerifier [] Background
           "@yahoo.com" [] eq_refl).
Defined.

(** C7: a well-formed address whose top-level domain is in neither
    table, with the TLD check on, gets a nil result and the one error
    [TLD domain %q does not exist] for the ASCII form of its domain; no
    check is started. *)
Theorem Verify_unknown_TLD (E : Env) (v : Verifier)
    (order : list (nat * bool)) (ctx : Ctx) (email : string) (tr : list Event) :
  let syntax := ParseAddress E v (trimLower E email) in
  let domainIDNA := domainToASCII E (Domain syntax) in
  Valid syntax = true →
  TopLevelDomainDisabled v = false →
  TopLevelDomainExists (ToLower E) (GenericTLDs E)
    (CountryCodeTLDs E) domainIDNA = false →
  ∃ evs,
    Verify E v order ctx email tr
    = Some ((None, Some (errTLD domainIDNA)), (tr ++ evs)%list)
    ∧ (∀ quote, Error quote (errTLD domainIDNA)
                = "TLD domain " +:+ quote domainIDNA +:+ " does not exist")
    ∧ errTree (errTLD domainIDNA) = [errTLD domainIDNA]
    ∧ Forall (λ ev, isCheckEvent ev = false) evs.
Proof.
  intros syntax domainIDNA H1 H2 H3. eexists. split.
  - unfold Verify. by apply VerifyWith_unknown_TLD.
  - repeat split; try done. by repeat constructor.
Qed.

Lemma Verify_unknown_TLD_witness :
  ∃ evs,
    Verify Sample.world Sample.NewVerifier [] Background
           "exampleuser@iamdisposableemail.testing" []
    = Some ((None, Some (errTLD "iamdisposableemail.testing")), ([] ++ evs)%list)
    ∧ (∀ quote, Error quote (errTLD "iamdisposableemail.testing")
                = "TLD domain " +:+ quote "iamdisposableemail.testing"
                  +:+ " does not exist")
    ∧ errTree (errTLD "iamdisposableemail.testing")
      = [errTLD "iamdisposableemail.testing"]
    ∧ Forall (λ ev, isCheckEvent ev = false) evs.
Proof.
  exact (Verify_unknown_TLD Sample.world Sample.NewVerifier [] Background
           "exampleuser@iamdisposableemail.testing" [] eq_refl eq_refl eq_refl).
Defined.

(** C6: a well-formed address at a disposable domain whose TLD check
    passes (or is switched off) gets, with a nil error, a result that
    holds the classification flags only: [SMTP] and [Gravatar] nil,
    [HasMxRecords] false, [Suggestion] empty; none of the MX, SMTP,
    gravatar and suggestion checks is invoked. *)
Theorem Verify_disposable (E : Env) (v : Verifier)
    (order : list (nat * bool)) (ctx : Ctx) (email : string) (tr : list Event) :
  let syntax := ParseAddress E v (trimLower E email) in
  let domainIDNA := domainToASCII E (Domain syntax) in
  Valid syntax = true →
  IsDisposable E v (Domain syntax) = true →
  (TopLevelDomainDisabled v = true
   ∨ TopLevelDomainExists (ToLower E) (GenericTLDs E)
       (CountryCodeTLDs E) domainIDNA = true) →
  ∃ r evs,
    Verify E v order ctx email tr = Some ((Some r, None), (tr ++ evs)%list)
    ∧ r = mkResult (trimLower E email) reachableUnknown syntax None None ""
                   true (IsRoleAccount E v (Username syntax))
                   (IsFreeDomain E v (Domain syntax))
                   false (negb (TopLevelDomainDisabled v))
    ∧ rSMTP r = None ∧ HasMxRecords r = false
    ∧ rGravatar r = None ∧ Suggestion r = ""
    ∧ Forall (λ ev, isCheckEvent ev = false) evs.
Proof.
  intros syntax domainIDNA H1 H2 H3. eexists _, _. split.
  - unfold Verify. by apply VerifyWith_disposable.
  - repeat split; try done.
    unfold classified. destruct (TopLevelDomainDisabled v); by repeat constructor.
Qed.

Lemma Verify_disposable_witness :
  ∃ r evs,
    Verify Sample.world (Sample.EnableSMTPCheck Sample.NewVerifier) []
           Background "exampleuser@zzjbfwqi.shop" []
    = Some ((Some r, None), ([] ++ evs)%list)
    ∧ r = mkResult "exampleuser@zzjbfwqi.shop" "unknown"
                   (mkSyntax "exampleuser" "zzjbfwqi.shop" true) None None ""
                   true false false false true
    ∧ rSMTP r = None ∧ HasMxRecords r = false
    ∧ rGravatar r = None ∧ Suggestion r = ""
    ∧ Forall (λ ev, isCheckEvent ev = false) evs.
Proof.
  exact (Verify_disposable Sample.world (Sample.EnableSMTPCheck Sample.NewVerifier)
           [] Background "exampleuser@zzjbfwqi.shop" []
           eq_refl eq_refl (or_intror eq_refl)).
Defined.

(** ** [Verify]: the path into the checks *)

Lemma VerifyWith_valid E c v order ctx email tr :
  let email' := trimLower E email in
  let syntax := ParseAddress E v email' in
  let domainIDNA := domainToASCII E (Domain syntax) in
  Valid syntax = true →
  VerifyWith E c v order ctx email tr
  = if TopLevelDomainDisabled v
    then startChecks E c v order ctx email' syntax (classifiedResult E v email)
                     (tr ++ classified E v email)%list
    else if TopLevelDomainExists (ToLower E) (GenericTLDs E)
              (CountryCodeTLDs E) domainIDNA
    then startChecks E c v order ctx email' syntax
                     (setTLDExists true (classifiedResult E v email))
                     (tr ++ classified E v email
                         ++ [EvTopLevelDomainExists domainIDNA])%list
    else Some ((None, Some (errTLD domainIDNA)),
               (tr ++ classified E v email
                   ++ [EvTopLevelDomainExists domainIDNA])%list).
Proof.
  intros email' syntax domainIDNA H.
  unfold VerifyWith, call, emit.
  cbv [mbind M_bind mret M_ret]. fold email'. fold syntax. rewrite H.
  cbv [negb]. fold domainIDNA.
  unfold classified, classifiedResult. fold email'. fold syntax.
  unfold startChecks. cbv [mret M_ret].
  destruct (TopLevelDomainDisabled v); cbv [negb].
  - rewrite <- !app_assoc. reflexivity.
  - destruct (TopLevelDomainExists _ _ _ _); rewrite <- !app_assoc; reflexivity.
Qed.

(** ** Invariants of the shared result across the runners *)

Lemma noGroup_Go_preserves P ng ctx f ret tr ng' ret' tr' :
  preserves P f → P ret →
  noGroup_Go ng ctx f ret tr = Some ((ng', ret'), tr') → P ret'.
Proof.
  intros Hf HP H. unfold noGroup_Go in H.
  apply bind_inv in H as ([ret1 e1] & tr1 & Hrun & Hk).
  pose proof (Hf _ _ _ _ _ _ HP Hrun) as HP1.
  destruct e1; inversion Hk; by subst.
Qed.

Lemma finish_preserves P n :
  ∀ order running parent first ret tr e ret' tr',
    Forall (preserves P) running → P ret →
    finish n order running parent first ret tr = Some ((e, ret'), tr') →
    P ret'.
Proof.
  induction n as [|n IH]; intros order running parent first ret tr e ret' tr' Hall HP H.
  - inversion H; by subst.
  - simpl in H. destruct (hd (O, false) order) as [pick saw].
    destruct (running !! (pick `mod` length running)%nat) as [f|] eqn:Hf.
    + apply bind_inv in H as ([ret1 e1] & tr1 & Hrun & Hk).
      eapply IH; [| |exact Hk].
      * by apply Forall_delete.
      * eapply (Forall_lookup_1 _ _ _ _ Hall Hf); eauto.
    + inversion H; by subst.
Qed.

Lemma Go_noGroup_inv ng ctx f ret tr g' ret' tr' :
  Go (viaNoGroup ng) ctx f ret tr = Some ((g', ret'), tr') →
  ∃ ng', g' = viaNoGroup ng'
         ∧ noGroup_Go ng ctx f ret tr = Some ((ng', ret'), tr').
Proof.
  unfold Go. intros H.
  apply bind_inv in H as ([ng' r1] & t1 & Hgo & Hk).
  inversion Hk; subst. eauto.
Qed.

(** With the errgroup, the four [Go] calls only start the goroutines;
    everything happens by the time [Wait] returns. *)
Lemma runChecks_Group E order v ctx email syntax ret tr :
  runChecks E (viaGroup (WithContext order)) v ctx email syntax ret tr
  = (finish 4 order
            [checkMX E v syntax; checkSMTP E v syntax;
             checkGravatar E v email; suggest E v syntax]
            ctx None ret
     ≫= λ '(err, ret), match err with
                        | Some e => mret (Some ret, Some e)
                        | None => mret (Some ret, None)
                        end) tr.
Proof. reflexivity. Qed.

Section Invariant.
Variable E : Env.
Variable P : Result → Prop.
Variable v : Verifier.

Hypothesis P_init : ∀ em,
  P (mkResult em reachableUnknown (mkSyntax "" "" false) None None ""
              false false false false false).
Hypothesis P_setSyntax : ∀ x r, P r → P (setSyntax x r).
Hypothesis P_setFree : ∀ x r, P r → P (setFree x r).
Hypothesis P_setRoleAccount : ∀ x r, P r → P (setRoleAccount x r).
Hypothesis P_setDisposable : ∀ x r, P r → P (setDisposable x r).
Hypothesis P_setTLDExists : ∀ x r, P r → P (setTLDExists x r).
Hypothesis P_checkMX : ∀ syntax, preserves P (checkMX E v syntax).
Hypothesis P_checkSMTP : ∀ syntax, preserves P (checkSMTP E v syntax).
Hypothesis P_checkGravatar : ∀ email, preserves P (checkGravatar E v email).
Hypothesis P_suggest : ∀ syntax, preserves P (suggest E v syntax).

Lemma runChecks_noGroup_invariant ctx email syntax ret tr r e tr' :
  P ret →
  runChecks E (viaNoGroup (mkNoGroup None)) v ctx email syntax ret tr
  = Some ((r, e), tr') →
  ∃ ret', r = Some ret' ∧ P ret'.
Proof.
  intros HP H. unfold runChecks in H.
  apply bind_inv in H as ([g1 r1] & t1 & H1 & H).
  apply Go_noGroup_inv in H1 as (ng1 & -> & H1).
  apply bind_inv in H as ([g2 r2] & t2 & H2 & H).
  apply Go_noGroup_inv in H2 as (ng2 & -> & H2).
  apply bind_inv in H as ([g3 r3] & t3 & H3 & H).
  apply Go_noGroup_inv in H3 as (ng3 & -> & H3).
  apply bind_inv in H as ([g4 r4] & t4 & H4 & H).
  apply Go_noGroup_inv in H4 as (ng4 & -> & H4).
  apply (noGroup_Go_preserves P) in H1; [|auto|done].
  apply (noGroup_Go_preserves P) in H2; [|auto|done].
  apply (noGroup_Go_preserves P) in H3; [|auto|done].
  apply (noGroup_Go_preserves P) in H4; [|auto|done].
  revert H. unfold Wait. run.
  destruct (noGroup_Wait ng4); intros H; inversion H; subst; eauto.
Qed.

Lemma runChecks_Group_invariant order ctx email syntax ret tr r e tr' :
  P ret →
  runChecks E (viaGroup (WithContext order)) v ctx email syntax ret tr
  = Some ((r, e), tr') →
  ∃ ret', r = Some ret' ∧ P ret'.
Proof.
  intros HP H. rewrite runChecks_Group in H.
  apply bind_inv in H as ([e1 ret1] & tr1 & Hfin & Hk).
  assert (P ret1).
  { eapply finish_preserves; [|exact HP|exact Hfin].
    repeat constructor; auto. }
  destruct e1; inversion Hk; subst; eauto.
Qed.

Lemma VerifyWith_invariant c order ctx email tr r e tr' :
  VerifyWith E c v order ctx email tr = Some ((Some r, e), tr') → P r.
Proof.
  set (email' := trimLower E email). set (syntax := ParseAddress E v email').
  assert (Hrest : ∀ ret0 tr0,
    P ret0 →
    startChecks E c v order ctx email' syntax ret0 tr0 = Some ((Some r, e), tr') →
    P r).
  { intros ret0 tr0 HP0 H. unfold startChecks in H. destruct (Disposable ret0).
    - inversion H; by subst.
    - destruct c.
      + apply runChecks_Group_invariant in H as (ret' & Heq & HP'); [|done].
        by inversion Heq; subst.
      + apply runChecks_noGroup_invariant in H as (ret' & Heq & HP'); [|done].
        by inversion Heq; subst. }
  assert (HP1 : P (classifiedResult E v email)).
  { apply (P_setDisposable (IsDisposable E v (Domain syntax))
             (mkResult email' reachableUnknown syntax None None ""
                       false (IsRoleAccount E v (Username syntax))
                       (IsFreeDomain E v (Domain syntax)) false false)).
    apply (P_setRoleAccount (IsRoleAccount E v (Username syntax))
             (mkResult email' reachableUnknown syntax None None ""
                       false false
                       (IsFreeDomain E v (Domain syntax)) false false)).
    apply (P_setFree (IsFreeDomain E v (Domain syntax))
             (mkResult email' reachableUnknown syntax None None ""
                       false false false false false)).
    apply (P_setSyntax syntax
             (mkResult email' reachableUnknown (mkSyntax "" "" false) None None ""
                       false false false false false)).
    apply P_init. }
  destruct (Valid syntax) eqn:Hvalid.
  - rewrite VerifyWith_valid by exact Hvalid.
    destruct (TopLevelDomainDisabled v).
    + by apply Hrest.
    + destruct (TopLevelDomainExists _ _ _ _); [|discriminate].
      apply Hrest. by apply P_setTLDExists.
  - rewrite VerifyWith_invalid by exact Hvalid.
    intros H. inversion H; subst.
    apply (P_setSyntax syntax
             (mkResult email' reachableUnknown (mkSyntax "" "" false) None None ""
                       false false false false false)).
    apply P_init.
Qed.
End Invariant.

(** ** What one run of a check closure amounts to *)

Section Shapes.
Variable E : Env.
Variable v : Verifier.

Lemma checkMX_shape syntax ctx :
  ∃ evs,
    (∃ x, behaves (checkMX E v syntax) ctx
            (Yields (λ r, r) (Some (errWrap "CheckMX failed: " x)) evs))
    ∨ (∃ b, behaves (checkMX E v syntax) ctx
              (Yields (setHasMxRecords b) None evs)).
Proof.
  destruct (mxCheckEnabled v) eqn:Hv.
  - exists ([EvCheckMX (Domain syntax)]
            ++ [EvLookupMX (domainToASCII E (Domain syntax))])%list.
    destruct (LookupMX E ctx (domainToASCII E (Domain syntax)))
      as [mx [e|]] eqn:HL; [destruct mx as [|r mx]|].
    + left. exists e. intros ret tr. unfold checkMX.
      erewrite bind_Some by (rewrite CheckMX_enabled by done; simpl; rewrite HL; reflexivity).
      reflexivity.
    + right. exists true. intros ret tr. unfold checkMX.
      erewrite bind_Some by (rewrite CheckMX_enabled by done; simpl; rewrite HL; reflexivity).
      reflexivity.
    + right. exists (0 <? length mx)%nat. intros ret tr. unfold checkMX.
      erewrite bind_Some by (rewrite CheckMX_enabled by done; simpl; rewrite HL; reflexivity).
      destruct mx; reflexivity.
  - exists [EvCheckMX (Domain syntax)]. right. exists false.
    intros ret tr. unfold checkMX.
    erewrite bind_Some by (by apply CheckMX_disabled).
    reflexivity.
Qed.

Lemma checkMX_disabled_shape syntax ctx :
  mxCheckEnabled v = false →
  behaves (checkMX E v syntax) ctx
    (Yields (setHasMxRecords false) None [EvCheckMX (Domain syntax)]).
Proof.
  intros Hv ret tr. unfold checkMX.
  erewrite bind_Some by (by apply CheckMX_disabled).
  reflexivity.
Qed.

Lemma checkSMTP_shape syntax ctx :
  behaves (checkSMTP E v syntax) ctx Panics
  ∨ ∃ evs,
      (∃ x, behaves (checkSMTP E v syntax) ctx
              (Yields (λ r, r) (Some (errWrap "CheckSMTP failed: " x)) evs))
      ∨ (∃ smtp reachable,
           calculateReachable v smtp = Some reachable
           ∧ behaves (checkSMTP E v syntax) ctx
               (Yields (λ r, setReachable reachable (setSMTP smtp r)) None evs)).
Proof.
  destruct (probeSMTP E v ctx (Domain syntax) (Username syntax))
    as [smtp [e|]] eqn:Hp.
  - right. eexists. left. exists e. intros ret tr.
    unfold checkSMTP, CheckSMTP. run. by rewrite Hp.
  - destruct (calculateReachable v smtp) as [reachable|] eqn:Hc.
    + right. eexists. right. exists smtp, reachable. split; [done|].
      intros ret tr. unfold checkSMTP, CheckSMTP. run. by rewrite Hp, Hc.
    + left. intros ret tr. unfold checkSMTP, CheckSMTP. run. by rewrite Hp, Hc.
Qed.

Lemma CheckGravatar_disabled ctx email tr :
  gravatarCheckEnabled v = false →
  CheckGravatar E v ctx email tr
  = Some ((None, None), (tr ++ [EvCheckGravatar email])%list).
Proof. intros H. unfold CheckGravatar. run. by rewrite H. Qed.

Lemma CheckGravatar_shape ctx email :
  (∀ tr, CheckGravatar E v ctx email tr = None)
  ∨ ∃ g e evs,
      ∀ tr, CheckGravatar E v ctx email tr = Some ((g, e), (tr ++ evs)%list).
Proof.
  unfold CheckGravatar. run.
  destruct (gravatarCheckEnabled v); simpl; [|right; by eexists _, _, _].
  destruct (getMD5Hash E (trimLower E email)) as [emailMd5 [e|]];
    [right; by eexists _, _, _|].
  destruct (NewRequest E _) as [e|]; [right; by eexists _, _, _|].
  destruct (Do E _ _) as [resp [e|]].
  { right. eexists _, _, _. intros tr. by rewrite <- app_assoc. }
  destruct resp as [resp|]; [|by left].
  destruct (Body resp) as [body [e|]].
  { right. eexists _, _, _. intros tr. by rewrite <- app_assoc. }
  destruct (getMD5Hash E body) as [md5Body [e|]].
  { right. eexists _, _, _. intros tr. by rewrite <- app_assoc. }
  destruct (_ || _);
    right; eexists _, _, _; intros tr; by rewrite <- app_assoc.
Qed.

Lemma checkGravatar_shape email ctx :
  behaves (checkGravatar E v email) ctx Panics
  ∨ ∃ evs,
      (∃ x, behaves (checkGravatar E v email) ctx
              (Yields (λ r, r) (Some (errWrap "CheckGravatar failed: " x)) evs))
      ∨ (∃ g, behaves (checkGravatar E v email) ctx
                (Yields (setGravatar g) None evs)).
Proof.
  destruct (CheckGravatar_shape ctx email) as [Hp|(g & e & evs & H)].
  - left. intros ret tr. unfold checkGravatar. by rewrite bind_None.
  - right. exists evs. destruct e as [e|].
    + left. exists e. intros ret tr. unfold checkGravatar.
      by erewrite bind_Some by apply H.
    + right. exists g. intros ret tr. unfold checkGravatar.
      by erewrite bind_Some by apply H.
Qed.

Lemma checkGravatar_disabled_shape email ctx :
  gravatarCheckEnabled v = false →
  behaves (checkGravatar E v email) ctx
    (Yields (setGravatar None) None [EvCheckGravatar email]).
Proof.
  intros Hv ret tr. unfold checkGravatar.
  by erewrite bind_Some by (by apply CheckGravatar_disabled).
Qed.

Lemma suggest_shape syntax ctx :
  ∃ evs,
    behaves (suggest E v syntax) ctx (Yields (λ r, r) None evs)
    ∨ ∃ s, behaves (suggest E v syntax) ctx (Yields (setSuggestion s) None evs).
Proof.
  unfold behaves, suggest. destruct (domainSuggestEnabled v).
  - eexists. right. eexists. intros ret tr. run. reflexivity.
  - exists []. left. intros ret tr. run. by rewrite app_nil_r.
Qed.

End Shapes.

Lemma behaves_preserves (P : Result → Prop) (f : Task) :
  (∀ ctx, ∃ o, behaves f ctx o
               ∧ match o with
                 | Panics => True
                 | Yields upd _ _ => ∀ r, P r → P (upd r)
                 end) →
  preserves P f.
Proof.
  intros H ctx ret tr ret' e tr' HP Hrun.
  destruct (H ctx) as (o & Hb & Ho). rewrite Hb in Hrun.
  destruct o as [|upd e0 evs]; [discriminate|].
  inversion Hrun; subst. by apply Ho.
Qed.

(** ** SMTP checking switched off *)

Lemma calculateReachable_disabled v s :
  smtpCheckEnabled v = false → calculateReachable v s = Some reachableUnknown.
Proof. intros H. unfold calculateReachable. by rewrite H. Qed.

(** C4: with SMTP checking off, whatever result [Verify] returns (on the
    invalid-syntax path, on the disposable path, after a failed check or
    after all checks) has [Reachable] unknown, hence neither yes nor
    no. *)
Theorem Verify_smtp_disabled_unknown (E : Env) (v : Verifier)
    (order : list (nat * bool)) (ctx : Ctx) (email : string)
    (tr : list Event) (r : Result) (e : option error) (tr' : list Event) :
  smtpCheckEnabled v = false →
  Verify E v order ctx email tr = Some ((Some r, e), tr') →
  Reachable r = reachableUnknown
  ∧ Reachable r ≠ reachableYes ∧ Reachable r ≠ reachableNo.
Proof.
  intros Hv H.
  assert (HR : Reachable r = reachableUnknown).
  { unfold Verify in H. revert H.
    apply (VerifyWith_invariant E (λ r, Reachable r = reachableUnknown) v);
      try done.
    - intros syntax. apply behaves_preserves. intros c.
      destruct (checkMX_shape E v syntax c) as (evs & [(x & Hb)|(b & Hb)]);
        eexists; (split; [exact Hb|]); cbn; auto.
    - intros syntax. apply behaves_preserves. intros c.
      destruct (checkSMTP_shape E v syntax c)
        as [Hb|(evs & [(x & Hb)|(smtp & reachable & Hc & Hb)])];
        eexists; (split; [exact Hb|]); cbn; auto.
      intros r0 _. simpl. rewrite calculateReachable_disabled in Hc by done.
      by inversion Hc.
    - intros em. apply behaves_preserves. intros c.
      destruct (checkGravatar_shape E v em c)
        as [Hb|(evs & [(x & Hb)|(g & Hb)])];
        eexists; (split; [exact Hb|]); cbn; auto.
    - intros syntax. apply behaves_preserves. intros c.
      destruct (suggest_shape E v syntax c) as (evs & [Hb|(s & Hb)]);
        eexists; (split; [exact Hb|]); cbn; auto. }
  rewrite HR. by repeat split.
Qed.

Lemma Verify_smtp_disabled_unknown_witness :
  Reachable (mkResult "user@github.com" "unknown"
                      (mkSyntax "user" "github.com" true) None None ""
                      false false false true true) = reachableUnknown
  ∧ "unknown" ≠ reachableYes ∧ "unknown" ≠ reachableNo.
Proof.
  exact (Verify_smtp_disabled_unknown Sample.world Sample.NewVerifier []
           Background "User@GitHub.com" [] _ None _ eq_refl eq_refl).
Defined.

(** ** Gravatar checking switched off *)

(** C10: with gravatar checking off, [CheckGravatar] returns nil, nil
    and logs nothing but its own invocation (no request goes out), and
    whatever result [Verify] returns has a nil [Gravatar]. *)
Theorem CheckGravatar_disabled_nil (E : Env) (v : Verifier) :
  gravatarCheckEnabled v = false →
  (∀ ctx email tr,
     CheckGravatar E v ctx email tr
     = Some ((None, None), (tr ++ [EvCheckGravatar email])%list))
  ∧ (∀ order ctx email tr r e tr',
       Verify E v order ctx email tr = Some ((Some r, e), tr') →
       rGravatar r = None).
Proof.
  intros Hv. split.
  - intros ctx email tr. by apply CheckGravatar_disabled.
  - intros order ctx email tr r e tr'. unfold Verify.
    apply (VerifyWith_invariant E (λ r, rGravatar r = None) v); try done.
    + intros syntax. apply behaves_preserves. intros c.
      destruct (checkMX_shape E v syntax c) as (evs & [(x & Hb)|(b & Hb)]);
        eexists; (split; [exact Hb|]); cbn; auto.
    + intros syntax. apply behaves_preserves. intros c.
      destruct (checkSMTP_shape E v syntax c)
        as [Hb|(evs & [(x & Hb)|(smtp & reachable & Hc & Hb)])];
        eexists; (split; [exact Hb|]); cbn; auto.
    + intros em. apply behaves_preserves. intros c.
      eexists. split; [by apply checkGravatar_disabled_shape|]. cbn; auto.
    + intros syntax. apply behaves_preserves. intros c.
      destruct (suggest_shape E v syntax c) as (evs & [Hb|(s & Hb)]);
        eexists; (split; [exact Hb|]); cbn; auto.
Qed.

Lemma CheckGravatar_disabled_nil_witness :
  CheckGravatar Sample.world Sample.NewVerifier Background "alex@pagerduty.com" []
  = Some ((None, None), [EvCheckGravatar "alex@pagerduty.com"]).
Proof.
  exact (proj1 (CheckGravatar_disabled_nil Sample.world Sample.NewVerifier eq_refl)
           Background "alex@pagerduty.com" []).
Defined.

(** ** Runs of the two runners, in terms of what the closures amount to *)

Lemma Go_noGroup_behaves ng ctx f o ret tr :
  behaves f ctx o →
  Go (viaNoGroup ng) ctx f ret tr
  = match o with
    | Panics => None
    | Yields upd e evs =>
        Some ((viaNoGroup (match e with
                           | Some x => mkNoGroup (errors_Join [err ng; Some x])
                           | None => ng
                           end), upd ret), (tr ++ evs)%list)
    end.
Proof.
  intros Hb. unfold Go, noGroup_Go, mbind, M_bind. rewrite (Hb ret tr).
  destruct o as [|upd e evs]; [reflexivity|]. by destruct e.
Qed.

Lemma runChecks_noGroup_seqRun E v ctx email syntax o1 o2 o3 o4 ret tr :
  behaves (checkMX E v syntax) ctx o1 →
  behaves (checkSMTP E v syntax) ctx o2 →
  behaves (checkGravatar E v email) ctx o3 →
  behaves (suggest E v syntax) ctx o4 →
  runChecks E (viaNoGroup (mkNoGroup None)) v ctx email syntax ret tr
  = match seqRun [o1; o2; o3; o4] None ret tr with
    | Some ((e, ret'), tr') => Some ((Some ret', e), tr')
    | None => None
    end.
Proof.
  intros H1 H2 H3 H4. unfold runChecks.
  destruct o1 as [|u1 e1 l1];
    [by rewrite bind_None by (by rewrite (Go_noGroup_behaves _ _ _ _ _ _ H1))|].
  erewrite bind_Some by (by rewrite (Go_noGroup_behaves _ _ _ _ _ _ H1)).
  destruct o2 as [|u2 e2 l2];
    [by rewrite bind_None by (by rewrite (Go_noGroup_behaves _ _ _ _ _ _ H2))|].
  erewrite bind_Some by (by rewrite (Go_noGroup_behaves _ _ _ _ _ _ H2)).
  destruct o3 as [|u3 e3 l3];
    [by rewrite bind_None by (by rewrite (Go_noGroup_behaves _ _ _ _ _ _ H3))|].
  erewrite bind_Some by (by rewrite (Go_noGroup_behaves _ _ _ _ _ _ H3)).
  destruct o4 as [|u4 e4 l4];
    [by rewrite bind_None by (by rewrite (Go_noGroup_behaves _ _ _ _ _ _ H4))|].
  erewrite bind_Some by (by rewrite (Go_noGroup_behaves _ _ _ _ _ _ H4)).
  unfold Wait. run.
  destruct e1, e2, e3, e4; reflexivity.
Qed.

Lemma finish_concRun n :
  ∀ order running os parent first ret tr,
    Forall2 (λ f oo, behaves f parent (fst oo)
                     ∧ behaves f (cancel parent) (snd oo)) running os →
    finish n order running parent first ret tr
    = concRun n order os first ret tr.
Proof.
  induction n as [|n IH]; intros order running os parent first ret tr Hall;
    [reflexivity|].
  simpl. destruct (hd (O, false) order) as [pick saw].
  rewrite <- (Forall2_length _ _ _ Hall).
  destruct (running !! (pick `mod` length running)%nat) as [f|] eqn:Hf.
  - destruct (Forall2_lookup_l _ _ _ _ _ Hall Hf) as ([o o'] & Ho & Hb & Hb').
    rewrite Ho. simpl in Hb, Hb'.
    set (c := match first with
              | Some _ => if saw then cancel parent else parent
              | None => parent
              end).
    assert (Hc : behaves f c (match first with
                              | Some _ => if saw then o' else o
                              | None => o
                              end)).
    { unfold c. destruct first; [destruct saw|]; assumption. }
    destruct (match first with
              | Some _ => if saw then o' else o
              | None => o
              end) as [|upd e evs].
    + apply bind_None, Hc.
    + erewrite bind_Some by apply Hc.
      apply IH. by apply Forall2_delete.
  - destruct (os !! (pick `mod` length running)%nat) as [[o o']|] eqn:Ho;
      [|reflexivity].
    destruct (Forall2_lookup_r _ _ _ _ _ Hall Ho) as (f & Hf' & _).
    assert (Hno : Some f = None) by (etransitivity; [symmetry; exact Hf'|exact Hf]).
    discriminate Hno.
Qed.

(** ** Which failures reach the caller *)

Lemma errTree_head x : In x (errTree x).
Proof. destruct x; simpl; by left. Qed.

Lemma behaves_fails f ctx o x :
  behaves f ctx o → fails f ctx x → ∃ upd evs, o = Yields upd (Some x) evs.
Proof.
  intros Hb (ret & tr & ret' & tr' & H). rewrite Hb in H.
  destruct o as [|upd e evs]; [discriminate|].
  inversion H; subst. eauto.
Qed.

Lemma fails_of_behaves f ctx upd x evs :
  behaves f ctx (Yields upd (Some x) evs) → fails f ctx x.
Proof.
  intros Hb.
  exists (mkResult "" "" (mkSyntax "" "" false) None None ""
                   false false false false false), [].
  eexists _, _. apply Hb.
Qed.

Lemma exposes_join acc x y :
  (exposes acc y → exposes (errors_Join [acc; Some x]) y)
  ∧ exposes (errors_Join [acc; Some x]) x.
Proof.
  destruct acc as [a|]; simpl; unfold errors_Join; simpl; split.
  - intros (e' & He & Hin). inversion He; subst.
    eexists. split; [reflexivity|]. simpl. right.
    apply in_or_app. by left.
  - eexists. split; [reflexivity|]. simpl. right.
    apply in_or_app. right. apply in_or_app. left. apply errTree_head.
  - intros (e' & He & _). discriminate.
  - eexists. split; [reflexivity|]. simpl. right.
    apply in_or_app. left. apply errTree_head.
Qed.

Lemma seqRun_exposes os :
  ∀ acc ret tr e ret' tr',
    seqRun os acc ret tr = Some ((e, ret'), tr') →
    (∀ y, exposes acc y → exposes e y)
    ∧ (∀ upd x evs, In (Yields upd (Some x) evs) os → exposes e x).
Proof.
  induction os as [|o os IH]; intros acc ret tr e ret' tr' H.
  - inversion H; subst. split; [auto|]. intros ? ? ? [].
  - destruct o as [|upd0 e0 evs0]; [discriminate|]. simpl in H.
    apply IH in H as [Hacc Hos]. split.
    + intros y Hy. apply Hacc. destruct e0 as [x0|]; [|exact Hy].
      by apply (proj1 (exposes_join acc x0 y)).
    + intros upd x evs [Heq|Hin].
      * inversion Heq; subst. apply Hacc. apply (proj2 (exposes_join acc x x)).
      * eapply Hos. exact Hin.
Qed.

Lemma concRun_first n :
  ∀ order os first ret tr e ret' tr',
    concRun n order os first ret tr = Some ((e, ret'), tr') →
    match first with
    | Some x => e = Some x
    | None => e = None
              ∨ ∃ upd x evs o', (Yields upd (Some x) evs, o') ∈ os ∧ e = Some x
    end.
Proof.
  induction n as [|n IH]; intros order os first ret tr e ret' tr' H.
  - inversion H; subst. destruct e; auto.
  - simpl in H. destruct (hd (O, false) order) as [pick saw].
    destruct (os !! (pick `mod` length os)%nat) as [[o o']|] eqn:Ho.
    + destruct first as [x|].
      * destruct (if saw then o' else o) as [|upd e0 evs]; [discriminate|].
        by apply IH in H.
      * destruct o as [|upd e0 evs]; [discriminate|].
        apply IH in H. destruct e0 as [x|].
        -- right. exists upd, x, evs, o'. split; [|done].
           by eapply list_elem_of_lookup_2.
        -- destruct H as [H|(upd1 & x & evs1 & o1 & Hin & He)]; [by left|].
           right. exists upd1, x, evs1, o1. split; [|done].
           by eapply list_elem_of_delete_inv.
    + inversion H; subst. destruct e; auto.
Qed.

Lemma elem_of_delete_or {A} (l : list A) i x y :
  x ∈ l → l !! i = Some y → x = y ∨ x ∈ delete i l.
Proof.
  intros [j Hj]%list_elem_of_lookup_1 Hi.
  destruct (decide (j = i)) as [->|Hne].
  - left. congruence.
  - right. destruct (decide (j < i)%nat) as [Hlt|Hge].
    + apply (list_elem_of_lookup_2 _ j). by rewrite list_lookup_delete_lt.
    + destruct j as [|j]; [lia|].
      apply (list_elem_of_lookup_2 _ j). rewrite list_lookup_delete_ge by lia. done.
Qed.

Lemma concRun_quiet n :
  ∀ order os ret tr ret' tr',
    (length os ≤ n)%nat →
    concRun n order os None ret tr = Some ((None, ret'), tr') →
    ∀ o o', (o, o') ∈ os → ∃ upd evs, o = Yields upd None evs.
Proof.
  induction n as [|n IH]; intros order os ret tr ret' tr' Hlen H o o' Hin.
  - destruct os; [by apply elem_of_nil in Hin|simpl in Hlen; lia].
  - simpl in H. destruct (hd (O, false) order) as [pick saw].
    destruct (os !! (pick `mod` length os)%nat) as [[o1 o1']|] eqn:Ho.
    + destruct o1 as [|upd e0 evs]; [discriminate|].
      pose proof (concRun_first _ _ _ _ _ _ _ _ _ H) as Hf.
      destruct e0 as [x|]; [discriminate|].
      destruct (elem_of_delete_or _ _ _ _ Hin Ho) as [Heq|Hin'].
      * inversion Heq; subst. eauto.
      * eapply IH; [|exact H|exact Hin'].
        pose proof (lookup_lt_Some _ _ _ Ho).
        rewrite length_delete by eauto. lia.
    + destruct os as [|p os]; [by apply elem_of_nil in Hin|].
      apply lookup_ge_None in Ho.
      pose proof (Nat.mod_upper_bound pick (length (p :: os))) as Hm.
      simpl in Hm, Ho. lia.
Qed.

(** Every goroutine finishes, and finishes once. *)
Lemma completion_Permutation {A} (n : nat) :
  ∀ order (running : list A),
    (length running ≤ n)%nat → completion n order running ≡ₚ running.
Proof.
  induction n as [|n IH]; intros order running Hlen.
  - destruct running; [reflexivity|simpl in Hlen; lia].
  - cbn [completion].
    destruct (running !! (fst (hd (O, false) order) `mod` length running)%nat)
      as [f|] eqn:Hf.
    + rewrite IH.
      * symmetry. by apply delete_Permutation.
      * pose proof (lookup_lt_Some _ _ _ Hf). rewrite length_delete by eauto. lia.
    + destruct running as [|f running]; [reflexivity|].
      apply lookup_ge_None in Hf.
      pose proof (Nat.mod_upper_bound (fst (hd (O, false) order))
                    (length (f :: running))) as Hm.
      simpl in Hm, Hf. lia.
Qed.

(** Once [errOnce] holds an error, that is the error [Wait] returns. *)
Lemma finish_keeps_first n :
  ∀ order running parent x ret tr e ret' tr',
    finish n order running parent (Some x) ret tr = Some ((e, ret'), tr') →
    e = Some x.
Proof.
  induction n as [|n IH]; intros order running parent x ret tr e ret' tr' H.
  - by inversion H.
  - simpl in H. destruct (hd (O, false) order) as [pick saw].
    destruct (running !! (pick `mod` length running)%nat) as [f|];
      [|by inversion H].
    apply bind_inv in H as ([ret1 e1] & tr1 & _ & H). by apply IH in H.
Qed.

(** The error [Wait] returns is the error of the first goroutine, in
    the order in which they finish, that fails under the context of the
    caller; the goroutines before it ran under that context, too. *)
Lemma finish_first n :
  ∀ order running parent ret tr e ret' tr',
    (∀ f, f ∈ running → ∃ o, behaves f parent o) →
    finish n order running parent None ret tr = Some ((e, ret'), tr') →
    match e with
    | Some x => firstToFail parent (completion n order running) x
    | None => ∀ g, g ∈ completion n order running → ∀ y, ¬ fails g parent y
    end.
Proof.
  induction n as [|n IH]; intros order running parent ret tr e ret' tr' Hu H.
  - inversion H; subst. intros g Hg. by apply elem_of_nil in Hg.
  - simpl in H. cbn [completion].
    destruct (hd (O, false) order) as [pick saw]. cbn [fst].
    destruct (running !! (pick `mod` length running)%nat) as [f|] eqn:Hf.
    + destruct (Hu f (list_elem_of_lookup_2 _ _ _ Hf)) as [o Hb].
      unfold mbind, M_bind in H. rewrite (Hb ret tr) in H.
      destruct o as [|upd e0 evs]; [discriminate|].
      destruct e0 as [x|].
      * apply finish_keeps_first in H. subst e.
        exists [], f, (completion n (tl order)
                         (delete (pick `mod` length running)%nat running)).
        split; [reflexivity|]. split; [by eapply fails_of_behaves|].
        intros g Hg. by apply elem_of_nil in Hg.
      * assert (Hquiet : ∀ y, ¬ fails f parent y).
        { intros y Hy. destruct (behaves_fails _ _ _ _ Hb Hy) as (? & ? & Heq).
          discriminate. }
        apply IH in H.
        2:{ intros g Hg. apply Hu. by eapply list_elem_of_delete_inv. }
        destruct e as [x|].
        -- destruct H as (pre & g & post & Heq & Hg & Hpre).
           exists (f :: pre), g, post. rewrite Heq.
           split; [reflexivity|]. split; [exact Hg|].
           intros h [->|Hh]%elem_of_cons; [exact Hquiet|by apply Hpre].
        -- intros g [->|Hg]%elem_of_cons; [exact Hquiet|by apply H].
    + inversion H; subst. intros g Hg. by apply elem_of_nil in Hg.
Qed.

Section Reported.
Variable E : Env.
Variable v : Verifier.

Lemma checkMX_uniform syntax ctx : ∃ o, behaves (checkMX E v syntax) ctx o.
Proof.
  destruct (checkMX_shape E v syntax ctx) as (evs & [(x & H)|(b & H)]); eauto.
Qed.

Lemma checkSMTP_uniform syntax ctx : ∃ o, behaves (checkSMTP E v syntax) ctx o.
Proof.
  destruct (checkSMTP_shape E v syntax ctx)
    as [H|(evs & [(x & H)|(smtp & reachable & _ & H)])]; eauto.
Qed.

Lemma checkGravatar_uniform email ctx :
  ∃ o, behaves (checkGravatar E v email) ctx o.
Proof.
  destruct (checkGravatar_shape E v email ctx)
    as [H|(evs & [(x & H)|(g & H)])]; eauto.
Qed.

Lemma suggest_quiet syntax ctx :
  ∃ upd evs, behaves (suggest E v syntax) ctx (Yields upd None evs).
Proof.
  destruct (suggest_shape E v syntax ctx) as (evs & [H|(s & H)]); eauto.
Qed.

Lemma runChecks_noGroup_failures ctx email syntax ret tr r e tr' :
  runChecks E (viaNoGroup (mkNoGroup None)) v ctx email syntax ret tr
  = Some ((r, e), tr') →
  is_Some r ∧ ∀ x, checkFails E v ctx email syntax x → exposes e x.
Proof.
  destruct (checkMX_uniform syntax ctx) as [o1 H1].
  destruct (checkSMTP_uniform syntax ctx) as [o2 H2].
  destruct (checkGravatar_uniform email ctx) as [o3 H3].
  destruct (suggest_quiet syntax ctx) as (u4 & l4 & H4).
  rewrite (runChecks_noGroup_seqRun _ _ _ _ _ _ _ _ _ _ _ H1 H2 H3 H4).
  destruct (seqRun _ _ _ _) as [[[e0 ret0] tr0]|] eqn:Hrun; [|discriminate].
  intros H. inversion H; subst. split; [by eexists|].
  apply seqRun_exposes in Hrun as [_ Hos].
  intros x [Hx|[Hx|Hx]].
  - destruct (behaves_fails _ _ _ _ H1 Hx) as (upd & evs & ->).
    eapply Hos. simpl. eauto.
  - destruct (behaves_fails _ _ _ _ H2 Hx) as (upd & evs & ->).
    eapply Hos. simpl. eauto.
  - destruct (behaves_fails _ _ _ _ H3 Hx) as (upd & evs & ->).
    eapply Hos. simpl. eauto.
Qed.

Lemma runChecks_Group_failures order ctx email syntax ret tr r e tr' :
  runChecks E (viaGroup (WithContext order)) v ctx email syntax ret tr
  = Some ((r, e), tr') →
  is_Some r
  ∧ (∀ x, checkFails E v ctx email syntax x → is_Some e)
  ∧ (∀ x, e = Some x → checkFails E v ctx email syntax x).
Proof.
  destruct (checkMX_uniform syntax ctx) as [o1 H1].
  destruct (checkSMTP_uniform syntax ctx) as [o2 H2].
  destruct (checkGravatar_uniform email ctx) as [o3 H3].
  destruct (suggest_quiet syntax ctx) as (u4 & l4 & H4).
  destruct (checkMX_uniform syntax (cancel ctx)) as [o1' H1'].
  destruct (checkSMTP_uniform syntax (cancel ctx)) as [o2' H2'].
  destruct (checkGravatar_uniform email (cancel ctx)) as [o3' H3'].
  destruct (suggest_quiet syntax (cancel ctx)) as (u4' & l4' & H4').
  rewrite runChecks_Group.
  intros H. apply bind_inv in H as ([e0 ret0] & tr0 & Hfin & Hk).
  rewrite (finish_concRun 4 order _
             [(o1, o1'); (o2, o2'); (o3, o3');
              (Yields u4 None l4, Yields u4' None l4')]) in Hfin
    by (repeat constructor; assumption).
  assert (r = Some ret0 ∧ e = e0) as [-> ->]
    by (destruct e0; inversion Hk; by subst).
  split; [by eexists|]. split.
  - intros x Hx. destruct e0 as [y|]; [by eexists|]. exfalso.
    pose proof (λ Hl, concRun_quiet _ _ _ _ _ _ _ Hl Hfin) as Hq.
    specialize (Hq (Nat.le_refl 4)).
    destruct Hx as [Hx|[Hx|Hx]].
    + destruct (behaves_fails _ _ _ _ H1 Hx) as (upd & evs & ->).
      destruct (Hq (Yields upd (Some x) evs) o1') as (? & ? & Heq);
        [set_solver|discriminate].
    + destruct (behaves_fails _ _ _ _ H2 Hx) as (upd & evs & ->).
      destruct (Hq (Yields upd (Some x) evs) o2') as (? & ? & Heq);
        [set_solver|discriminate].
    + destruct (behaves_fails _ _ _ _ H3 Hx) as (upd & evs & ->).
      destruct (Hq (Yields upd (Some x) evs) o3') as (? & ? & Heq);
        [set_solver|discriminate].
  - intros x ->.
    destruct (concRun_first _ _ _ _ _ _ _ _ _ Hfin)
      as [?|(upd & y & evs & o' & Hin & Hy)]; [discriminate|].
    inversion Hy; subst y.
    apply elem_of_cons in Hin as [Heq|Hin];
      [inversion Heq; subst; left; by eapply fails_of_behaves|].
    apply elem_of_cons in Hin as [Heq|Hin];
      [inversion Heq; subst; right; left; by eapply fails_of_behaves|].
    apply elem_of_cons in Hin as [Heq|Hin];
      [inversion Heq; subst; right; right; by eapply fails_of_behaves|].
    apply elem_of_cons in Hin as [Heq|Hin]; [discriminate|].
    by apply elem_of_nil in Hin.
Qed.
Lemma runChecks_Group_first order ctx email syntax ret tr r e tr' :
  runChecks E (viaGroup (WithContext order)) v ctx email syntax ret tr
  = Some ((r, e), tr') →
  ∀ x, e = Some x →
       firstToFail ctx
         (completion 4 order [checkMX E v syntax; checkSMTP E v syntax;
                              checkGravatar E v email; suggest E v syntax]) x.
Proof.
  rewrite runChecks_Group.
  intros H x ->. apply bind_inv in H as ([e0 ret0] & tr0 & Hfin & Hk).
  assert (e0 = Some x) as -> by (destruct e0; inversion Hk; by subst).
  apply finish_first in Hfin; [exact Hfin|].
  intros f Hf.
  apply elem_of_cons in Hf as [->|Hf]; [apply checkMX_uniform|].
  apply elem_of_cons in Hf as [->|Hf]; [apply checkSMTP_uniform|].
  apply elem_of_cons in Hf as [->|Hf]; [apply checkGravatar_uniform|].
  apply elem_of_cons in Hf as [->|Hf];
    [destruct (suggest_quiet syntax ctx) as (u & l & Hb); eauto|].
  by apply elem_of_nil in Hf.
Qed.
End Reported.

(** C2, as the code has it: a call that gets as far as the checks
    returns a non-nil result, and a non-nil error as soon as one check
    fails.  Under the sequential runner (at most one option enabled)
    every failing check can be found in that error; under the errgroup
    (more than one option enabled) the error is the error of a single
    check and nothing else: of the first closure, in the order in which
    the goroutines finish, that fails under the context of the caller,
    whatever the closures that finish after it return. *)
Theorem Verify_failures_reported (E : Env) (v : Verifier)
    (order : list (nat * bool)) (ctx : Ctx) (email : string)
    (tr : list Event) (r : option Result) (e : option error)
    (tr' : list Event) :
  let syntax := ParseAddress E v (trimLower E email) in
  let domainIDNA := domainToASCII E (Domain syntax) in
  Valid syntax = true →
  IsDisposable E v (Domain syntax) = false →
  (TopLevelDomainDisabled v = true
   ∨ TopLevelDomainExists (ToLower E) (GenericTLDs E)
       (CountryCodeTLDs E) domainIDNA = true) →
  Verify E v order ctx email tr = Some ((r, e), tr') →
  is_Some r
  ∧ (∀ x, failure E v ctx email x → is_Some e)
  ∧ (enabledOptions v <= 1 → ∀ x, failure E v ctx email x → exposes e x)
  ∧ (1 < enabledOptions v → ∀ x, e = Some x → failure E v ctx email x)
  ∧ (1 < enabledOptions v →
     completion 4 order (closures E v email) ≡ₚ closures E v email
     ∧ ∀ x, e = Some x →
            firstToFail ctx (completion 4 order (closures E v email)) x).
Proof.
  intros syntax domainIDNA Hvalid Hdisp Htld. unfold Verify.
  rewrite VerifyWith_valid by exact Hvalid. cbv zeta.
  subst domainIDNA. set (email' := trimLower E email) in *.
  assert (Hstart : ∀ ret0 tr0,
    Disposable ret0 = false →
    startChecks E (1 <? enabledOptions v) v order ctx email'
                syntax ret0 tr0 = Some ((r, e), tr') →
    is_Some r
    ∧ (∀ x, failure E v ctx email x → is_Some e)
    ∧ (enabledOptions v <= 1 → ∀ x, failure E v ctx email x → exposes e x)
    ∧ (1 < enabledOptions v → ∀ x, e = Some x → failure E v ctx email x)
    ∧ (1 < enabledOptions v →
       completion 4 order (closures E v email) ≡ₚ closures E v email
       ∧ ∀ x, e = Some x →
              firstToFail ctx (completion 4 order (closures E v email)) x)).
  { intros ret0 tr0 Hd H. unfold startChecks in H. rewrite Hd in H.
    unfold failure, closures. cbv zeta. fold email'. fold syntax.
    destruct (1 <? enabledOptions v) eqn:Hopt.
    - apply Z.ltb_lt in Hopt.
      pose proof (runChecks_Group_first _ _ _ _ _ _ _ _ _ _ _ H) as Hfirst.
      apply runChecks_Group_failures in H as (Hr & Hsome & Hone).
      split; [done|]. split; [done|]. split; [lia|]. split; [auto|].
      intros _. split; [|exact Hfirst].
      apply completion_Permutation. simpl. lia.
    - apply Z.ltb_ge in Hopt.
      apply runChecks_noGroup_failures in H as (Hr & Hall).
      split; [done|]. split; [|split; [auto|split; lia]].
      intros x Hx. destruct (Hall x Hx) as (e' & -> & _). by eexists. }
  fold syntax.
  destruct (TopLevelDomainDisabled v).
  - apply Hstart. exact Hdisp.
  - destruct Htld as [?|Htld]; [discriminate|]. rewrite Htld.
    apply Hstart. exact Hdisp.
Qed.

Lemma Verify_failures_reported_witness :
  is_Some (Some (mkResult "x@b.com" "unknown" (mkSyntax "x" "b.com" true)
                          None None "" false false false false true))
  ∧ (∀ x, failure Sample.world (Sample.EnableSMTPCheck Sample.NewVerifier)
                  Background "x@b.com" x →
          is_Some (Some (errWrap "CheckMX failed: " Sample.noSuchHost)))
  ∧ (enabledOptions (Sample.EnableSMTPCheck Sample.NewVerifier) <= 1 →
     ∀ x, failure Sample.world (Sample.EnableSMTPCheck Sample.NewVerifier)
                  Background "x@b.com" x →
          exposes (Some (errWrap "CheckMX failed: " Sample.noSuchHost)) x)
  ∧ (1 < enabledOptions (Sample.EnableSMTPCheck Sample.NewVerifier) →
     ∀ x, Some (errWrap "CheckMX failed: " Sample.noSuchHost) = Some x →
          failure Sample.world (Sample.EnableSMTPCheck Sample.NewVerifier)
                  Background "x@b.com" x)
  ∧ (1 < enabledOptions (Sample.EnableSMTPCheck Sample.NewVerifier) →
     completion 4 []
       (closures Sample.world (Sample.EnableSMTPCheck Sample.NewVerifier)
                 "x@b.com")
     ≡ₚ closures Sample.world (Sample.EnableSMTPCheck Sample.NewVerifier)
                 "x@b.com"
     ∧ ∀ x, Some (errWrap "CheckMX failed: " Sample.noSuchHost) = Some x →
            firstToFail Background
              (completion 4 []
                 (closures Sample.world
                    (Sample.EnableSMTPCheck Sample.NewVerifier) "x@b.com")) x).
Proof.
  exact (Verify_failures_reported Sample.world
           (Sample.EnableSMTPCheck Sample.NewVerifier) [] Background "x@b.com" []
           _ _ _ eq_refl eq_refl (or_intror eq_refl) eq_refl).
Defined.

(** C2 as worded fails under the errgroup: with MX and SMTP checking
    both on and both failing, the error returned holds the MX failure
    and the SMTP failure cannot be found in it. *)
Lemma Verify_errgroup_keeps_first_failure_only :
  ∃ r e tr',
    Verify Sample.world (Sample.EnableSMTPCheck Sample.NewVerifier) []
           Background "x@b.com" [] = Some ((Some r, Some e), tr')
    ∧ failure Sample.world (Sample.EnableSMTPCheck Sample.NewVerifier)
              Background "x@b.com" (errWrap "CheckMX failed: " Sample.noSuchHost)
    ∧ failure Sample.world (Sample.EnableSMTPCheck Sample.NewVerifier)
              Background "x@b.com" (errWrap "CheckSMTP failed: " Sample.noSuchHost)
    ∧ ¬ exposes (Some e) (errWrap "CheckSMTP failed: " Sample.noSuchHost).
Proof.
  eexists _, _, _. split; [lazy; reflexivity|].
  pose (r0 := mkResult "" "" (mkSyntax "" "" false) None None ""
                       false false false false false).
  split; [|split].
  - left. exists r0, []. eexists _, _. reflexivity.
  - right. left. exists r0, []. eexists _, _. reflexivity.
  - intros (e' & He & Hin). inversion He; subst e'. simpl in Hin.
    destruct Hin as [H|[H|[]]]; discriminate H.
Qed.

(** ** The sequential runner against the errgroup *)

(** An outcome agrees with itself when it holds no error of a check. *)
Lemma agreeUpToJoin_same r e t t' :
  (is_Some r → e = None) →
  agreeUpToJoin (Some ((r, e), t)) (Some ((r, e), t')).
Proof.
  intros H. simpl. split; [reflexivity|]. split; [|reflexivity].
  destruct r; [|reflexivity]. by rewrite H.
Qed.

Section Inert.
Variable E : Env.
Variable v : Verifier.

Lemma checkSMTP_off_shape syntax ctx :
  quietWhenOff E → smtpCheckEnabled v = false →
  behaves (checkSMTP E v syntax) ctx
    (Yields (λ r, setReachable reachableUnknown (setSMTP None r)) None
            [EvCheckSMTP (Domain syntax) (Username syntax)]).
Proof.
  intros Hq Hv ret tr. unfold checkSMTP, CheckSMTP. run.
  rewrite (Hq v ctx _ _ Hv). by rewrite calculateReachable_disabled.
Qed.

Lemma suggest_inert syntax :
  ∃ upd evs,
    (upd = (λ r, r) ∨ ∃ s, upd = setSuggestion s)
    ∧ ∀ ctx, behaves (suggest E v syntax) ctx (Yields upd None evs).
Proof.
  unfold behaves, suggest. destruct (domainSuggestEnabled v).
  - eexists _, _. split; [right; by eexists|]. intros ctx ret tr. run. reflexivity.
  - exists (λ r, r), []. split; [by left|]. intros ctx ret tr. run.
    by rewrite app_nil_r.
Qed.
End Inert.

Lemma concRun_unfold n order os first ret tr :
  concRun (S n) order os first ret tr
  = let ps := hd (O, false) order in
    let i := (fst ps mod length os)%nat in
    match os !! i with
    | None => Some ((first, ret), tr)
    | Some (o, o') =>
        match (match first with
               | Some _ => if snd ps then o' else o
               | None => o
               end) with
        | Panics => None
        | Yields upd e evs =>
            concRun n (tl order) (delete i os)
                    (match first with Some _ => first | None => e end)
                    (upd ret) (tr ++ evs)%list
        end
    end.
Proof. simpl. by destruct (hd (O, false) order). Qed.

(** One completion: pick the goroutine, then look at what it does. *)
Ltac completion :=
  rewrite concRun_unfold;
  match goal with
  | |- context [hd (O, false) ?o] =>
      let p := fresh "p" in
      let s := fresh "s" in
      let o' := fresh "order" in
      generalize (hd (O, false) o); generalize (tl o); intros o' [p s]
  end;
  cbv zeta; cbn [fst snd length];
  match goal with
  | |- context [(?p mod ?k)%nat] =>
      let Hb := fresh "Hb" in
      assert (Hb : (p mod k < k)%nat) by (apply Nat.mod_upper_bound; lia);
      destruct (p mod k)%nat as [|[|[|[|?]]]]; try (exfalso; lia); clear Hb
  end;
  cbn [lookup list_lookup delete list_delete].

Lemma if_same {A} (b : bool) (x : A) : (if b then x else x) = x.
Proof. by destruct b. Qed.

(** A goroutine that does the same under either context. *)
Ltac completion' := completion; rewrite ?if_same.

(** Both runs are spelled out: compare them. *)
Ltac leaf :=
  cbn [seqRun concRun errors_Join omap id mbind option_bind list_omap];
  unfold agreeUpToJoin, mret, M_ret;
  first
    [ exact I
    | split; [ reflexivity | split; [ reflexivity | intros; reflexivity ] ] ].

Ltac all_orders := repeat completion'; leaf.

Lemma finish4_concRun order f1 f2 f3 f4 o1 o1' o2 o2' o3 o3' o4 o4'
    parent first ret tr :
  behaves f1 parent o1 → behaves f1 (cancel parent) o1' →
  behaves f2 parent o2 → behaves f2 (cancel parent) o2' →
  behaves f3 parent o3 → behaves f3 (cancel parent) o3' →
  behaves f4 parent o4 → behaves f4 (cancel parent) o4' →
  finish 4 order [f1; f2; f3; f4] parent first ret tr
  = concRun 4 order [(o1, o1'); (o2, o2'); (o3, o3'); (o4, o4')] first ret tr.
Proof.
  intros. apply finish_concRun.
  repeat first [apply List.Forall2_cons | apply List.Forall2_nil]; by split.
Qed.

Ltac to_runs H1 H2 H3 H4 H1' H2' H3' H4' :=
  rewrite (runChecks_noGroup_seqRun _ _ _ _ _ _ _ _ _ _ _ H1 H2 H3 H4);
  rewrite runChecks_Group; unfold mbind at 1; unfold M_bind at 1;
  rewrite (finish4_concRun _ _ _ _ _ _ _ _ _ _ _ _ _ _ _ _ _
             H1 H1' H2 H2' H3 H3' H4 H4').

(** With at most one option on, three of the four closures do the same
    whatever the context and never fail, so every completion order of
    the errgroup leads where the sequential run leads. *)
Lemma runChecks_agree E v order ctx email syntax ret tr :
  quietWhenOff E → enabledOptions v <= 1 →
  agreeUpToJoin
    (runChecks E (viaNoGroup (mkNoGroup None)) v ctx email syntax ret tr)
    (runChecks E (viaGroup (WithContext order)) v ctx email syntax ret tr).
Proof.
  intros Hq Hopt.
  destruct (suggest_inert E v syntax) as (u4 & l4 & Hu4 & H4).
  destruct (checkMX_uniform E v syntax (cancel ctx)) as [o1' H1'].
  destruct (checkSMTP_uniform E v syntax (cancel ctx)) as [o2' H2'].
  destruct (checkGravatar_uniform E v email (cancel ctx)) as [o3' H3'].
  destruct Hu4 as [->|[sug ->]].
  all: destruct (mxCheckEnabled v) eqn:Hmx, (smtpCheckEnabled v) eqn:Hsmtp,
    (gravatarCheckEnabled v) eqn:Hg;
    try (exfalso; unfold enabledOptions in Hopt; rewrite Hmx, Hsmtp, Hg in Hopt;
         destruct (domainSuggestEnabled v); simpl in Hopt; lia).
  all: try pose proof (λ c, checkMX_disabled_shape E v syntax c Hmx) as H1.
  all: try pose proof (λ c, checkSMTP_off_shape E v syntax c Hq Hsmtp) as H2.
  all: try pose proof (λ c, checkGravatar_disabled_shape E v email c Hg) as H3.
  - (* only the MX check is on *)
    destruct (checkMX_shape E v syntax ctx) as (l1 & [(x & H1)|(b & H1)]);
      to_runs H1 (H2 ctx) (H3 ctx) (H4 ctx)
              H1' (H2 (cancel ctx)) (H3 (cancel ctx)) (H4 (cancel ctx));
      all_orders.
  - (* only the SMTP check is on *)
    destruct (checkSMTP_shape E v syntax ctx)
      as [H2|(l2 & [(x & H2)|(smtp & reachable & _ & H2)])];
      to_runs (H1 ctx) H2 (H3 ctx) (H4 ctx)
              (H1 (cancel ctx)) H2' (H3 (cancel ctx)) (H4 (cancel ctx));
      all_orders.
  - (* only the gravatar check is on *)
    destruct (checkGravatar_shape E v email ctx)
      as [H3|(l3 & [(x & H3)|(g & H3)])];
      to_runs (H1 ctx) (H2 ctx) H3 (H4 ctx)
              (H1 (cancel ctx)) (H2 (cancel ctx)) H3' (H4 (cancel ctx));
      all_orders.
  - (* none of the three is on *)
    to_runs (H1 ctx) (H2 ctx) (H3 ctx) (H4 ctx)
            (H1 (cancel ctx)) (H2 (cancel ctx)) (H3 (cancel ctx)) (H4 (cancel ctx));
      all_orders.
  - destruct (checkMX_shape E v syntax ctx) as (l1 & [(x & H1)|(b & H1)]);
      to_runs H1 (H2 ctx) (H3 ctx) (H4 ctx)
              H1' (H2 (cancel ctx)) (H3 (cancel ctx)) (H4 (cancel ctx));
      all_orders.
  - destruct (checkSMTP_shape E v syntax ctx)
      as [H2|(l2 & [(x & H2)|(smtp & reachable & _ & H2)])];
      to_runs (H1 ctx) H2 (H3 ctx) (H4 ctx)
              (H1 (cancel ctx)) H2' (H3 (cancel ctx)) (H4 (cancel ctx));
      all_orders.
  - destruct (checkGravatar_shape E v email ctx)
      as [H3|(l3 & [(x & H3)|(g & H3)])];
      to_runs (H1 ctx) (H2 ctx) H3 (H4 ctx)
              (H1 (cancel ctx)) (H2 (cancel ctx)) H3' (H4 (cancel ctx));
      all_orders.
  - to_runs (H1 ctx) (H2 ctx) (H3 ctx) (H4 ctx)
            (H1 (cancel ctx)) (H2 (cancel ctx)) (H3 (cancel ctx)) (H4 (cancel ctx));
      all_orders.
Qed.

Lemma startChecks_agree E v order ctx email syntax ret tr :
  quietWhenOff E → enabledOptions v <= 1 →
  agreeUpToJoin (startChecks E false v order ctx email syntax ret tr)
                (startChecks E true v order ctx email syntax ret tr).
Proof.
  intros Hq Hopt. unfold startChecks. destruct (Disposable ret).
  - by apply agreeUpToJoin_same.
  - by apply runChecks_agree.
Qed.

(** C3, as the code has it: with fewer than two options on, [Verify]
    is the sequential run; and, [CheckSMTP] being quiet when switched
    off, that run and the errgroup under any completion order return the
    same result, and errors with the same text: nil together, and when
    a check failed the sequential error is the one-element
    [errors.Join] of the error the errgroup returns, not that error
    itself.  Only the error for an unknown top-level domain, returned
    before either runner exists, is the same value. *)
Theorem Verify_sequential_agrees_with_errgroup (E : Env) (v : Verifier)
    (order : list (nat * bool)) (ctx : Ctx) (email : string) (tr : list Event) :
  quietWhenOff E →
  enabledOptions v <= 1 →
  Verify E v order ctx email tr = VerifyWith E false v order ctx email tr
  ∧ agreeUpToJoin (VerifyWith E false v order ctx email tr)
                  (VerifyWith E true v order ctx email tr).
Proof.
  intros Hq Hopt. split.
  - unfold Verify. destruct (1 <? enabledOptions v) eqn:H; [|reflexivity].
    apply Z.ltb_lt in H. lia.
  - destruct (Valid (ParseAddress E v (trimLower E email))) eqn:Hvalid.
    + rewrite !VerifyWith_valid by exact Hvalid. cbv zeta.
      destruct (TopLevelDomainDisabled v); [by apply startChecks_agree|].
      destruct (TopLevelDomainExists _ _ _ _); [by apply startChecks_agree|].
      apply agreeUpToJoin_same. by intros [? ?].
    + rewrite !VerifyWith_invalid by exact Hvalid. by apply agreeUpToJoin_same.
Qed.

Lemma world_quietWhenOff : quietWhenOff Sample.world.
Proof. intros v ctx d u H. simpl. by rewrite H. Qed.

Lemma Verify_sequential_agrees_with_errgroup_witness :
  Verify Sample.world Sample.NewVerifier [(1%nat, true)] Background "x@b.com" []
  = VerifyWith Sample.world false Sample.NewVerifier [(1%nat, true)] Background
               "x@b.com" []
  ∧ agreeUpToJoin
      (VerifyWith Sample.world false Sample.NewVerifier [(1%nat, true)]
                  Background "x@b.com" [])
      (VerifyWith Sample.world true Sample.NewVerifier [(1%nat, true)]
                  Background "x@b.com" []).
Proof.
  apply (Verify_sequential_agrees_with_errgroup Sample.world Sample.NewVerifier
           [(1%nat, true)] Background "x@b.com" []).
  - exact world_quietWhenOff.
  - vm_compute. discriminate.
Defined.

(** C3 as worded fails: with only the MX check on and the lookup
    failing, the sequential run returns the join of the one failure,
    which is not the error the errgroup returns. *)
Lemma sequential_error_is_a_join :
  enabledOptions Sample.NewVerifier <= 1
  ∧ ∃ r t1 t2,
      VerifyWith Sample.world false Sample.NewVerifier [] Background "x@b.com" []
      = Some ((r, Some (errJoin [errWrap "CheckMX failed: " Sample.noSuchHost])), t1)
      ∧ VerifyWith Sample.world true Sample.NewVerifier [] Background "x@b.com" []
        = Some ((r, Some (errWrap "CheckMX failed: " Sample.noSuchHost)), t2)
      ∧ errJoin [errWrap "CheckMX failed: " Sample.noSuchHost]
        ≠ errWrap "CheckMX failed: " Sample.noSuchHost.
Proof.
  split; [vm_compute; discriminate|].
  eexists _, _, _. split; [lazy; reflexivity|].
  split; [lazy; reflexivity|]. discriminate.
Qed.

(** * More of the orchestrator *)

(** ** What every returned result looks like *)

Lemma startChecks_returns E c v order ctx email syntax ret tr r e tr'
    (P : Result → Prop) :
  (∀ s, preserves P (checkMX E v s)) →
  (∀ s, preserves P (checkSMTP E v s)) →
  (∀ em, preserves P (checkGravatar E v em)) →
  (∀ s, preserves P (suggest E v s)) →
  P ret →
  startChecks E c v order ctx email syntax ret tr = Some ((r, e), tr') →
  ∃ ret', r = Some ret' ∧ P ret'.
Proof.
  intros H1 H2 H3 H4 HP H. unfold startChecks in H.
  destruct (Disposable ret).
  - inversion H; subst. eauto.
  - destruct c.
    + eapply runChecks_Group_invariant; eauto.
    + eapply runChecks_noGroup_invariant; eauto.
Qed.

(** The four closures leave alone whatever the updates they may make
    leave alone. *)
Lemma closures_preserve E v (P : Result → Prop) :
  (∀ b r, P r → P (setHasMxRecords b r)) →
  (∀ smtp reachable r,
     calculateReachable v smtp = Some reachable →
     P r → P (setReachable reachable (setSMTP smtp r))) →
  (∀ g r, P r → P (setGravatar g r)) →
  (∀ s r, P r → P (setSuggestion s r)) →
  (∀ s, preserves P (checkMX E v s))
  ∧ (∀ s, preserves P (checkSMTP E v s))
  ∧ (∀ em, preserves P (checkGravatar E v em))
  ∧ (∀ s, preserves P (suggest E v s)).
Proof.
  intros Hmx Hsmtp Hg Hs. repeat split.
  - intros s. apply behaves_preserves. intros c.
    destruct (checkMX_shape E v s c) as (evs & [(x & Hb)|(b & Hb)]);
      eexists; (split; [exact Hb|]); cbn; auto.
  - intros s. apply behaves_preserves. intros c.
    destruct (checkSMTP_shape E v s c)
      as [Hb|(evs & [(x & Hb)|(smtp & reachable & Hc & Hb)])];
      eexists; (split; [exact Hb|]); cbn; auto.
  - intros em. apply behaves_preserves. intros c.
    destruct (checkGravatar_shape E v em c)
      as [Hb|(evs & [(x & Hb)|(g & Hb)])];
      eexists; (split; [exact Hb|]); cbn; auto.
  - intros s. apply behaves_preserves. intros c.
    destruct (suggest_shape E v s c) as (evs & [Hb|(x & Hb)]);
      eexists; (split; [exact Hb|]); cbn; auto.
Qed.

(** The ways [Verify] can return. *)
Lemma VerifyWith_returns_gen E c v order ctx email tr r e tr' (P : Result → Prop) :
  let email' := trimLower E email in
  let syntax := ParseAddress E v email' in
  let domainIDNA := domainToASCII E (Domain syntax) in
  (∀ s, preserves P (checkMX E v s)) →
  (∀ s, preserves P (checkSMTP E v s)) →
  (∀ em, preserves P (checkGravatar E v em)) →
  (∀ s, preserves P (suggest E v s)) →
  (Valid syntax = false →
   P (mkResult email' reachableUnknown syntax None None ""
               false false false false false)) →
  (Valid syntax = true → TopLevelDomainDisabled v = true →
   P (classifiedResult E v email)) →
  (Valid syntax = true → TopLevelDomainDisabled v = false →
   TopLevelDomainExists (ToLower E) (GenericTLDs E)
     (CountryCodeTLDs E) domainIDNA = true →
   P (setTLDExists true (classifiedResult E v email))) →
  VerifyWith E c v order ctx email tr = Some ((r, e), tr') →
  (∃ ret', r = Some ret' ∧ P ret')
  ∨ (r = None ∧ e = Some (errTLD domainIDNA)
     ∧ Valid syntax = true ∧ TopLevelDomainDisabled v = false
     ∧ TopLevelDomainExists (ToLower E) (GenericTLDs E)
         (CountryCodeTLDs E) domainIDNA = false).
Proof.
  intros email' syntax domainIDNA P1 P2 P3 P4 Hinv Hoff Hon H.
  destruct (Valid syntax) eqn:Hvalid.
  - rewrite VerifyWith_valid in H by exact Hvalid. cbv zeta in H.
    fold email' in H. fold syntax in H. fold domainIDNA in H.
    destruct (TopLevelDomainDisabled v) eqn:Hd.
    + left.
      exact (startChecks_returns _ _ _ _ _ _ _ _ _ _ _ _ P P1 P2 P3 P4
               (Hoff eq_refl eq_refl) H).
    + destruct (TopLevelDomainExists _ _ _ _) eqn:Ht.
      * left.
        exact (startChecks_returns _ _ _ _ _ _ _ _ _ _ _ _ P P1 P2 P3 P4
                 (Hon eq_refl eq_refl eq_refl) H).
      * right. inversion H; subst. auto.
  - rewrite VerifyWith_invalid in H by exact Hvalid.
    inversion H; subst. left. eexists. split; [reflexivity|]. by apply Hinv.
Qed.

Lemma VerifyWith_returns E c v order ctx email tr r e tr' (P : Result → Prop) :
  let email' := trimLower E email in
  let syntax := ParseAddress E v email' in
  let domainIDNA := domainToASCII E (Domain syntax) in
  (∀ b r, P r → P (setHasMxRecords b r)) →
  (∀ smtp reachable r,
     calculateReachable v smtp = Some reachable →
     P r → P (setReachable reachable (setSMTP smtp r))) →
  (∀ g r, P r → P (setGravatar g r)) →
  (∀ s r, P r → P (setSuggestion s r)) →
  (Valid syntax = false →
   P (mkResult email' reachableUnknown syntax None None ""
               false false false false false)) →
  (Valid syntax = true → TopLevelDomainDisabled v = true →
   P (classifiedResult E v email)) →
  (Valid syntax = true → TopLevelDomainDisabled v = false →
   TopLevelDomainExists (ToLower E) (GenericTLDs E)
     (CountryCodeTLDs E) domainIDNA = true →
   P (setTLDExists true (classifiedResult E v email))) →
  VerifyWith E c v order ctx email tr = Some ((r, e), tr') →
  (∃ ret', r = Some ret' ∧ P ret')
  ∨ (r = None ∧ e = Some (errTLD domainIDNA)
     ∧ Valid syntax = true ∧ TopLevelDomainDisabled v = false
     ∧ TopLevelDomainExists (ToLower E) (GenericTLDs E)
         (CountryCodeTLDs E) domainIDNA = false).
Proof.
  intros email' syntax domainIDNA Hmx Hsmtp Hg Hs.
  destruct (closures_preserve E v P Hmx Hsmtp Hg Hs) as (P1 & P2 & P3 & P4).
  by apply VerifyWith_returns_gen.
Qed.

(** X1: [Verify] never returns nil, nil.  The result is nil exactly when
    the address is well formed, the TLD check is on and the top-level
    domain is unknown, and the error is then the TLD error. *)
Theorem Verify_nil_result_only_for_unknown_TLD (E : Env) (v : Verifier)
    (order : list (nat * bool)) (ctx : Ctx) (email : string)
    (tr : list Event) (r : option Result) (e : option error)
    (tr' : list Event) :
  let syntax := ParseAddress E v (trimLower E email) in
  let domainIDNA := domainToASCII E (Domain syntax) in
  Verify E v order ctx email tr = Some ((r, e), tr') →
  (r = None ↔
     Valid syntax = true ∧ TopLevelDomainDisabled v = false
     ∧ TopLevelDomainExists (ToLower E) (GenericTLDs E)
         (CountryCodeTLDs E) domainIDNA = false)
  ∧ (r = None → e = Some (errTLD domainIDNA))
  ∧ (is_Some r ∨ is_Some e).
Proof.
  intros syntax domainIDNA H. unfold Verify in H.
  pose proof H as H0.
  apply (VerifyWith_returns _ _ _ _ _ _ _ _ _ _ (λ _, True)) in H; try done.
  destruct H as [(ret' & -> & _)|(-> & -> & Hv & Hd & Ht)].
  - split; [|split].
    + split; [discriminate|]. intros (Hv & Hd & Ht). exfalso.
      rewrite VerifyWith_valid in H0 by exact Hv. cbv zeta in H0.
      rewrite Hd in H0. fold syntax in H0. fold domainIDNA in H0.
      rewrite Ht in H0. discriminate.
    + discriminate.
    + left. by eexists.
  - split; [|split]; [tauto|done|right; by eexists].
Qed.

Lemma Verify_nil_result_only_for_unknown_TLD_witness :
  (@None Result = None ↔
     Valid (ParseAddress Sample.world Sample.NewVerifier
              (trimLower Sample.world "x@a.testing")) = true
     ∧ TopLevelDomainDisabled Sample.NewVerifier = false
     ∧ TopLevelDomainExists (ToLower Sample.world) (GenericTLDs Sample.world)
      (CountryCodeTLDs Sample.world)
         (domainToASCII Sample.world
            (Domain (ParseAddress Sample.world Sample.NewVerifier
                       (trimLower Sample.world "x@a.testing")))) = false)
  ∧ (@None Result = None → Some (errTLD "a.testing")
                   = Some (errTLD (domainToASCII Sample.world
                        (Domain (ParseAddress Sample.world Sample.NewVerifier
                                   (trimLower Sample.world "x@a.testing"))))))
  ∧ (is_Some (@None Result) ∨ is_Some (Some (errTLD "a.testing"))).
Proof.
  exact (Verify_nil_result_only_for_unknown_TLD Sample.world Sample.NewVerifier
           [] Background "x@a.testing" [] None (Some (errTLD "a.testing")) _
           eq_refl).
Defined.

(** X2: in every result [Verify] returns, [Email] is the trimmed,
    lower-cased input, [Syntax] is what the parser returned, and the
    flags [Free], [RoleAccount] and [Disposable] are what the three
    classifiers returned for a well-formed address and false otherwise:
    no check and no runner touches them. *)
Theorem Verify_classification_untouched (E : Env) (v : Verifier)
    (order : list (nat * bool)) (ctx : Ctx) (email : string)
    (tr : list Event) (r : Result) (e : option error) (tr' : list Event) :
  let email' := trimLower E email in
  let syntax := ParseAddress E v email' in
  Verify E v order ctx email tr = Some ((Some r, e), tr') →
  Email r = email' ∧ rSyntax r = syntax
  ∧ Free r = Valid syntax && IsFreeDomain E v (Domain syntax)
  ∧ RoleAccount r = Valid syntax && IsRoleAccount E v (Username syntax)
  ∧ Disposable r = Valid syntax && IsDisposable E v (Domain syntax).
Proof.
  intros email' syntax H. unfold Verify in H.
  apply (VerifyWith_returns _ _ _ _ _ _ _ _ _ _
           (λ r, Email r = email' ∧ rSyntax r = syntax
                 ∧ Free r = Valid syntax && IsFreeDomain E v (Domain syntax)
                 ∧ RoleAccount r = Valid syntax && IsRoleAccount E v (Username syntax)
                 ∧ Disposable r = Valid syntax && IsDisposable E v (Domain syntax)))
    in H; try (cbn; tauto).
  - destruct H as [(ret' & Heq & HP)|(Heq & _)]; [|discriminate].
    by inversion Heq; subst.
  - fold email'. fold syntax. intros ->. by cbn.
  - fold email'. fold syntax. intros -> _. by cbn.
  - fold email'. fold syntax. intros -> _ _. by cbn.
Qed.

Lemma Verify_classification_untouched_witness :
  Email (mkResult "admin@gmail.com" "unknown" (mkSyntax "admin" "gmail.com" true)
           None None "" false true true false true) = "admin@gmail.com"
  ∧ rSyntax (mkResult "admin@gmail.com" "unknown" (mkSyntax "admin" "gmail.com" true)
               None None "" false true true false true)
    = mkSyntax "admin" "gmail.com" true
  ∧ true = true && true ∧ true = true && true ∧ false = true && false.
Proof.
  exact (Verify_classification_untouched Sample.world Sample.NewVerifier
           [] Background "Admin@Gmail.com" [] _ _ _ eq_refl).
Defined.

(** X3: in every result [Verify] returns, [TLDExists] is true exactly
    when the address is well formed and the TLD check is on, and the
    top-level domain is then in one of the two tables.  With the check
    switched off the flag stays false, known domain or not. *)
Theorem Verify_TLDExists_means_checked (E : Env) (v : Verifier)
    (order : list (nat * bool)) (ctx : Ctx) (email : string)
    (tr : list Event) (r : Result) (e : option error) (tr' : list Event) :
  let syntax := ParseAddress E v (trimLower E email) in
  let domainIDNA := domainToASCII E (Domain syntax) in
  Verify E v order ctx email tr = Some ((Some r, e), tr') →
  TLDExists r = Valid syntax && negb (TopLevelDomainDisabled v)
  ∧ (TLDExists r = true →
     TopLevelDomainExists (ToLower E) (GenericTLDs E)
       (CountryCodeTLDs E) domainIDNA = true)
  ∧ (TopLevelDomainDisabled v = true → TLDExists r = false).
Proof.
  intros syntax domainIDNA H. unfold Verify in H.
  apply (VerifyWith_returns _ _ _ _ _ _ _ _ _ _
           (λ r, TLDExists r = Valid syntax && negb (TopLevelDomainDisabled v)
                 ∧ (TLDExists r = true →
                    TopLevelDomainExists (ToLower E) (GenericTLDs E) (CountryCodeTLDs E)
                                         domainIDNA = true)))
    in H; try (cbn; tauto).
  - destruct H as [(ret' & Heq & HP1 & HP2)|(Heq & _)]; [|discriminate].
    inversion Heq; subst ret'. repeat split; [done|done|].
    intros Hd. rewrite HP1, Hd. apply andb_false_r.
  - fold syntax. intros ->. by cbn.
  - fold syntax. intros -> ->. by cbn.
  - fold syntax. fold domainIDNA. intros -> -> Ht. by cbn.
Qed.

Lemma Verify_TLDExists_means_checked_witness :
  TLDExists (mkResult "user@github.com" "unknown"
               (mkSyntax "user" "github.com" true) None None ""
               false false false true true)
  = true && negb false
  ∧ (TLDExists (mkResult "user@github.com" "unknown"
                  (mkSyntax "user" "github.com" true) None None ""
                  false false false true true) = true →
     TopLevelDomainExists (ToLower Sample.world) (GenericTLDs Sample.world)
      (CountryCodeTLDs Sample.world)
                          "github.com" = true)
  ∧ (false = true →
     TLDExists (mkResult "user@github.com" "unknown"
                  (mkSyntax "user" "github.com" true) None None ""
                  false false false true true) = false).
Proof.
  exact (Verify_TLDExists_means_checked Sample.world Sample.NewVerifier
           [] Background "User@GitHub.com" [] _ None _ eq_refl).
Defined.

(** X4: in every result [Verify] returns, [Reachable] goes with the
    [SMTP] field: it is the unknown constant when the field is nil, and
    otherwise what [calculateReachable] gives for the record the field
    holds.  So yes comes with a deliverable SMTP result and no with one
    that is neither deliverable nor catch-all. *)
Theorem Verify_reachable_matches_SMTP (E : Env) (v : Verifier)
    (order : list (nat * bool)) (ctx : Ctx) (email : string)
    (tr : list Event) (r : Result) (e : option error) (tr' : list Event) :
  Verify E v order ctx email tr = Some ((Some r, e), tr') →
  match rSMTP r with
  | Some s => calculateReachable v (Some s) = Some (Reachable r)
  | None => Reachable r = reachableUnknown
  end
  ∧ (Reachable r = reachableYes →
     smtpCheckEnabled v = true
     ∧ ∃ s, rSMTP r = Some s ∧ Deliverable s = true)
  ∧ (Reachable r = reachableNo →
     smtpCheckEnabled v = true
     ∧ ∃ s, rSMTP r = Some s ∧ Deliverable s = false ∧ CatchAll s = false).
Proof.
  intros H. unfold Verify in H.
  assert (HR : match rSMTP r with
               | Some s => calculateReachable v (Some s) = Some (Reachable r)
               | None => Reachable r = reachableUnknown
               end).
  { apply (VerifyWith_returns _ _ _ _ _ _ _ _ _ _
             (λ r, match rSMTP r with
                   | Some s => calculateReachable v (Some s) = Some (Reachable r)
                   | None => Reachable r = reachableUnknown
                   end)) in H; try (cbn; tauto).
    - destruct H as [(ret' & Heq & HP)|(Heq & _)]; [|discriminate].
      by inversion Heq; subst.
    - intros smtp reachable r0 Hc _. cbn.
      destruct smtp as [s|]; [exact Hc|].
      unfold calculateReachable in Hc.
      destruct (smtpCheckEnabled v); cbn in Hc; [discriminate|].
      by inversion Hc. }
  split; [exact HR|].
  destruct (rSMTP r) as [s|]; [|rewrite HR; split; discriminate].
  unfold calculateReachable in HR.
  destruct (smtpCheckEnabled v), (Deliverable s) eqn:Hdel, (CatchAll s) eqn:Hca;
    cbn in HR; inversion HR as [HR'];
    split; try discriminate; intros _; split; eauto.
Qed.

Lemma Verify_reachable_matches_SMTP_witness :
  calculateReachable
    (Sample.EnableSMTPCheck (Sample.DisableMXCheck Sample.NewVerifier))
    (Some Sample.catchAllSMTP) = Some "unknown"
  ∧ ("unknown" = reachableYes →
     true = true ∧ ∃ s, Some Sample.catchAllSMTP = Some s ∧ Deliverable s = true)
  ∧ ("unknown" = reachableNo →
     true = true
     ∧ ∃ s, Some Sample.catchAllSMTP = Some s
            ∧ Deliverable s = false ∧ CatchAll s = false).
Proof.
  exact (Verify_reachable_matches_SMTP Sample.world
           (Sample.EnableSMTPCheck (Sample.DisableMXCheck Sample.NewVerifier))
           [] Background "user@github.com" []
           (mkResult "user@github.com" "unknown" (mkSyntax "user" "github.com" true)
                     (Some Sample.catchAllSMTP) None "" false false false false true)
           None _ eq_refl).
Defined.

Lemma checkMX_writes E v syntax ctx :
  ∃ evs,
    (∃ x, behaves (checkMX E v syntax) ctx
            (Yields (λ r, r) (Some (errWrap "CheckMX failed: " x)) evs))
    ∨ (∃ b, behaves (checkMX E v syntax) ctx
              (Yields (setHasMxRecords b) None evs)
            ∧ (b = true →
               mxCheckEnabled v = true
               ∧ fst (LookupMX E ctx (domainToASCII E (Domain syntax))) ≠ [])).
Proof.
  destruct (mxCheckEnabled v) eqn:Hv.
  - destruct (checkMX_shape E v syntax ctx) as (evs & [(x & Hb)|(b & Hb)]);
      exists evs; [left; eauto|].
    right. exists b. split; [exact Hb|]. intros ->. split; [done|].
    intros Hnil.
    specialize (Hb (mkResult "" "" (mkSyntax "" "" false) None None ""
                             false false false false false) []).
    unfold checkMX, mbind, M_bind in Hb.
    rewrite CheckMX_enabled in Hb by done. cbv zeta in Hb.
    destruct (LookupMX E ctx (domainToASCII E (Domain syntax))) as [mx err].
    simpl in Hnil. subst mx. destruct err; inversion Hb.
  - exists [EvCheckMX (Domain syntax)]. right. exists false.
    split; [by apply checkMX_disabled_shape|discriminate].
Qed.

(** X5: a check that is switched off leaves its field of the result at
    the zero value: [HasMxRecords] false without the MX check,
    [Suggestion] empty without the suggestion, and [SMTP] nil without
    the SMTP check (a disabled [CheckSMTP] returning nil, nil).  And
    [HasMxRecords] is true only if a lookup of the ASCII form of the
    domain returned a record. *)
Theorem Verify_disabled_checks_leave_zero (E : Env) (v : Verifier)
    (order : list (nat * bool)) (ctx : Ctx) (email : string)
    (tr : list Event) (r : Result) (e : option error) (tr' : list Event) :
  let syntax := ParseAddress E v (trimLower E email) in
  let domainIDNA := domainToASCII E (Domain syntax) in
  Verify E v order ctx email tr = Some ((Some r, e), tr') →
  (mxCheckEnabled v = false → HasMxRecords r = false)
  ∧ (domainSuggestEnabled v = false → Suggestion r = "")
  ∧ (quietWhenOff E → smtpCheckEnabled v = false → rSMTP r = None)
  ∧ (HasMxRecords r = true → ∃ c, fst (LookupMX E c domainIDNA) ≠ []).
Proof.
  intros syntax domainIDNA H. unfold Verify in H.
  set (P := λ r : Result,
         (mxCheckEnabled v = false → HasMxRecords r = false)
         ∧ (domainSuggestEnabled v = false → Suggestion r = "")
         ∧ (quietWhenOff E → smtpCheckEnabled v = false → rSMTP r = None)
         ∧ (HasMxRecords r = true →
            Valid syntax = true ∧ ∃ c, fst (LookupMX E c domainIDNA) ≠ [])).
  assert (Hfin : ∃ ret', Some r = Some ret' ∧ P ret').
  { destruct (Valid syntax) eqn:Hvalid.
    - rewrite VerifyWith_valid in H by exact Hvalid. cbv zeta in H.
      fold syntax in H. fold domainIDNA in H.
      assert (P1 : preserves P (checkMX E v syntax)).
      { apply behaves_preserves. intros c.
        destruct (checkMX_writes E v syntax c)
          as (evs & [(x & Hb)|(b & Hb & Hrec)]);
          eexists; (split; [exact Hb|]); unfold P; [tauto|].
        intros r0 (A & B & C & D).
        split; [|split; [|split]]; cbn; [|exact B|exact C|].
        - intros Hoff. destruct b; [|done].
          destruct (Hrec eq_refl) as [Hon _]. congruence.
        - intros Hb1. subst b. destruct (Hrec eq_refl) as [_ Hne].
          split; [done|]. by exists c. }
      assert (P2 : preserves P (checkSMTP E v syntax)).
      { apply behaves_preserves. intros c.
        destruct (checkSMTP_shape E v syntax c)
          as [Hb|(evs & [(x & Hb)|(smtp & reachable & Hc & Hb)])];
          eexists; (split; [exact Hb|]); unfold P; [tauto|tauto|].
        intros r0 (A & B & C & D).
        split; [|split; [|split]]; cbn; [exact A|exact B| |exact D].
        intros Hq Hoff.
        pose proof (checkSMTP_off_shape E v syntax c Hq Hoff) as Hb'.
        specialize (Hb r0 []). rewrite (Hb' r0 []) in Hb.
        apply (f_equal (λ o, match o with
                             | Some ((x, _), _) => rSMTP x
                             | None => None
                             end)) in Hb.
        cbn in Hb. congruence. }
      assert (P3 : ∀ em, preserves P (checkGravatar E v em)).
      { intros em. apply behaves_preserves. intros c.
        destruct (checkGravatar_shape E v em c)
          as [Hb|(evs & [(x & Hb)|(g & Hb)])];
          eexists; (split; [exact Hb|]); unfold P; cbn; tauto. }
      assert (P4 : preserves P (suggest E v syntax)).
      { apply behaves_preserves. intros c.
        destruct (domainSuggestEnabled v) eqn:Hs.
        - destruct (suggest_shape E v syntax c) as (evs & [Hb|(x & Hb)]);
            eexists; (split; [exact Hb|]); unfold P; [tauto|].
          intros r0 (A & B & C & D).
          split; [|split; [|split]]; cbn; [exact A|discriminate|exact C|exact D].
        - destruct (suggest_shape E v syntax c) as (evs & [Hb|(x & Hb)]);
            eexists; (split; [exact Hb|]); unfold P; [tauto|].
          intros r0 (A & B & C & D).
          specialize (Hb r0 []). unfold suggest in Hb. rewrite Hs in Hb.
          apply (f_equal (λ o, match o with
                               | Some ((y, _), _) => Suggestion y
                               | None => ""
                               end)) in Hb.
          cbn in Hb.
          split; [|split; [|split]]; cbn; [exact A| |exact C|exact D].
          intros _. rewrite <- Hb. by apply B. }
      assert (Hstart : ∀ ret0 tr0,
        P ret0 →
        startChecks E (1 <? enabledOptions v) v order ctx (trimLower E email)
                    syntax ret0 tr0 = Some ((Some r, e), tr') →
        ∃ ret', Some r = Some ret' ∧ P ret').
      { intros ret0 tr0 HP0 Hs. unfold startChecks in Hs.
        destruct (Disposable ret0); [inversion Hs; subst; eauto|].
        destruct (1 <? enabledOptions v).
        - rewrite runChecks_Group in Hs.
          apply bind_inv in Hs as ([e1 ret1] & tr1 & Hfin & Hk).
          assert (P ret1).
          { eapply finish_preserves; [|exact HP0|exact Hfin].
            repeat first [apply List.Forall_cons | apply List.Forall_nil];
              [exact P1|exact P2|apply P3|exact P4]. }
          destruct e1; inversion Hk; subst; eauto.
        - unfold runChecks in Hs.
          apply bind_inv in Hs as ([g1 r1] & t1 & H1 & Hs).
          apply Go_noGroup_inv in H1 as (ng1 & -> & H1).
          apply bind_inv in Hs as ([g2 r2] & t2 & H2 & Hs).
          apply Go_noGroup_inv in H2 as (ng2 & -> & H2).
          apply bind_inv in Hs as ([g3 r3] & t3 & H3 & Hs).
          apply Go_noGroup_inv in H3 as (ng3 & -> & H3).
          apply bind_inv in Hs as ([g4 r4] & t4 & H4 & Hs).
          apply Go_noGroup_inv in H4 as (ng4 & -> & H4).
          apply (noGroup_Go_preserves P) in H1; [|auto|done].
          apply (noGroup_Go_preserves P) in H2; [|auto|done].
          apply (noGroup_Go_preserves P) in H3; [|auto|done].
          apply (noGroup_Go_preserves P) in H4; [|auto|done].
          revert Hs. unfold Wait. run.
          destruct (noGroup_Wait ng4); intros Hs; inversion Hs; subst; eauto. }
      destruct (TopLevelDomainDisabled v).
      + eapply Hstart; [|exact H]. unfold P. repeat split; cbn; auto; discriminate.
      + destruct (TopLevelDomainExists _ _ _ _); [|discriminate].
        eapply Hstart; [|exact H]. unfold P. repeat split; cbn; auto; discriminate.
    - rewrite VerifyWith_invalid in H by exact Hvalid.
      inversion H; subst. eexists. split; [reflexivity|].
      unfold P. repeat split; cbn; auto; discriminate. }
  destruct Hfin as (ret' & Heq & A & B & C & D). inversion Heq; subst ret'.
  repeat split; auto. intros Hm. by destruct (D Hm).
Qed.

Lemma Verify_disabled_checks_leave_zero_witness :
  (mxCheckEnabled Sample.NewVerifier = false → true = false)
  ∧ (domainSuggestEnabled Sample.NewVerifier = false → "" = "")
  ∧ (quietWhenOff Sample.world → smtpCheckEnabled Sample.NewVerifier = false →
     @None SMTP = None)
  ∧ (true = true →
     ∃ c, fst (LookupMX Sample.world c
                 (domainToASCII Sample.world
                    (Domain (ParseAddress Sample.world Sample.NewVerifier
                               (trimLower Sample.world "User@GitHub.com"))))) ≠ []).
Proof.
  exact (Verify_disabled_checks_leave_zero Sample.world Sample.NewVerifier
           [] Background "User@GitHub.com" []
           (mkResult "user@github.com" "unknown" (mkSyntax "user" "github.com" true)
                     None None "" false false false true true)
           None _ eq_refl).
Defined.

(** ** No panic, and no dependence on the order when nothing fails *)








(** With no failure in sight the errgroup never cancels, and the four
    closures write different fields. *)
Lemma runChecks_same_when_all_succeed E v order ctx email syntax ret tr :
  (∀ x, ¬ checkFails E v ctx email syntax x) →
  fst <$> runChecks E (viaGroup (WithContext order)) v ctx email syntax ret tr
  = fst <$> runChecks E (viaNoGroup (mkNoGroup None)) v ctx email syntax ret tr.
Proof.
  intros Hok.
  destruct (suggest_inert E v syntax) as (u4 & l4 & Hu4 & H4).
  destruct (checkMX_uniform E v syntax (cancel ctx)) as [o1' H1'].
  destruct (checkSMTP_uniform E v syntax (cancel ctx)) as [o2' H2'].
  destruct (checkGravatar_uniform E v email (cancel ctx)) as [o3' H3'].
  destruct (checkMX_shape E v syntax ctx) as (l1 & [(x & H1)|(b & H1)]);
    [exfalso; eapply Hok; left; by eapply fails_of_behaves|].
  destruct (checkSMTP_shape E v syntax ctx)
    as [H2|(l2 & [(x & H2)|(smtp & reachable & _ & H2)])];
    [|exfalso; eapply Hok; right; left; by eapply fails_of_behaves|];
    (destruct (checkGravatar_shape E v email ctx)
       as [H3|(l3 & [(x & H3)|(g & H3)])];
     [|exfalso; eapply Hok; right; right; by eapply fails_of_behaves|]);
    destruct Hu4 as [->|[sug ->]];
    to_runs H1 H2 H3 (H4 ctx) H1' H2' H3' (H4 (cancel ctx));
    repeat completion';
    cbn [seqRun concRun errors_Join omap id mbind option_bind list_omap];
    unfold mret, M_ret; reflexivity.
Qed.

(** X7: when none of the three checks fails under the caller's context,
    what [Verify] returns does not depend on the order in which the
    goroutines of the errgroup finish, and it is what the sequential
    runner returns: the closures write different fields of the
    result. *)
Theorem Verify_order_irrelevant_without_failure (E : Env) (v : Verifier)
    (order order' : list (nat * bool)) (ctx : Ctx) (email : string)
    (tr : list Event) :
  (∀ x, ¬ failure E v ctx email x) →
  fst <$> VerifyWith E true v order ctx email tr
  = fst <$> VerifyWith E false v order ctx email tr
  ∧ fst <$> Verify E v order ctx email tr
    = fst <$> Verify E v order' ctx email tr.
Proof.
  intros Hok.
  assert (Hany : ∀ o, fst <$> VerifyWith E true v o ctx email tr
                      = fst <$> VerifyWith E false v order ctx email tr).
  { intros o.
    destruct (Valid (ParseAddress E v (trimLower E email))) eqn:Hvalid.
    - rewrite !VerifyWith_valid by exact Hvalid. cbv zeta.
      assert (Hs : ∀ ret0 tr0,
                fst <$> startChecks E true v o ctx (trimLower E email)
                          (ParseAddress E v (trimLower E email)) ret0 tr0
                = fst <$> startChecks E false v order ctx (trimLower E email)
                            (ParseAddress E v (trimLower E email)) ret0 tr0).
      { intros ret0 tr0. unfold startChecks.
        destruct (Disposable ret0); [reflexivity|].
        by apply runChecks_same_when_all_succeed. }
      destruct (TopLevelDomainDisabled v); [apply Hs|].
      destruct (TopLevelDomainExists _ _ _ _); [apply Hs|reflexivity].
    - by rewrite !VerifyWith_invalid by exact Hvalid. }
  split; [apply Hany|].
  unfold Verify. destruct (1 <? enabledOptions v).
  - by rewrite !Hany.
  - reflexivity.
Qed.

Lemma Verify_order_irrelevant_without_failure_witness :
  fst <$> VerifyWith Sample.world true (Sample.EnableSMTPCheck Sample.NewVerifier)
            [(3%nat, true); (1%nat, false)] Background "user@github.com" []
  = fst <$> VerifyWith Sample.world false (Sample.EnableSMTPCheck Sample.NewVerifier)
              [(3%nat, true); (1%nat, false)] Background "user@github.com" []
  ∧ fst <$> Verify Sample.world (Sample.EnableSMTPCheck Sample.NewVerifier)
              [(3%nat, true); (1%nat, false)] Background "user@github.com" []
    = fst <$> Verify Sample.world (Sample.EnableSMTPCheck Sample.NewVerifier)
                [] Background "user@github.com" [].
Proof.
  apply (Verify_order_irrelevant_without_failure Sample.world
           (Sample.EnableSMTPCheck Sample.NewVerifier)
           [(3%nat, true); (1%nat, false)] [] Background "user@github.com" []).
  intros x [H|[H|H]]; destruct H as (ret & t & ret' & t' & H);
    vm_compute in H; discriminate H.
Defined.

(** ** What gets called *)

Section Logs.
Variable E : Env.
Variable v : Verifier.

Lemma checkMX_logs syntax ctx :
  ∃ o, behaves (checkMX E v syntax) ctx o ∧ logs o (mxEvents E v syntax).
Proof.
  unfold mxEvents. destruct (mxCheckEnabled v) eqn:Hv.
  - destruct (LookupMX E ctx (domainToASCII E (Domain syntax)))
      as [mx err] eqn:HL.
    eexists (match err, mx with
             | Some e, [] => Yields (λ r, r) (Some (errWrap "CheckMX failed: " e)) _
             | _, _ => Yields (setHasMxRecords (0 <? length mx)%nat) None _
             end).
    split.
    + intros ret tr. unfold checkMX, mbind, M_bind.
      rewrite CheckMX_enabled by done. cbv zeta. rewrite HL.
      destruct err, mx; reflexivity.
    + destruct err, mx; reflexivity.
  - eexists. split; [by apply checkMX_disabled_shape|reflexivity].
Qed.

Lemma checkSMTP_logs syntax ctx :
  ∃ o, behaves (checkSMTP E v syntax) ctx o ∧ logs o (smtpEvents syntax).
Proof.
  destruct (probeSMTP E v ctx (Domain syntax) (Username syntax))
    as [smtp [e|]] eqn:Hp.
  - exists (Yields (λ r, r) (Some (errWrap "CheckSMTP failed: " e))
                   (smtpEvents syntax)).
    split; [|reflexivity]. intros ret tr.
    unfold checkSMTP, CheckSMTP. run. by rewrite Hp.
  - destruct (calculateReachable v smtp) as [reachable|] eqn:Hc.
    + exists (Yields (λ r, setReachable reachable (setSMTP smtp r)) None
                     (smtpEvents syntax)).
      split; [|reflexivity]. intros ret tr.
      unfold checkSMTP, CheckSMTP. run. by rewrite Hp, Hc.
    + exists Panics. split; [|exact I]. intros ret tr.
      unfold checkSMTP, CheckSMTP. run. by rewrite Hp, Hc.
Qed.

Lemma CheckGravatar_logs ctx email :
  (∀ tr, CheckGravatar E v ctx email tr = None)
  ∨ ∃ g e,
      ∀ tr, CheckGravatar E v ctx email tr
            = Some ((g, e), (tr ++ gravatarEvents E v email)%list).
Proof.
  unfold CheckGravatar, gravatarEvents. run.
  destruct (gravatarCheckEnabled v); simpl; [|right; by eexists _, _].
  destruct (getMD5Hash E (trimLower E email)) as [emailMd5 [e|]];
    [right; by eexists _, _|].
  destruct (NewRequest E _) as [e|]; [right; by eexists _, _|].
  destruct (Do E _ _) as [resp [e|]].
  { right. eexists _, _. intros tr. by rewrite <- app_assoc. }
  destruct resp as [resp|]; [|by left].
  destruct (Body resp) as [body [e|]].
  { right. eexists _, _. intros tr. by rewrite <- app_assoc. }
  destruct (getMD5Hash E body) as [md5Body [e|]].
  { right. eexists _, _. intros tr. by rewrite <- app_assoc. }
  destruct (_ || _);
    right; eexists _, _; intros tr; by rewrite <- app_assoc.
Qed.

Lemma checkGravatar_logs email ctx :
  ∃ o, behaves (checkGravatar E v email) ctx o
       ∧ logs o (gravatarEvents E v email).
Proof.
  destruct (CheckGravatar_logs ctx email) as [Hp|(g & e & H)].
  - exists Panics. split; [|exact I].
    intros ret tr. unfold checkGravatar. by rewrite bind_None.
  - destruct e as [e|].
    + exists (Yields (λ r, r) (Some (errWrap "CheckGravatar failed: " e))
                     (gravatarEvents E v email)).
      split; [|reflexivity]. intros ret tr. unfold checkGravatar.
      by erewrite bind_Some by apply H.
    + exists (Yields (setGravatar g) None (gravatarEvents E v email)).
      split; [|reflexivity]. intros ret tr. unfold checkGravatar.
      by erewrite bind_Some by apply H.
Qed.

Lemma suggest_logs syntax ctx :
  ∃ o, behaves (suggest E v syntax) ctx o ∧ logs o (suggestEvents v syntax).
Proof.
  unfold suggestEvents, behaves, suggest. destruct (domainSuggestEnabled v).
  - eexists (Yields _ None _). split; [|reflexivity].
    intros ret tr. run. reflexivity.
  - exists (Yields (λ r, r) None []). split; [|reflexivity].
    intros ret tr. run. by rewrite app_nil_r.
Qed.
End Logs.

Lemma concat_Permutation {A} (Ls Ls' : list (list A)) :
  Ls ≡ₚ Ls' → concat Ls ≡ₚ concat Ls'.
Proof.
  induction 1 as [|L Ls Ls' _ IH|L1 L2 Ls|Ls1 Ls2 Ls3 _ IH1 _ IH2]; simpl.
  - reflexivity.
  - by rewrite IH.
  - rewrite !app_assoc. by rewrite (Permutation_app_comm L2 L1).
  - by rewrite IH1.
Qed.

Lemma seqRun_log os :
  ∀ Ls acc ret tr e ret' tr',
    Forall2 logs os Ls →
    seqRun os acc ret tr = Some ((e, ret'), tr') →
    tr' = (tr ++ concat Ls)%list.
Proof.
  induction os as [|o os IH]; intros Ls acc ret tr e ret' tr' Hall H.
  - apply Forall2_nil_inv_l in Hall as ->. inversion H; subst.
    simpl. by rewrite app_nil_r.
  - apply Forall2_cons_inv_l in Hall as (L & Ls' & Hl & Hall & ->).
    destruct o as [|upd e0 evs]; [discriminate|]. simpl in H, Hl. subst evs.
    apply (IH _ _ _ _ _ _ _ Hall) in H. rewrite H. simpl.
    by rewrite app_assoc.
Qed.

Lemma concRun_log n :
  ∀ order os Ls first ret tr e ret' tr',
    (length os ≤ n)%nat →
    Forall2 (λ oo L, logs (fst oo) L ∧ logs (snd oo) L) os Ls →
    concRun n order os first ret tr = Some ((e, ret'), tr') →
    ∃ evs, tr' = (tr ++ evs)%list ∧ evs ≡ₚ concat Ls.
Proof.
  induction n as [|n IH];
    intros order os Ls first ret tr e ret' tr' Hlen Hall H.
  - destruct os; [|simpl in Hlen; lia].
    apply Forall2_nil_inv_l in Hall as ->. inversion H; subst.
    exists []. by rewrite app_nil_r.
  - rewrite concRun_unfold in H. cbv zeta in H.
    destruct (os !! _) as [[o o']|] eqn:Ho.
    + destruct (Forall2_lookup_l _ _ _ _ _ Hall Ho) as (L & HL & Hl & Hl').
      simpl in Hl, Hl'.
      set (chosen := match first with
                     | Some _ => if snd (hd (O, false) order) then o' else o
                     | None => o
                     end) in H.
      assert (Hc : logs chosen L).
      { unfold chosen. destruct first; [destruct (snd _)|]; assumption. }
      destruct chosen as [|upd e0 evs]; [discriminate|]. simpl in Hc. subst evs.
      set (i := (fst (hd (O, false) order) `mod` length os)%nat) in *.
      apply (IH _ _ (delete i Ls)) in H as (evs' & -> & Hperm).
      * exists (L ++ evs')%list. split; [by rewrite app_assoc|].
        rewrite Hperm.
        change (L ++ concat (delete i Ls))%list with (concat (L :: delete i Ls)).
        apply concat_Permutation. symmetry. by apply delete_Permutation.
      * pose proof (lookup_lt_Some _ _ _ Ho). rewrite length_delete by eauto. lia.
      * by apply Forall2_delete.
    + destruct os as [|p os].
      * apply Forall2_nil_inv_l in Hall as ->. inversion H; subst.
        exists []. by rewrite app_nil_r.
      * apply lookup_ge_None in Ho.
        pose proof (Nat.mod_upper_bound (fst (hd (O, false) order))
                      (length (p :: os))) as Hm.
        simpl in Hm, Ho. lia.
Qed.

(** The log of the checks: the four closures' logs, in launch order
    under the sequential runner and block by block in completion order
    under the errgroup. *)
Lemma runChecks_log E (c : bool) v order ctx email syntax ret tr out tr' :
  runChecks E (if c then viaGroup (WithContext order)
               else viaNoGroup (mkNoGroup None))
            v ctx email syntax ret tr = Some (out, tr') →
  ∃ evs, tr' = (tr ++ evs)%list
         ∧ evs ≡ₚ concat (checkEvents E v email syntax)
         ∧ (c = false → evs = concat (checkEvents E v email syntax)).
Proof.
  destruct (checkMX_logs E v syntax ctx) as (o1 & H1 & L1).
  destruct (checkSMTP_logs E v syntax ctx) as (o2 & H2 & L2).
  destruct (checkGravatar_logs E v email ctx) as (o3 & H3 & L3).
  destruct (suggest_logs E v syntax ctx) as (o4 & H4 & L4).
  destruct c.
  - destruct (checkMX_logs E v syntax (cancel ctx)) as (o1' & H1' & L1').
    destruct (checkSMTP_logs E v syntax (cancel ctx)) as (o2' & H2' & L2').
    destruct (checkGravatar_logs E v email (cancel ctx)) as (o3' & H3' & L3').
    destruct (suggest_logs E v syntax (cancel ctx)) as (o4' & H4' & L4').
    rewrite runChecks_Group. intros H.
    apply bind_inv in H as ([e0 ret0] & tr0 & Hfin & Hk).
    rewrite (finish4_concRun _ _ _ _ _ _ _ _ _ _ _ _ _ _ _ _ _
               H1 H1' H2 H2' H3 H3' H4 H4') in Hfin.
    eapply (concRun_log 4 _ _ (checkEvents E v email syntax)) in Hfin
      as (evs & -> & Hperm).
    + exists evs. split; [|split; [exact Hperm|discriminate]].
      destruct e0; by inversion Hk.
    + simpl. lia.
    + repeat first [apply List.Forall2_cons | apply List.Forall2_nil]; by split.
  - rewrite (runChecks_noGroup_seqRun _ _ _ _ _ _ _ _ _ _ _ H1 H2 H3 H4).
    destruct (seqRun _ _ _ _) as [[[e0 ret0] tr0]|] eqn:Hrun; [|discriminate].
    intros H. inversion H; subst.
    eapply (seqRun_log _ (checkEvents E v email syntax)) in Hrun.
    + exists (concat (checkEvents E v email syntax)). by repeat split.
    + repeat first [apply List.Forall2_cons | apply List.Forall2_nil]; done.
Qed.

(** The log of a whole call. *)
Lemma VerifyWith_log E c v order ctx email tr out tr' :
  let syntax := ParseAddress E v (trimLower E email) in
  let domainIDNA := domainToASCII E (Domain syntax) in
  VerifyWith E c v order ctx email tr = Some (out, tr') →
  (Valid syntax = false ∧ tr' = (tr ++ [EvParseAddress (trimLower E email)])%list)
  ∨ (Valid syntax = true
     ∧ (IsDisposable E v (Domain syntax) = true ∨ fst out = None)
     ∧ tr' = (tr ++ prelude E v email)%list)
  ∨ (Valid syntax = true
     ∧ IsDisposable E v (Domain syntax) = false ∧ is_Some (fst out)
     ∧ ∃ evs, tr' = (tr ++ prelude E v email ++ evs)%list
              ∧ evs ≡ₚ concat (checkEvents E v (trimLower E email) syntax)
              ∧ (c = false →
                 evs = concat (checkEvents E v (trimLower E email) syntax))).
Proof.
  intros syntax domainIDNA H.
  destruct (Valid syntax) eqn:Hvalid.
  - right. rewrite VerifyWith_valid in H by exact Hvalid. cbv zeta in H.
    fold syntax in H. fold domainIDNA in H. unfold prelude. fold syntax.
    fold domainIDNA.
    assert (Hs : ∀ ret0 tr0,
      Disposable ret0 = IsDisposable E v (Domain syntax) →
      startChecks E c v order ctx (trimLower E email) syntax ret0 tr0
      = Some (out, tr') →
      (IsDisposable E v (Domain syntax) = true ∧ tr' = tr0)
      ∨ (IsDisposable E v (Domain syntax) = false ∧ is_Some (fst out)
         ∧ ∃ evs, tr' = (tr0 ++ evs)%list
              ∧ evs ≡ₚ concat (checkEvents E v (trimLower E email) syntax)
              ∧ (c = false →
                 evs = concat (checkEvents E v (trimLower E email) syntax)))).
    { intros ret0 tr0 Hd Hs. unfold startChecks in Hs. rewrite Hd in Hs.
      destruct (IsDisposable E v (Domain syntax)).
      - left. by inversion Hs.
      - right. split; [done|]. split.
        + destruct out as [r e]. simpl.
          destruct c.
          * apply (runChecks_Group_invariant E (λ _, True)) in Hs
              as (ret' & -> & _); [by eexists|try done..].
          * apply (runChecks_noGroup_invariant E (λ _, True)) in Hs
              as (ret' & -> & _); [by eexists|try done..].
        + by apply (runChecks_log E c) in Hs. }
    destruct (TopLevelDomainDisabled v).
    + apply Hs in H; [|reflexivity].
      destruct H as [[Hd ->]|(Hd & Hsome & evs & -> & Hp)].
      * left. rewrite app_nil_r. auto.
      * right. repeat split; [done..|]. exists evs.
        by rewrite app_nil_r, <- app_assoc.
    + destruct (TopLevelDomainExists _ _ _ _).
      * apply Hs in H; [|reflexivity].
        destruct H as [[Hd ->]|(Hd & Hsome & evs & -> & Hp)].
        -- left. auto.
        -- right. repeat split; [done..|]. exists evs.
           by rewrite <- !app_assoc.
      * left. inversion H; subst. auto.
  - left. rewrite VerifyWith_invalid in H by exact Hvalid.
    by inversion H.
Qed.

Lemma count_app p l1 l2 : count p (l1 ++ l2) = (count p l1 + count p l2)%nat.
Proof. unfold count. by rewrite List.filter_app, length_app. Qed.

Lemma count_Permutation p l1 l2 : l1 ≡ₚ l2 → count p l1 = count p l2.
Proof.
  unfold count.
  induction 1 as [|x l l' _ IH|x y l|l1 l2 l3 _ IH1 _ IH2]; simpl.
  - reflexivity.
  - destruct (p x); simpl; by rewrite IH.
  - by destruct (p x), (p y).
  - by rewrite IH1.
Qed.

Lemma count_prelude E v email p :
  (∀ ev, isCheckEvent ev = false → p ev = false) →
  count p (prelude E v email) = O
  ∧ count p [EvParseAddress (trimLower E email)] = O.
Proof.
  intros Hp. unfold prelude, classified, count. simpl.
  rewrite !Hp by reflexivity. simpl.
  destruct (TopLevelDomainDisabled v); simpl; [done|].
  by rewrite Hp.
Qed.

Ltac count_checks :=
  unfold checkEvents, mxEvents, smtpEvents, gravatarEvents, suggestEvents,
    count;
  repeat match goal with
         | |- context [if ?b then _ else _] => destruct b
         | |- context [getMD5Hash ?E ?x] => destruct (getMD5Hash E x) as [? [?|]]
         | |- context [NewRequest ?E ?x] => destruct (NewRequest E x)
         end;
  simpl; try reflexivity; try lia; try discriminate.

(** X8: the code of verifier.go, mx.go and gravatar.go makes the same
    calls under both runners (what [CheckSMTP] does inside its one call
    is smtp.go's): after the classification calls come the calls of the
    four closures, in launch order when the sequential runner is used,
    and the same calls in some order when the errgroup is. *)
Theorem Verify_same_calls_under_both_runners (E : Env) (v : Verifier)
    (order : list (nat * bool)) (ctx : Ctx) (email : string)
    (tr : list Event) (r : Result) (e : option error) (tr' : list Event) :
  let syntax := ParseAddress E v (trimLower E email) in
  Valid syntax = true →
  IsDisposable E v (Domain syntax) = false →
  Verify E v order ctx email tr = Some ((Some r, e), tr') →
  ∃ evs, tr' = (tr ++ prelude E v email ++ evs)%list
         ∧ evs ≡ₚ concat (checkEvents E v (trimLower E email) syntax)
         ∧ (enabledOptions v <= 1 →
            evs = concat (checkEvents E v (trimLower E email) syntax)).
Proof.
  intros syntax Hvalid Hdisp H. unfold Verify in H.
  apply VerifyWith_log in H. cbv zeta in H. fold syntax in H.
  destruct H as [[Hv _]|[(_ & [Hd|Hn] & _)|(_ & _ & _ & evs & -> & Hp & Hseq)]].
  - congruence.
  - congruence.
  - discriminate.
  - exists evs. repeat split; [exact Hp|]. intros Hopt. apply Hseq.
    apply Z.ltb_ge. lia.
Qed.

Lemma Verify_same_calls_under_both_runners_witness :
  ∃ evs,
    [EvParseAddress "x@b.com"; EvIsFreeDomain "b.com"; EvIsRoleAccount "x";
     EvIsDisposable "b.com"; EvTopLevelDomainExists "b.com";
     EvCheckSMTP "b.com" "x"; EvCheckMX "b.com"; EvLookupMX "b.com";
     EvCheckGravatar "x@b.com"]
    = ([] ++ prelude Sample.world (Sample.EnableSMTPCheck Sample.NewVerifier)
                     "x@b.com" ++ evs)%list
    ∧ evs ≡ₚ concat (checkEvents Sample.world
                       (Sample.EnableSMTPCheck Sample.NewVerifier)
                       (trimLower Sample.world "x@b.com")
                       (ParseAddress Sample.world
                          (Sample.EnableSMTPCheck Sample.NewVerifier)
                          (trimLower Sample.world "x@b.com")))
    ∧ (enabledOptions (Sample.EnableSMTPCheck Sample.NewVerifier) <= 1 →
       evs = concat (checkEvents Sample.world
                       (Sample.EnableSMTPCheck Sample.NewVerifier)
                       (trimLower Sample.world "x@b.com")
                       (ParseAddress Sample.world
                          (Sample.EnableSMTPCheck Sample.NewVerifier)
                          (trimLower Sample.world "x@b.com")))).
Proof.
  exact (Verify_same_calls_under_both_runners Sample.world
           (Sample.EnableSMTPCheck Sample.NewVerifier)
           [(1%nat, true); (0%nat, true)] Background "x@b.com" []
           _ _ _ eq_refl eq_refl eq_refl).
Defined.

(** X9: in a call of [Verify] the lookup of [CheckMX], the request of
    [CheckGravatar] and the call of the suggestion engine are each made
    at most once, and not at all when the check is switched off, on
    every path and under either runner.  The lookups [CheckSMTP] makes
    of its own, in smtp.go, are not counted. *)
Theorem Verify_no_call_for_disabled_check (E : Env) (v : Verifier)
    (order : list (nat * bool)) (ctx : Ctx) (email : string)
    (tr : list Event) (out : option Result * option error)
    (tr' : list Event) :
  Verify E v order ctx email tr = Some (out, tr') →
  ∃ evs, tr' = (tr ++ evs)%list
         ∧ (count isLookupMX evs ≤ 1)%nat
         ∧ (count isHTTPGet evs ≤ 1)%nat
         ∧ (count isSuggestDomain evs ≤ 1)%nat
         ∧ (mxCheckEnabled v = false → count isLookupMX evs = O)
         ∧ (gravatarCheckEnabled v = false → count isHTTPGet evs = O)
         ∧ (domainSuggestEnabled v = false → count isSuggestDomain evs = O).
Proof.
  intros H. unfold Verify in H. apply VerifyWith_log in H. cbv zeta in H.
  assert (Hpre : ∀ p, (∀ ev, isCheckEvent ev = false → p ev = false) →
            count p (prelude E v email) = O
            ∧ count p [EvParseAddress (trimLower E email)] = O)
    by (intros; by apply count_prelude).
  destruct (Hpre isLookupMX) as [A1 A2]; [by intros []|].
  destruct (Hpre isHTTPGet) as [B1 B2]; [by intros []|].
  destruct (Hpre isSuggestDomain) as [C1 C2]; [by intros []|].
  destruct H as [[_ ->]|[(_ & _ & ->)|(_ & _ & _ & evs & -> & Hp & _)]].
  - eexists. split; [reflexivity|]. rewrite A2, B2, C2. repeat split; lia.
  - eexists. split; [reflexivity|]. rewrite A1, B1, C1. repeat split; lia.
  - eexists. split; [reflexivity|].
    rewrite !count_app, A1, B1, C1.
    rewrite !(count_Permutation _ _ _ Hp). simpl.
    repeat split; try intros ->; count_checks.
Qed.

Lemma Verify_no_call_for_disabled_check_witness :
  ∃ evs,
    [EvParseAddress "user@github.com"; EvIsFreeDomain "github.com";
     EvIsRoleAccount "user"; EvIsDisposable "github.com";
     EvTopLevelDomainExists "github.com"; EvCheckMX "github.com";
     EvLookupMX "github.com"; EvCheckSMTP "github.com" "user";
     EvCheckGravatar "user@github.com"] = ([] ++ evs)%list
    ∧ (count isLookupMX evs ≤ 1)%nat
    ∧ (count isHTTPGet evs ≤ 1)%nat
    ∧ (count isSuggestDomain evs ≤ 1)%nat
    ∧ (mxCheckEnabled Sample.NewVerifier = false → count isLookupMX evs = O)
    ∧ (gravatarCheckEnabled Sample.NewVerifier = false → count isHTTPGet evs = O)
    ∧ (domainSuggestEnabled Sample.NewVerifier = false →
       count isSuggestDomain evs = O).
Proof.
  exact (Verify_no_call_for_disabled_check Sample.world Sample.NewVerifier
           [] Background "User@GitHub.com" [] _ _ eq_refl).
Defined.

(** X10: a call that goes through the checks invokes [CheckMX],
    [CheckSMTP] and [CheckGravatar] exactly once each, whether or not
    one of them fails and under either runner; a call that returns
    before the checks invokes none of them. *)
Theorem Verify_runs_each_check_once (E : Env) (v : Verifier)
    (order : list (nat * bool)) (ctx : Ctx) (email : string)
    (tr : list Event) (r : option Result) (e : option error)
    (tr' : list Event) :
  let syntax := ParseAddress E v (trimLower E email) in
  let n := if Valid syntax && negb (IsDisposable E v (Domain syntax))
              && bool_decide (is_Some r)
           then 1%nat else O in
  Verify E v order ctx email tr = Some ((r, e), tr') →
  ∃ evs, tr' = (tr ++ evs)%list
         ∧ count isCheckMX evs = n
         ∧ count isCheckSMTP evs = n
         ∧ count isCheckGravatar evs = n.
Proof.
  intros syntax n H. unfold Verify in H. apply VerifyWith_log in H.
  cbv zeta in H. fold syntax in H. cbn [fst] in H.
  assert (Hpre : ∀ p, (∀ ev, isCheckEvent ev = false → p ev = false) →
            count p (prelude E v email) = O
            ∧ count p [EvParseAddress (trimLower E email)] = O)
    by (intros; by apply count_prelude).
  destruct (Hpre isCheckMX) as [A1 A2]; [by intros []|].
  destruct (Hpre isCheckSMTP) as [B1 B2]; [by intros []|].
  destruct (Hpre isCheckGravatar) as [C1 C2]; [by intros []|].
  destruct H as [[Hv ->]|[(Hv & Hd & ->)|(Hv & Hd & Hs & evs & -> & Hp & _)]].
  - eexists. split; [reflexivity|]. unfold n. rewrite Hv. simpl.
    by rewrite A2, B2, C2.
  - eexists. split; [reflexivity|]. rewrite A1, B1, C1.
    unfold n. rewrite Hv. destruct Hd as [->| ->]; simpl; [done|].
    rewrite andb_false_r. done.
  - eexists. split; [reflexivity|].
    rewrite !count_app, A1, B1, C1.
    rewrite !(count_Permutation _ _ _ Hp).
    unfold n. rewrite Hv, Hd. simpl. rewrite bool_decide_true by done.
    repeat split; count_checks.
Qed.

Lemma Verify_runs_each_check_once_witness :
  ∃ evs,
    [EvParseAddress "x@b.com"; EvIsFreeDomain "b.com"; EvIsRoleAccount "x";
     EvIsDisposable "b.com"; EvTopLevelDomainExists "b.com";
     EvCheckSMTP "b.com" "x"; EvCheckMX "b.com"; EvLookupMX "b.com";
     EvCheckGravatar "x@b.com"] = ([] ++ evs)%list
    ∧ count isCheckMX evs = 1%nat
    ∧ count isCheckSMTP evs = 1%nat
    ∧ count isCheckGravatar evs = 1%nat.
Proof.
  exact (Verify_runs_each_check_once Sample.world
           (Sample.EnableSMTPCheck Sample.NewVerifier)
           [(1%nat, true); (0%nat, true)] Background "x@b.com" []
           _ _ _ eq_refl).
Defined.

(** ** The sequential runner, for any closures *)

Lemma joinLines_snoc_head a x ms :
  joinLines ((a +:+ newline +:+ x) :: ms) = joinLines (a :: x :: ms).
Proof. reflexivity. Qed.

Lemma noGroup_run ctx fs :
  ∀ ng ret tr out tr',
    GoAll (viaNoGroup ng) ctx fs ret tr = Some (out, tr') →
    ∃ es,
      ranAll ctx fs ret tr es (snd out) tr'
      ∧ (∀ x, exposes (err ng) x ∨ In (Some x) es → exposes (fst out) x)
      ∧ (fst out = None ↔ err ng = None ∧ failures es = [])
      ∧ ∀ quote,
          Error quote <$> fst out
          = joinLines (option_list (Error quote <$> err ng)
                         ++ List.map (Error quote) (failures es)).
Proof.
  induction fs as [|f fs IH]; intros ng ret tr out tr' H.
  - cbn in H. inversion H; subst. exists []. cbn [fst snd].
    split; [constructor|]. split; [|split].
    + intros x [Hx|[]]. exact Hx.
    + unfold noGroup_Wait. split; [by intros ->|by intros [-> _]].
    + intros quote. unfold noGroup_Wait. rewrite app_nil_r.
      by destruct (err ng).
  - simpl in H.
    apply bind_inv in H as ([g1 r1] & t1 & H1 & H).
    unfold Go in H1.
    apply bind_inv in H1 as ([ng1 r1'] & t1' & H1 & Hr).
    inversion Hr; subst; clear Hr.
    unfold noGroup_Go in H1.
    apply bind_inv in H1 as ([r0 e] & t0 & Hf & H1).
    destruct e as [x|]; inversion H1; subst; clear H1;
      destruct (IH _ _ _ _ _ H) as (es & Hran & Hexp & Hnil & Htxt);
      [exists (Some x :: es)|exists (None :: es)];
      (split; [econstructor; [exact Hf|exact Hran]|]).
    + split; [|split].
      * intros y Hy. apply Hexp.
        destruct Hy as [(a & Ha & Hin)|[Hy|Hy]]; [| |by right].
        -- left. cbn [err]. rewrite Ha. eexists. split; [reflexivity|].
           simpl. right. apply in_or_app. by left.
        -- inversion Hy; subst. left. cbn [err].
           destruct (err ng) as [a|]; (eexists; split; [reflexivity|]); simpl.
           ++ right. apply in_or_app. right. apply in_or_app. left.
              destruct y; simpl; auto.
           ++ right. apply in_or_app. left. destruct y; simpl; auto.
      * rewrite Hnil. cbn [err]. split.
        -- intros [Hc _]. by destruct (err ng).
        -- intros [_ Hc]. discriminate.
      * intros quote. rewrite Htxt. cbn [err].
        destruct (err ng) as [a|]; reflexivity.
    + split; [|split].
      * intros y [Hy|[Hy|Hy]]; [apply Hexp; by left|discriminate|].
        apply Hexp. by right.
      * exact Hnil.
      * exact Htxt.
Qed.

Lemma ranAll_GoAll ctx fs :
  ∀ ng ret tr es ret' tr',
    ranAll ctx fs ret tr es ret' tr' →
    ∃ e, GoAll (viaNoGroup ng) ctx fs ret tr = Some ((e, ret'), tr').
Proof.
  induction fs as [|f fs IH]; intros ng ret tr es ret' tr' H;
    inversion H; subst.
  - eexists. reflexivity.
  - simpl. unfold Go, noGroup_Go, mbind, M_bind.
    match goal with Hf : f ctx ret tr = _ |- _ => rewrite Hf end.
    destruct e; simpl; eapply IH; eauto.
Qed.

(** X11: the sequential runner, for any closures handed to [Go] before
    [Wait].  Every closure is run, in launch order, each on the result
    the one before left, also after one has failed, and [Wait] returns
    unless a closure panics; [Wait] returns nil exactly when none failed;
    [errors.Is] finds every failure in what [Wait] returns; and its
    message is the failures' messages, one per line, in launch order. *)
Theorem noGroup_runs_all_and_reports_all (ctx : Ctx) (fs : list Task)
    (ret : Result) (tr : list Event) :
  (∀ es ret' tr',
     ranAll ctx fs ret tr es ret' tr' →
     ∃ e, GoAll (viaNoGroup (mkNoGroup None)) ctx fs ret tr
          = Some ((e, ret'), tr'))
  ∧ (∀ e ret' tr',
       GoAll (viaNoGroup (mkNoGroup None)) ctx fs ret tr = Some ((e, ret'), tr') →
       ∃ es,
         ranAll ctx fs ret tr es ret' tr'
         ∧ (e = None ↔ failures es = [])
         ∧ (∀ x, In x (failures es) → exposes e x)
         ∧ ∀ quote,
             Error quote <$> e
             = joinLines (List.map (Error quote) (failures es))).
Proof.
  split; [intros es ret' tr'; apply ranAll_GoAll|].
  intros e ret' tr' H.
  destruct (noGroup_run _ _ _ _ _ _ _ H) as (es & Hran & Hexp & Hnil & Htxt).
  exists es. cbn [fst snd err] in *. split; [exact Hran|]. split; [|split].
  - rewrite Hnil. tauto.
  - intros x Hx. apply Hexp. right.
    unfold failures in Hx. apply list_elem_of_In, list_elem_of_omap in Hx.
    destruct Hx as (o & Ho & Hid). simpl in Hid. subst o.
    by apply list_elem_of_In.
  - exact Htxt.
Qed.

Lemma noGroup_runs_all_and_reports_all_witness :
  let fs : list Task :=
    [ (λ _ r, mret (setHasMxRecords true r, Some (errExtern "a")));
      (λ _ r, mret (setSuggestion "s" r, None));
      (λ _ r, mret (r, Some (errExtern "b"))) ] in
  let ret := classifiedResult Sample.world Sample.NewVerifier "a@b.com" in
  let e := Some (errJoin [errJoin [errExtern "a"]; errExtern "b"]) in
  ∃ es,
    ranAll Background fs ret [] es
           (setSuggestion "s" (setHasMxRecords true ret)) []
    ∧ (e = None ↔ failures es = [])
    ∧ (∀ x, In x (failures es) → exposes e x)
    ∧ ∀ quote, Error quote <$> e = joinLines (List.map (Error quote) (failures es)).
Proof.
  intros fs ret e.
  exact (proj2 (noGroup_runs_all_and_reports_all Background fs ret []) e
           (setSuggestion "s" (setHasMxRecords true ret)) [] eq_refl).
Defined.

(** ** [CheckMX] and [CheckGravatar], whatever the collaborators do *)

(** X12: [CheckMX] always returns, with exactly one of its two results
    nil, so the closure of [Verify] that reads [mx.HasMXRecord] cannot
    panic.  An [Mx] it returns has [HasMXRecord] set exactly when it
    holds a record, and holds the records of the one lookup made, of the
    ASCII form of the domain (none with the check off); an error it
    returns is the resolver's, and the resolver gave no record then. *)
Theorem CheckMX_one_result (E : Env) (v : Verifier) (ctx : Ctx)
    (domain : string) (tr : list Event) :
  let lookup := LookupMX E ctx (domainToASCII E domain) in
  (∃ mx err,
     CheckMX E v ctx domain tr
     = Some ((mx, err),
             (tr ++ EvCheckMX domain
                 :: (if mxCheckEnabled v
                     then [EvLookupMX (domainToASCII E domain)] else []))%list)
     ∧ (mx = None ↔ err ≠ None)
     ∧ (∀ m, mx = Some m →
          (HasMXRecord m = true ↔ Records m ≠ [])
          ∧ Records m = if mxCheckEnabled v then fst lookup else [])
     ∧ (∀ x, err = Some x → mxCheckEnabled v = true ∧ lookup = ([], Some x)))
  ∧ ∀ syntax ret, checkMX E v syntax ctx ret tr ≠ None.
Proof.
  intros lookup.
  assert (Hmain : ∀ d, ∃ mx err,
     CheckMX E v ctx d tr
     = Some ((mx, err),
             (tr ++ EvCheckMX d
                 :: (if mxCheckEnabled v
                     then [EvLookupMX (domainToASCII E d)] else []))%list)
     ∧ (mx = None ↔ err ≠ None)
     ∧ (∀ m, mx = Some m →
          (HasMXRecord m = true ↔ Records m ≠ [])
          ∧ Records m = if mxCheckEnabled v
                        then fst (LookupMX E ctx (domainToASCII E d)) else [])
     ∧ (∀ x, err = Some x →
          mxCheckEnabled v = true
          ∧ LookupMX E ctx (domainToASCII E d) = ([], Some x))).
  { intros d. destruct (mxCheckEnabled v) eqn:Hv.
    - rewrite CheckMX_enabled by done. cbv zeta.
      destruct (LookupMX E ctx (domainToASCII E d)) as [recs [e|]];
        destruct recs as [|rec recs]; eexists _, _;
        (split; [reflexivity|]); cbn [fst].
      + split; [split; [discriminate|done]|].
        split; [discriminate|]. intros x Hx. by inversion Hx.
      + split; [split; [discriminate|intros Hc; by destruct Hc]|].
        split; [|discriminate].
        intros m0 Hm. inversion Hm; subst. cbn. split; [|done].
        split; [discriminate|done].
      + split; [split; [discriminate|intros Hc; by destruct Hc]|].
        split; [|discriminate].
        intros m0 Hm. inversion Hm; subst. cbn. split; [|done].
        split; [discriminate|done].
      + split; [split; [discriminate|intros Hc; by destruct Hc]|].
        split; [|discriminate].
        intros m0 Hm. inversion Hm; subst. cbn. split; [|done].
        split; [discriminate|done].
    - rewrite CheckMX_disabled by done.
      eexists _, _. split; [reflexivity|].
      split; [split; [discriminate|intros Hc; by destruct Hc]|].
      split; [|discriminate].
      intros m0 Hm. inversion Hm; subst. cbn. split; [|done].
      split; [discriminate|done]. }
  split; [apply Hmain|].
  intros syntax ret. unfold checkMX, mbind, M_bind.
  destruct (Hmain (Domain syntax)) as (mx & err & -> & Hone & _).
  destruct err as [x|]; [discriminate|].
  destruct mx as [m|]; [discriminate|].
  exfalso. by apply (proj1 Hone).
Qed.

(** X13: what [CheckGravatar] hands back.  It never returns a record
    together with an error, and returns neither only when the check is
    off.  [HasGravatar] is reported only after a request for
    base + md5(trimLower(email)) + "?d=404", made under the caller's
    context with a ten-second timeout, was answered with status 200 and
    a body whose hash is not the default image's; the record then holds
    that URL, and otherwise an empty one.  At most that one request is
    made. *)
Theorem CheckGravatar_result (E : Env) (v : Verifier) (ctx : Ctx)
    (email : string) (tr : list Event)
    (g : option Gravatar) (err : option error) (tr' : list Event) :
  let url := gravatarBaseUrl E +:+ fst (getMD5Hash E (trimLower E email))
             +:+ "?d=404" in
  CheckGravatar E v ctx email tr = Some ((g, err), tr') →
  (g = None ∨ err = None)
  ∧ (g = None ∧ err = None ↔ gravatarCheckEnabled v = false)
  ∧ (∀ x, g = Some x →
       if HasGravatar x
       then GravatarUrl x = url
            ∧ ∃ resp body,
                Do E (WithTimeout ctx (10 * Second)) url = (Some resp, None)
                ∧ StatusCode resp = 200
                ∧ Body resp = (body, None)
                ∧ fst (getMD5Hash E body) ≠ gravatarDefaultMd5 E
       else GravatarUrl x = "")
  ∧ (tr' = tr ++ [EvCheckGravatar email]
     ∨ gravatarCheckEnabled v = true
       ∧ tr' = tr ++ [EvCheckGravatar email; EvHTTPGet url])%list.
Proof.
  intros url. unfold CheckGravatar. run.
  destruct (gravatarCheckEnabled v); simpl.
  2:{ intros H. inversion H; subst. repeat split; auto; try discriminate. }
  subst url.
  destruct (getMD5Hash E (trimLower E email)) as [emailMd5 [e|]]; cbn [fst].
  { intros H. inversion H; subst.
    split; [by left|]. split; [split; [by intros [_ ?]|discriminate]|].
    split; [discriminate|by left]. }
  destruct (NewRequest E _) as [e|].
  { intros H. inversion H; subst.
    split; [by left|]. split; [split; [by intros [_ ?]|discriminate]|].
    split; [discriminate|by left]. }
  destruct (Do E _ _) as [resp [e|]] eqn:HDo.
  { intros H. inversion H; subst.
    split; [by left|]. split; [split; [by intros [_ ?]|discriminate]|].
    split; [discriminate|]. right. split; [done|]. by rewrite <- app_assoc. }
  destruct resp as [resp|]; [|discriminate].
  destruct (Body resp) as [body [e|]] eqn:HBody.
  { intros H. inversion H; subst.
    split; [by left|]. split; [split; [by intros [_ ?]|discriminate]|].
    split; [discriminate|]. right. split; [done|]. by rewrite <- app_assoc. }
  destruct (getMD5Hash E body) as [md5Body [e|]] eqn:HHash.
  { intros H. inversion H; subst.
    split; [by left|]. split; [split; [by intros [_ ?]|discriminate]|].
    split; [discriminate|]. right. split; [done|]. by rewrite <- app_assoc. }
  destruct (String.eqb md5Body (gravatarDefaultMd5 E)) eqn:Hdef; simpl.
  { intros H. inversion H; subst.
    split; [by right|]. split; [split; [by intros [? _]|discriminate]|].
    split; [|right; split; [done|]; by rewrite <- app_assoc].
    intros x Hx. inversion Hx; subst. reflexivity. }
  destruct (StatusCode resp =? 200) eqn:Hst; simpl.
  - intros H. inversion H; subst.
    split; [by right|]. split; [split; [by intros [? _]|discriminate]|].
    split; [|right; split; [done|]; by rewrite <- app_assoc].
    intros x Hx. inversion Hx; subst. cbn. split; [reflexivity|].
    exists resp, body. split; [first [exact HDo|reflexivity]|].
    split; [by apply Z.eqb_eq|].
    split; [first [exact HBody|reflexivity]|].
    rewrite ?HHash. cbn. by apply String.eqb_neq.
  - intros H. inversion H; subst.
    split; [by right|]. split; [split; [by intros [? _]|discriminate]|].
    split; [|right; split; [done|]; by rewrite <- app_assoc].
    intros x Hx. inversion Hx; subst. reflexivity.
Qed.

Lemma CheckGravatar_result_witness :
  GravatarUrl (mkGravatar true "https://www.gravatar.com/avatar/a@b.com?d=404")
  = "https://www.gravatar.com/avatar/a@b.com?d=404"
  ∧ ∃ resp body,
      Do gravatarWorld (WithTimeout Background (10 * Second))
         "https://www.gravatar.com/avatar/a@b.com?d=404"
      = (Some resp, None)
      ∧ StatusCode resp = 200
      ∧ Body resp = (body, None)
      ∧ fst (getMD5Hash gravatarWorld body) ≠ gravatarDefaultMd5 gravatarWorld.
Proof.
  exact (proj1 (proj2 (proj2
           (CheckGravatar_result gravatarWorld
              (EnableGravatarCheck NewVerifier) Background "A@b.com" []
              (Some (mkGravatar true "https://www.gravatar.com/avatar/a@b.com?d=404"))
              None
              [EvCheckGravatar "A@b.com";
               EvHTTPGet "https://www.gravatar.com/avatar/a@b.com?d=404"]
              eq_refl)))
           (mkGravatar true "https://www.gravatar.com/avatar/a@b.com?d=404")
           eq_refl).
Defined.

(** ** The top-level-domain check, in terms of the label it looks up *)

Lemma LastIndexByte_negative s c :
  LastIndexByte s c < 0 → containsByte c s = false.
Proof.
  intros H. destruct (containsByte c s) eqn:Hc; [|reflexivity].
  apply LastIndexByte_present in Hc. lia.
Qed.

Lemma sliceFrom_after_last_has_none s c :
  ∀ t, sliceFrom (Z.to_nat (LastIndexByte s c + 1)) s = Some t →
       containsByte c t = false.
Proof.
  induction s as [|a r IH]; intros t; simpl.
  - intros H. by inversion H.
  - destruct (0 <=? LastIndexByte r c) eqn:H.
    + apply Z.leb_le in H.
      replace (Z.to_nat (LastIndexByte r c + 1 + 1))
        with (S (Z.to_nat (LastIndexByte r c + 1))) by lia.
      apply IH.
    + apply Z.leb_gt in H. apply LastIndexByte_negative in H.
      destruct (Ascii.eqb a c) eqn:Ha; simpl; intros Ht; inversion Ht; subst.
      * exact H.
      * simpl. by rewrite Ha, H.
Qed.

(** A text with a separator in it splits at its last one. *)
Lemma split_at_last s c :
  containsByte c s = true →
  ∃ a b, s = a +:+ String c b ∧ containsByte c b = false.
Proof.
  induction s as [|x r IH]; simpl; [discriminate|].
  destruct (containsByte c r) eqn:Hr.
  - intros _. destruct (IH eq_refl) as (a & b & -> & Hb).
    exists (String x a), b. by split.
  - rewrite orb_false_r. intros Hx. apply Ascii.eqb_eq in Hx. subst x.
    exists EmptyString, r. by split.
Qed.

Section Label.
Variable lower : string → string.

(** The label looked up: the text after the last dot of the
    lower-cased input, in bounds whatever [lower] is. *)
Lemma TopLevelDomainExists_lookup (G C : gset string) (email : string) :
  ∃ tld,
    sliceFrom (Z.to_nat (LastIndexByte (lower email) dot + 1)) (lower email)
    = Some tld
    ∧ containsByte dot tld = false
    ∧ TopLevelDomainExists lower G C email
      = containsByte dot (lower email) && bool_decide (tld ∈ G ∪ C).
Proof.
  destruct (sliceFrom_after_LastIndexByte (lower email) dot) as [tld Htld].
  exists tld. split; [exact Htld|].
  split; [by apply (sliceFrom_after_last_has_none (lower email))|].
  unfold TopLevelDomainExists. rewrite Htld.
  destruct (containsByte dot (lower email)) eqn:Hdot.
  - apply LastIndexByte_present in Hdot.
    destruct (LastIndexByte (lower email) dot =? -1) eqn:Hneg;
      [apply Z.eqb_eq in Hneg; lia|].
    simpl. rewrite <- bool_decide_or. apply bool_decide_ext.
    by rewrite elem_of_union.
  - by rewrite (LastIndexByte_absent _ _ Hdot).
Qed.

(** With a lower-casing that leaves dots alone and does nothing to
    what is lower-cased already, the label is lower-cased. *)
Lemma label_is_lower (email tld : string) :
  leavesDotsAlone lower →
  (∀ s, lower (lower s) = lower s) →
  sliceFrom (Z.to_nat (LastIndexByte (lower email) dot + 1)) (lower email)
  = Some tld →
  lower tld = tld
  ∧ containsByte dot (lower email) = containsByte dot email.
Proof.
  intros [Hno Hsplit] Hidem Htld.
  destruct (containsByte dot email) eqn:Hdot.
  - destruct (split_at_last _ _ Hdot) as (a & b & -> & Hb).
    rewrite Hsplit in Htld |- *.
    rewrite LastIndexByte_split in Htld by (by apply Hno).
    rewrite <- (append_snoc (lower a) dot (lower b)) in Htld.
    rewrite <- (length_snoc (lower a) dot) in Htld.
    rewrite sliceFrom_app in Htld. inversion Htld; subst tld.
    split; [apply Hidem|].
    clear. induction (lower a) as [|x r IH]; [reflexivity|].
    rewrite append_cons. cbn [containsByte]. rewrite IH. apply orb_true_r.
  - pose proof (Hno _ Hdot) as Hl. rewrite Hl.
    rewrite (LastIndexByte_absent _ _ Hl) in Htld. simpl in Htld.
    inversion Htld; subst tld. split; [apply Hidem|reflexivity].
Qed.
End Label.


(** X15: what the tables can and cannot do, whatever [strings.ToLower]
    returns.  Adding entries never turns a known top-level domain into
    an unknown one, and an entry that holds a dot never matches
    anything: adding it to either table changes no answer.  When
    [strings.ToLower] leaves dots alone and does nothing to what is
    lower-cased already, the same goes for an entry that it would
    change, such as one with an upper-case letter. *)
Theorem TopLevelDomainExists_tables (lower : string → string)
    (G C : gset string) (email : string) :
  (∀ G' C', G ∪ C ⊆ G' ∪ C' →
     TopLevelDomainExists lower G C email = true →
     TopLevelDomainExists lower G' C' email = true)
  ∧ (∀ t, containsByte dot t = true
          ∨ (leavesDotsAlone lower ∧ (∀ s, lower (lower s) = lower s)
             ∧ lower t ≠ t) →
       TopLevelDomainExists lower ({[ t ]} ∪ G) C email
       = TopLevelDomainExists lower G C email
       ∧ TopLevelDomainExists lower G ({[ t ]} ∪ C) email
         = TopLevelDomainExists lower G C email).
Proof.
  destruct (TopLevelDomainExists_lookup lower G C email)
    as (tld & Hs & Hdot & HGC).
  split.
  - intros G' C' Hsub.
    destruct (TopLevelDomainExists_lookup lower G' C' email)
      as (tld' & Hs' & _ & ->).
    rewrite HGC. assert (tld' = tld) as -> by congruence.
    intros [-> Hin%bool_decide_eq_true]%andb_true_iff. simpl.
    apply bool_decide_eq_true. by apply Hsub.
  - intros t Ht.
    assert (Hne : tld ≠ t).
    { intros <-. destruct Ht as [Ht|(Hok & Hidem & Ht)]; [congruence|].
      apply Ht. by destruct (label_is_lower lower email tld Hok Hidem Hs). }
    destruct (TopLevelDomainExists_lookup lower ({[ t ]} ∪ G) C email)
      as (tld1 & Hs1 & _ & ->).
    destruct (TopLevelDomainExists_lookup lower G ({[ t ]} ∪ C) email)
      as (tld2 & Hs2 & _ & ->).
    assert (tld1 = tld) as -> by congruence.
    assert (tld2 = tld) as -> by congruence.
    rewrite HGC.
    split; f_equal; apply bool_decide_ext;
      rewrite !elem_of_union, elem_of_singleton; intuition congruence.
Qed.

Lemma TopLevelDomainExists_tables_witness :
  TopLevelDomainExists ToLowerASCII ({[ "co.uk" ]} ∪ {[ "com"; "shop" ]})
    {[ "ch"; "de" ]} "example.co.uk"
  = TopLevelDomainExists ToLowerASCII {[ "com"; "shop" ]} {[ "ch"; "de" ]}
      "example.co.uk"
  ∧ TopLevelDomainExists ToLowerASCII ({[ "COM" ]} ∪ {[ "shop" ]})
      {[ "ch"; "de" ]} "example.COM"
    = TopLevelDomainExists ToLowerASCII {[ "shop" ]} {[ "ch"; "de" ]}
        "example.COM".
Proof.
  split.
  - exact (proj1 (proj2 (TopLevelDomainExists_tables ToLowerASCII
                           {[ "com"; "shop" ]} {[ "ch"; "de" ]} "example.co.uk")
                    "co.uk" (or_introl eq_refl))).
  - refine (proj1 (proj2 (TopLevelDomainExists_tables ToLowerASCII
                            {[ "shop" ]} {[ "ch"; "de" ]} "example.COM")
                     "COM" (or_intror (conj ToLowerASCII_leavesDotsAlone
                                            (conj ToLowerASCII_idem _))))).
    discriminate.
Defined.

(** ** The switches and the choice of runner *)

(** X16: [enabledOptions] counts the four switches of the MX, SMTP,
    Gravatar and suggestion steps and nothing else, so it lies between 0
    and 4; and with at most one of them on, [Verify] starts no goroutine:
    what it returns and logs does not depend on the scheduler. *)
Theorem enabledOptions_counts_the_four_switches (E : Env) (v : Verifier) :
  enabledOptions v
  = Z.of_nat (length (List.filter id [mxCheckEnabled v; smtpCheckEnabled v;
                                      gravatarCheckEnabled v;
                                      domainSuggestEnabled v]))
  ∧ 0 <= enabledOptions v <= 4
  ∧ (enabledOptions v <= 1 →
     ∀ order order' ctx email tr,
       Verify E v order ctx email tr = Verify E v order' ctx email tr).
Proof.
  split; [|split].
  - unfold enabledOptions.
    by destruct (mxCheckEnabled v), (smtpCheckEnabled v),
                (gravatarCheckEnabled v), (domainSuggestEnabled v).
  - unfold enabledOptions.
    destruct (mxCheckEnabled v), (smtpCheckEnabled v),
             (gravatarCheckEnabled v), (domainSuggestEnabled v); lia.
  - intros Hle order order' ctx email tr. unfold Verify.
    replace (1 <? enabledOptions v) with false
      by (symmetry; apply Z.ltb_ge; exact Hle).
    reflexivity.
Qed.

Lemma enabledOptions_counts_the_four_switches_witness :
  Verify Sample.world NewVerifier [] Background "a@github.com" []
  = Verify Sample.world NewVerifier [(1%nat, true); (0%nat, false)] Background
           "a@github.com" [].
Proof.
  refine (proj2 (proj2 (enabledOptions_counts_the_four_switches
                          Sample.world NewVerifier))
            _ [] [(1%nat, true); (0%nat, false)] Background "a@github.com" []).
  vm_compute. discriminate.
Defined.

(** ** The builder methods *)

Lemma lastWrite_snoc {A} (w : BuilderCall → option A) cs c old :
  lastWrite w (cs ++ [c]) old = default (lastWrite w cs old) (w c).
Proof. unfold lastWrite. by rewrite fold_left_app. Qed.

Lemma chain_snoc v cs c : chain v (cs ++ [c]) = build (chain v cs) c.
Proof. unfold chain. by rewrite fold_left_app. Qed.

(** X17: after any chain of builder calls each switch and each setting
    of the verifier has the value of the last call that wrote it, of
    either method of its pair, and the value it had before the chain if
    no call did; no builder method touches [TopLevelDomainDisabled]. *)
Theorem builder_last_call_wins (v : Verifier) (cs : list BuilderCall) :
  let v' := chain v cs in
  gravatarCheckEnabled v'
  = lastWrite (λ c, match c with
                    | callEnableGravatarCheck => Some true
                    | callDisableGravatarCheck => Some false
                    | _ => None
                    end) cs (gravatarCheckEnabled v)
  ∧ mxCheckEnabled v'
    = lastWrite (λ c, match c with
                      | callEnableMXCheck => Some true
                      | callDisableMXCheck => Some false
                      | _ => None
                      end) cs (mxCheckEnabled v)
  ∧ smtpCheckEnabled v'
    = lastWrite (λ c, match c with
                      | callEnableSMTPCheck => Some true
                      | callDisableSMTPCheck => Some false
                      | _ => None
                      end) cs (smtpCheckEnabled v)
  ∧ catchAllCheckEnabled v'
    = lastWrite (λ c, match c with
                      | callEnableCatchAllCheck => Some true
                      | callDisableCatchAllCheck => Some false
                      | _ => None
                      end) cs (catchAllCheckEnabled v)
  ∧ domainSuggestEnabled v'
    = lastWrite (λ c, match c with
                      | callEnableDomainSuggest => Some true
                      | callDisableDomainSuggest => Some false
                      | _ => None
                      end) cs (domainSuggestEnabled v)
  ∧ fromEmail v'
    = lastWrite (λ c, match c with callFromEmail x => Some x | _ => None end)
                cs (fromEmail v)
  ∧ helloName v'
    = lastWrite (λ c, match c with callHelloName x => Some x | _ => None end)
                cs (helloName v)
  ∧ proxyURI v'
    = lastWrite (λ c, match c with callProxy x => Some x | _ => None end)
                cs (proxyURI v)
  ∧ connectTimeout v'
    = lastWrite (λ c, match c with callConnectTimeout x => Some x | _ => None end)
                cs (connectTimeout v)
  ∧ operationTimeout v'
    = lastWrite (λ c, match c with callOperationTimeout x => Some x | _ => None end)
                cs (operationTimeout v)
  ∧ TopLevelDomainDisabled v' = TopLevelDomainDisabled v.
Proof.
  cbv zeta. induction cs as [|c cs IH] using rev_ind.
  - repeat split.
  - rewrite chain_snoc, !lastWrite_snoc.
    destruct IH as (H1 & H2 & H3 & H4 & H5 & H6 & H7 & H8 & H9 & H10 & H11).
    destruct c; cbn; rewrite <- ?H1, <- ?H2, <- ?H3, <- ?H4, <- ?H5, <- ?H6,
      <- ?H7, <- ?H8, <- ?H9, <- ?H10; repeat split; exact H11.
Qed.

(** ** The disposable-domain stores *)

Lemma storeDomains_sync domains :
  ∀ st d,
    d ∈ disposableSyncDomains (fold_left storeDomain domains st)
    ↔ d ∈ disposableSyncDomains st ∨ d ∈ domains.
Proof.
  induction domains as [|x domains IH]; intros st d; cbn [fold_left].
  - rewrite elem_of_nil. tauto.
  - rewrite IH. cbn [storeDomain disposableSyncDomains]. rewrite elem_of_union, elem_of_singleton, elem_of_cons.
    tauto.
Qed.

Lemma storeDomains_additional domains :
  ∀ st d,
    additionalDisposableDomains (fold_left storeDomain domains st) !! d
    = if bool_decide (d ∈ domains) then Some true
      else additionalDisposableDomains st !! d.
Proof.
  induction domains as [|x domains IH]; intros st d; cbn [fold_left].
  - rewrite bool_decide_eq_false_2; [reflexivity|apply not_elem_of_nil].
  - rewrite IH. cbn [storeDomain additionalDisposableDomains].
    destruct (decide (d ∈ domains)) as [Hin|Hin].
    + rewrite !bool_decide_eq_true_2; [reflexivity| |exact Hin].
      by apply list_elem_of_further.
    + rewrite (bool_decide_eq_false_2 _ Hin).
      destruct (decide (d = x)) as [->|Hne].
      * rewrite lookup_insert_eq.
        rewrite bool_decide_eq_true_2; [reflexivity|apply list_elem_of_here].
      * rewrite lookup_insert_ne by done.
        rewrite bool_decide_eq_false_2; [reflexivity|].
        rewrite elem_of_cons. tauto.
Qed.

Lemma Stores_eq (a b : Stores) :
  additionalDisposableDomains a = additionalDisposableDomains b →
  disposableSyncDomains a = disposableSyncDomains b → a = b.
Proof. destruct a, b. simpl. by intros -> ->. Qed.

(** X18: [AddDisposableDomains] hands the verifier back as it was; a
    domain is in [disposableSyncDomains] afterwards exactly when it was
    there before or is among those given, and
    [additionalDisposableDomains] maps every given domain to true and
    is otherwise as before: nothing is removed.  So only the set of
    domains given matters, not their order or how often each occurs, and
    adding the same domains again changes nothing. *)
Theorem AddDisposableDomains_adds (v : Verifier) (domains : list string)
    (st : Stores) :
  let st' := snd (AddDisposableDomains v domains st) in
  fst (AddDisposableDomains v domains st) = v
  ∧ (∀ d, d ∈ disposableSyncDomains st'
          ↔ d ∈ disposableSyncDomains st ∨ d ∈ domains)
  ∧ (∀ d, additionalDisposableDomains st' !! d
          = if bool_decide (d ∈ domains) then Some true
            else additionalDisposableDomains st !! d)
  ∧ (∀ domains', (∀ d, d ∈ domains' ↔ d ∈ domains) →
       snd (AddDisposableDomains v domains' st) = st')
  ∧ snd (AddDisposableDomains v domains st') = st'.
Proof.
  cbv zeta. unfold AddDisposableDomains. cbn [fst snd].
  split; [reflexivity|].
  split; [apply storeDomains_sync|].
  split; [apply storeDomains_additional|].
  split.
  - intros domains' Hsame. apply Stores_eq.
    + apply map_eq. intros d. rewrite !storeDomains_additional.
      apply (f_equal (λ b : bool, if b then Some true
                                  else additionalDisposableDomains st !! d)).
      apply bool_decide_ext, Hsame.
    + apply set_eq. intros d. rewrite !storeDomains_sync, Hsame. tauto.
  - apply Stores_eq.
    + apply map_eq. intros d. rewrite !storeDomains_additional.
      by destruct (bool_decide (d ∈ domains)).
    + apply set_eq. intros d. rewrite !storeDomains_sync. tauto.
Qed.

Lemma AddDisposableDomains_adds_witness :
  snd (AddDisposableDomains NewVerifier ["b.de"; "a.de"; "b.de"]
         (mkStores ∅ {[ "zzjbfwqi.shop" ]}))
  = snd (AddDisposableDomains NewVerifier ["a.de"; "b.de"]
           (mkStores ∅ {[ "zzjbfwqi.shop" ]})).
Proof.
  apply (proj1 (proj2 (proj2 (proj2
           (AddDisposableDomains_adds NewVerifier ["a.de"; "b.de"]
              (mkStores ∅ {[ "zzjbfwqi.shop" ]}))))) ["b.de"; "a.de"; "b.de"]).
  intros d. rewrite !elem_of_cons, elem_of_nil. tauto.
Defined.

Lemma init_sync (ds : list string) :
  ∀ st d,
    d ∈ disposableSyncDomains
          (fold_left (λ st d, mkStores (additionalDisposableDomains st)
                                       ({[ d ]} ∪ disposableSyncDomains st))
                     ds st)
    ↔ d ∈ disposableSyncDomains st ∨ d ∈ ds.
Proof.
  induction ds as [|x ds IH]; intros st d; cbn [fold_left].
  - rewrite elem_of_nil. tauto.
  - rewrite IH. cbn [storeDomain disposableSyncDomains]. rewrite elem_of_union, elem_of_singleton, elem_of_cons.
    tauto.
Qed.

Lemma init_additional (ds : list string) :
  ∀ st,
    additionalDisposableDomains
      (fold_left (λ st d, mkStores (additionalDisposableDomains st)
                                   ({[ d ]} ∪ disposableSyncDomains st))
                 ds st)
    = additionalDisposableDomains st.
Proof.
  induction ds as [|x ds IH]; intros st; simpl; [reflexivity|].
  by rewrite IH.
Qed.

(** X19: after [init] and any number of [AddDisposableDomains] calls,
    [disposableSyncDomains] holds exactly what it held when the package
    was loaded, the keys of the built-in table and the domains that were
    added, and [additionalDisposableDomains], empty at first, exactly
    the added ones: a built-in domain is never lost by adding others. *)
Theorem disposable_stores_after_init {V} (disposableDomains : gmap string V)
    (atLoad : gset string) (v : Verifier) (added : list (list string)) :
  let st := fold_left (λ st domains, snd (AddDisposableDomains v domains st))
                      added (init disposableDomains (mkStores ∅ atLoad)) in
  (∀ d, d ∈ disposableSyncDomains st
        ↔ d ∈ atLoad ∨ is_Some (disposableDomains !! d) ∨ d ∈ concat added)
  ∧ (∀ d, is_Some (additionalDisposableDomains st !! d) ↔ d ∈ concat added).
Proof.
  cbv zeta.
  assert (Hgen : ∀ st0,
    let st := fold_left (λ st domains, snd (AddDisposableDomains v domains st))
                        added st0 in
    (∀ d, d ∈ disposableSyncDomains st
          ↔ d ∈ disposableSyncDomains st0 ∨ d ∈ concat added)
    ∧ (∀ d, is_Some (additionalDisposableDomains st !! d)
            ↔ is_Some (additionalDisposableDomains st0 !! d) ∨ d ∈ concat added)).
  { induction added as [|ds added IH]; intros st0; cbv zeta; simpl.
    - split; intros d; rewrite elem_of_nil; tauto.
    - destruct (IH (fold_left storeDomain ds st0)) as [IH1 IH2].
      split; intros d; rewrite elem_of_app.
      + rewrite IH1, storeDomains_sync. tauto.
      + rewrite IH2, storeDomains_additional.
        destruct (decide (d ∈ ds)) as [Hin|Hin].
        * rewrite bool_decide_eq_true_2 by done.
          split; [intros _; right; by left|intros _; left; by eexists].
        * rewrite bool_decide_eq_false_2 by done. tauto. }
  destruct (Hgen (init disposableDomains (mkStores ∅ atLoad))) as [H1 H2].
  split; intros d.
  - rewrite H1. unfold init. rewrite init_sync. cbn.
    rewrite list_elem_of_fmap.
    split.
    + intros [[Hin|([k x] & -> & Hin)]|Hin]; [by left| |by right; right].
      right. left. apply elem_of_map_to_list in Hin. by eexists.
    + intros [Hin|[[x Hx]|Hin]]; [by left; left| |by right].
      left. right. exists (d, x). split; [reflexivity|].
      by apply elem_of_map_to_list.
  - rewrite H2. unfold init. rewrite init_additional. cbn.
    rewrite lookup_empty. split; [intros [[? ?]|?]; [done|done]|by right].
Qed.

(** ** The API verifiers *)

(** X20: [EnableAPIVerifier] succeeds for the vendor [YAHOO] only, and
    then registers its verifier; for any other name it returns an error
    that names the vendor and leaves the map alone.
    [DisableAPIVerifier] removes the entry of the name, touches no
    other, and does nothing when there is none, so it undoes an enable
    on a map that had no such entry.  Hence, from the empty map
    [NewVerifier] makes, no call sequence ever registers anything under
    a name other than [YAHOO]. *)
Theorem apiVerifiers_hold_supported_vendors_only {A : Type} (YAHOO : string)
    (newYahooAPIVerifier : A) :
  let enable := EnableAPIVerifier A YAHOO newYahooAPIVerifier in
  let disable := DisableAPIVerifier A in
  (∀ m, enable m YAHOO = (<[YAHOO := newYahooAPIVerifier]> m, None))
  ∧ (∀ m name, name ≠ YAHOO →
       enable m name
       = (m, Some (errExtern
                     ("unsupported to enable the API verifier for vendor: "
                      +:+ name))))
  ∧ (∀ m name k, fst (enable m name) !! k
                 = if bool_decide (k = YAHOO ∧ name = YAHOO)
                   then Some newYahooAPIVerifier else m !! k)
  ∧ (∀ m name k, disable m name !! k
                 = if bool_decide (k = name) then None else m !! k)
  ∧ (∀ m name, m !! name = None → disable m name = m)
  ∧ (∀ m, m !! YAHOO = None → disable (fst (enable m YAHOO)) YAHOO = m)
  ∧ (∀ cs k, k ≠ YAHOO →
       fold_left (manage A YAHOO newYahooAPIVerifier) cs ∅ !! k = None).
Proof.
  cbv zeta.
  assert (Hyes : ∀ m, EnableAPIVerifier A YAHOO newYahooAPIVerifier m YAHOO
                      = (<[YAHOO := newYahooAPIVerifier]> m, None)).
  { intros m. unfold EnableAPIVerifier. by rewrite String.eqb_refl. }
  assert (Hno : ∀ m name, name ≠ YAHOO →
     EnableAPIVerifier A YAHOO newYahooAPIVerifier m name
     = (m, Some (errExtern
                   ("unsupported to enable the API verifier for vendor: "
                    +:+ name)))).
  { intros m name Hne. unfold EnableAPIVerifier.
    by rewrite (proj2 (String.eqb_neq name YAHOO) Hne). }
  assert (Hlook : ∀ m name k,
     fst (EnableAPIVerifier A YAHOO newYahooAPIVerifier m name) !! k
     = if bool_decide (k = YAHOO ∧ name = YAHOO)
       then Some newYahooAPIVerifier else m !! k).
  { intros m name k. destruct (decide (name = YAHOO)) as [->|Hne].
    - rewrite Hyes. cbn [fst]. destruct (decide (k = YAHOO)) as [->|Hk].
      + rewrite lookup_insert_eq. by rewrite bool_decide_eq_true_2.
      + rewrite lookup_insert_ne by done.
        rewrite bool_decide_eq_false_2; [reflexivity|tauto].
    - rewrite Hno by done. cbn [fst].
      rewrite bool_decide_eq_false_2; [reflexivity|tauto]. }
  assert (Hdel : ∀ m name k,
     DisableAPIVerifier A m name !! k
     = if bool_decide (k = name) then None else m !! k).
  { intros m name k. unfold DisableAPIVerifier.
    destruct (decide (k = name)) as [->|Hk].
    - rewrite lookup_delete_eq. by rewrite bool_decide_eq_true_2.
    - rewrite lookup_delete_ne by done. by rewrite bool_decide_eq_false_2. }
  split; [exact Hyes|]. split; [exact Hno|]. split; [exact Hlook|].
  split; [exact Hdel|]. split; [|split].
  - intros m name Hnone. apply map_eq. intros k. rewrite Hdel.
    destruct (decide (k = name)) as [->|Hk].
    + by rewrite bool_decide_eq_true_2.
    + by rewrite bool_decide_eq_false_2.
  - intros m Hnone. apply map_eq. intros k. rewrite Hdel, Hlook.
    destruct (decide (k = YAHOO)) as [->|Hk].
    + by rewrite bool_decide_eq_true_2.
    + rewrite !bool_decide_eq_false_2; [reflexivity|tauto|done].
  - intros cs k Hk. induction cs as [|c cs IH] using rev_ind.
    + apply lookup_empty.
    + rewrite fold_left_app. cbn [fold_left]. destruct c as [name|name]; cbn [manage].
      * rewrite Hlook. rewrite bool_decide_eq_false_2; [exact IH|tauto].
      * rewrite Hdel. by destruct (bool_decide (k = name)).
Qed.

Lemma apiVerifiers_hold_supported_vendors_only_witness :
  EnableAPIVerifier nat "yahoo" 7%nat ∅ "gmail"
  = (∅, Some (errExtern
                "unsupported to enable the API verifier for vendor: gmail")).
Proof.
  apply (proj1 (proj2 (apiVerifiers_hold_supported_vendors_only "yahoo" 7%nat))).
  discriminate.
Defined.

(** ** The refresh schedule *)

Lemma runningAfter_snoc h ev :
  runningAfter (h ++ [ev])
  = match ev with
    | Started s => (runningAfter h ++ [s])%list
    | Stopped s => List.filter (λ s', negb (s' =? s)%nat) (runningAfter h)
    | Updated => runningAfter h
    end.
Proof. unfold runningAfter. by rewrite fold_left_app. Qed.

Lemma stopCurrentSchedule_stops r :
  tidy r → runningAfter (history (stopCurrentSchedule r)) = [].
Proof.
  unfold stopCurrentSchedule. intros [H|(s & Hs & H)].
  - destruct (schedule r); [|exact H]. cbn [history].
    by rewrite runningAfter_snoc, H.
  - rewrite Hs. cbn [history]. rewrite runningAfter_snoc, H. cbn.
    by rewrite Nat.eqb_refl.
Qed.

Lemma EnableAutoUpdateDisposable_starts r :
  tidy r →
  ∃ h,
    history (EnableAutoUpdateDisposable r)
    = (h ++ [Updated; Started (created r)])%list
    ∧ schedule (EnableAutoUpdateDisposable r) = Some (created r)
    ∧ runningAfter (history (EnableAutoUpdateDisposable r)) = [created r].
Proof.
  intros Ht. apply stopCurrentSchedule_stops in Ht.
  unfold EnableAutoUpdateDisposable. cbn [history schedule created].
  assert (Hc : created (stopCurrentSchedule r) = created r).
  { unfold stopCurrentSchedule. by destruct (schedule r). }
  rewrite Hc. exists (history (stopCurrentSchedule r)).
  split; [by rewrite <- app_assoc|]. split; [reflexivity|].
  by rewrite !runningAfter_snoc, Ht.
Qed.

Lemma reschedule_tidy cs :
  tidy (fold_left reschedule cs (mkRefresher None O [])).
Proof.
  induction cs as [|c cs IH] using rev_ind; [by left|].
  rewrite fold_left_app. cbn [fold_left]. destruct c; cbn [reschedule].
  - destruct (EnableAutoUpdateDisposable_starts _ IH) as (h & _ & Hs & Hr).
    right. eauto.
  - left. by apply stopCurrentSchedule_stops.
Qed.

(** X21: whatever sequence of [EnableAutoUpdateDisposable] and
    [DisableAutoUpdateDisposable] calls a verifier goes through, at most
    one schedule is running afterwards, and it is the one the [schedule]
    field holds.  After a disable none is running; after an enable
    exactly the schedule it created is, started right after the
    immediate update.  A disable keeps the field, so a second one stops
    the same schedule again. *)
Theorem at_most_one_schedule_running (cs : list ScheduleCall) :
  let r := fold_left reschedule cs (mkRefresher None O []) in
  (runningAfter (history r) = []
   ∨ ∃ s, schedule r = Some s ∧ runningAfter (history r) = [s])
  ∧ runningAfter (history (DisableAutoUpdateDisposable r)) = []
  ∧ (∃ h, history (EnableAutoUpdateDisposable r)
          = (h ++ [Updated; Started (created r)])%list
          ∧ schedule (EnableAutoUpdateDisposable r) = Some (created r)
          ∧ runningAfter (history (EnableAutoUpdateDisposable r)) = [created r])
  ∧ (∀ s, schedule r = Some s →
       history (DisableAutoUpdateDisposable (DisableAutoUpdateDisposable r))
       = (history r ++ [Stopped s; Stopped s])%list).
Proof.
  intros r. pose proof (reschedule_tidy cs) as Ht. fold r in Ht. clearbody r.
  split; [exact Ht|].
  split; [by apply stopCurrentSchedule_stops|].
  split; [by apply EnableAutoUpdateDisposable_starts|].
  intros s Hs. unfold DisableAutoUpdateDisposable, stopCurrentSchedule.
  rewrite Hs. cbn [schedule history created]. by rewrite <- app_assoc.
Qed.

Lemma at_most_one_schedule_running_witness :
  history (DisableAutoUpdateDisposable
             (DisableAutoUpdateDisposable
                (fold_left reschedule
                   [callEnableAutoUpdateDisposable;
                    callEnableAutoUpdateDisposable]
                   (mkRefresher None O []))))
  = [Updated; Started 0%nat; Stopped 0%nat; Updated; Started 1%nat;
     Stopped 1%nat; Stopped 1%nat].
Proof.
  exact (proj2 (proj2 (proj2
           (at_most_one_schedule_running
              [callEnableAutoUpdateDisposable; callEnableAutoUpdateDisposable])))
           1%nat eq_refl).
Defined.

(** ** A check that fails *)

Lemma startChecks_keeps E c v order ctx email syntax ret tr r e tr'
    (P : Result → Prop) :
  preserves P (checkMX E v syntax) →
  preserves P (checkSMTP E v syntax) →
  preserves P (checkGravatar E v email) →
  preserves P (suggest E v syntax) →
  P ret →
  startChecks E c v order ctx email syntax ret tr = Some ((r, e), tr') →
  ∃ ret', r = Some ret' ∧ P ret'.
Proof.
  intros P1 P2 P3 P4 HP0 Hs. unfold startChecks in Hs.
  destruct (Disposable ret); [inversion Hs; subst; eauto|].
  destruct c.
  - rewrite runChecks_Group in Hs.
    apply bind_inv in Hs as ([e1 ret1] & tr1 & Hfin & Hk).
    assert (P ret1).
    { eapply finish_preserves; [|exact HP0|exact Hfin].
      repeat first [apply List.Forall_cons | apply List.Forall_nil];
        [exact P1|exact P2|exact P3|exact P4]. }
    destruct e1; inversion Hk; subst; eauto.
  - unfold runChecks in Hs.
    apply bind_inv in Hs as ([g1 r1] & t1 & H1 & Hs).
    apply Go_noGroup_inv in H1 as (ng1 & -> & H1).
    apply bind_inv in Hs as ([g2 r2] & t2 & H2 & Hs).
    apply Go_noGroup_inv in H2 as (ng2 & -> & H2).
    apply bind_inv in Hs as ([g3 r3] & t3 & H3 & Hs).
    apply Go_noGroup_inv in H3 as (ng3 & -> & H3).
    apply bind_inv in Hs as ([g4 r4] & t4 & H4 & Hs).
    apply Go_noGroup_inv in H4 as (ng4 & -> & H4).
    apply (noGroup_Go_preserves P) in H1; [|auto|done].
    apply (noGroup_Go_preserves P) in H2; [|auto|done].
    apply (noGroup_Go_preserves P) in H3; [|auto|done].
    apply (noGroup_Go_preserves P) in H4; [|auto|done].
    revert Hs. unfold Wait. run.
    destruct (noGroup_Wait ng4); intros Hs; inversion Hs; subst; eauto.
Qed.

Lemma VerifyWith_keeps E c v order ctx email tr r e tr' (P : Result → Prop) :
  let email' := trimLower E email in
  let syntax := ParseAddress E v email' in
  preserves P (checkMX E v syntax) →
  preserves P (checkSMTP E v syntax) →
  preserves P (checkGravatar E v email') →
  preserves P (suggest E v syntax) →
  P (mkResult email' reachableUnknown syntax None None ""
              false false false false false) →
  P (classifiedResult E v email) →
  P (setTLDExists true (classifiedResult E v email)) →
  VerifyWith E c v order ctx email tr = Some ((Some r, e), tr') →
  P r.
Proof.
  intros email' syntax P1 P2 P3 P4 Hinv Hoff Hon H.
  assert (Hr : ∃ ret', Some r = Some ret' ∧ P ret').
  { destruct (Valid syntax) eqn:Hvalid.
    - rewrite VerifyWith_valid in H by exact Hvalid. cbv zeta in H.
      fold email' in H. fold syntax in H.
      destruct (TopLevelDomainDisabled v).
      + exact (startChecks_keeps _ _ _ _ _ _ _ _ _ _ _ _ P P1 P2 P3 P4 Hoff H).
      + destruct (TopLevelDomainExists _ _ _ _); [|discriminate].
        exact (startChecks_keeps _ _ _ _ _ _ _ _ _ _ _ _ P P1 P2 P3 P4 Hon H).
    - rewrite VerifyWith_invalid in H by exact Hvalid.
      inversion H; subst. eauto. }
  destruct Hr as (ret' & Heq & HP). by inversion Heq; subst.
Qed.

Lemma failing_checkMX_preserves E v syntax (P : Result → Prop) :
  (∀ c, ∃ x, fails (checkMX E v syntax) c x) →
  preserves P (checkMX E v syntax).
Proof.
  intros Hfail. apply behaves_preserves. intros c.
  destruct (Hfail c) as (x & ret0 & tr0 & ret0' & tr0' & Hf).
  destruct (checkMX_shape E v syntax c) as (evs & [(y & Hb)|(b & Hb)]).
  - eexists. split; [exact Hb|]. cbn. auto.
  - rewrite Hb in Hf. discriminate.
Qed.

Lemma failing_checkSMTP_preserves E v syntax (P : Result → Prop) :
  (∀ c, ∃ x, fails (checkSMTP E v syntax) c x) →
  preserves P (checkSMTP E v syntax).
Proof.
  intros Hfail. apply behaves_preserves. intros c.
  destruct (Hfail c) as (x & ret0 & tr0 & ret0' & tr0' & Hf).
  destruct (checkSMTP_shape E v syntax c)
    as [Hb|(evs & [(y & Hb)|(smtp & reachable & Hc & Hb)])].
  - rewrite Hb in Hf. discriminate.
  - eexists. split; [exact Hb|]. cbn. auto.
  - rewrite Hb in Hf. discriminate.
Qed.

Lemma failing_checkGravatar_preserves E v email (P : Result → Prop) :
  (∀ c, ∃ x, fails (checkGravatar E v email) c x) →
  preserves P (checkGravatar E v email).
Proof.
  intros Hfail. apply behaves_preserves. intros c.
  destruct (Hfail c) as (x & ret0 & tr0 & ret0' & tr0' & Hf).
  destruct (checkGravatar_shape E v email c)
    as [Hb|(evs & [(y & Hb)|(g & Hb)])].
  - rewrite Hb in Hf. discriminate.
  - eexists. split; [exact Hb|]. cbn. auto.
  - rewrite Hb in Hf. discriminate.
Qed.

Lemma checkMX_keeps E v s (P : Result → Prop) :
  (∀ b r, P r → P (setHasMxRecords b r)) → preserves P (checkMX E v s).
Proof.
  intros Hk. apply behaves_preserves. intros c.
  destruct (checkMX_shape E v s c) as (evs & [(x & Hb)|(b & Hb)]);
    eexists; (split; [exact Hb|]); cbn; auto.
Qed.

Lemma checkSMTP_keeps E v s (P : Result → Prop) :
  (∀ smtp reachable r, P r → P (setReachable reachable (setSMTP smtp r))) →
  preserves P (checkSMTP E v s).
Proof.
  intros Hk. apply behaves_preserves. intros c.
  destruct (checkSMTP_shape E v s c)
    as [Hb|(evs & [(x & Hb)|(smtp & reachable & Hc & Hb)])];
    eexists; (split; [exact Hb|]); cbn; auto.
Qed.

Lemma checkGravatar_keeps E v em (P : Result → Prop) :
  (∀ g r, P r → P (setGravatar g r)) → preserves P (checkGravatar E v em).
Proof.
  intros Hk. apply behaves_preserves. intros c.
  destruct (checkGravatar_shape E v em c)
    as [Hb|(evs & [(x & Hb)|(g & Hb)])];
    eexists; (split; [exact Hb|]); cbn; auto.
Qed.

Lemma suggest_keeps E v s (P : Result → Prop) :
  (∀ x r, P r → P (setSuggestion x r)) → preserves P (suggest E v s).
Proof.
  intros Hk. apply behaves_preserves. intros c.
  destruct (suggest_shape E v s c) as (evs & [Hb|(x & Hb)]);
    eexists; (split; [exact Hb|]); cbn; auto.
Qed.

(** X22: a check that fails leaves its part of the result at the zero
    value, while the result itself still comes back.  If the MX closure
    fails whatever the context, [HasMxRecords] is false; if the SMTP
    closure does, [SMTP] is nil and [Reachable] stays "unknown"; if the
    Gravatar closure does, [Gravatar] is nil. *)
Theorem Verify_failed_check_leaves_zero (E : Env) (v : Verifier)
    (order : list (nat * bool)) (ctx : Ctx) (email : string)
    (tr : list Event) (r : Result) (e : option error) (tr' : list Event) :
  let email' := trimLower E email in
  let syntax := ParseAddress E v email' in
  Verify E v order ctx email tr = Some ((Some r, e), tr') →
  ((∀ c, ∃ x, fails (checkMX E v syntax) c x) → HasMxRecords r = false)
  ∧ ((∀ c, ∃ x, fails (checkSMTP E v syntax) c x) →
     rSMTP r = None ∧ Reachable r = reachableUnknown)
  ∧ ((∀ c, ∃ x, fails (checkGravatar E v email') c x) → rGravatar r = None).
Proof.
  intros email' syntax H. unfold Verify in H.
  split; [|split]; intros Hfail.
  - apply (VerifyWith_keeps _ _ _ _ _ _ _ _ _ _ (λ r, HasMxRecords r = false))
      in H; try done.
    + by apply failing_checkMX_preserves.
    + by apply checkSMTP_keeps.
    + by apply checkGravatar_keeps.
    + by apply suggest_keeps.
  - apply (VerifyWith_keeps _ _ _ _ _ _ _ _ _ _
             (λ r, rSMTP r = None ∧ Reachable r = reachableUnknown))
      in H; try done.
    + by apply checkMX_keeps.
    + by apply failing_checkSMTP_preserves.
    + by apply checkGravatar_keeps.
    + by apply suggest_keeps.
  - apply (VerifyWith_keeps _ _ _ _ _ _ _ _ _ _ (λ r, rGravatar r = None))
      in H; try done.
    + by apply checkMX_keeps.
    + by apply checkSMTP_keeps.
    + by apply failing_checkGravatar_preserves.
    + by apply suggest_keeps.
Qed.

Lemma Verify_failed_check_leaves_zero_witness :
  @None SMTP = None ∧ "unknown" = reachableUnknown.
Proof.
  refine (proj1 (proj2
            (Verify_failed_check_leaves_zero Sample.world
               (EnableSMTPCheck (DisableMXCheck NewVerifier)) [] Background
               "u@no.com" []
               (mkResult "u@no.com" "unknown" (mkSyntax "u" "no.com" true)
                         None None "" false false false false true)
               (Some (errJoin [errWrap "CheckSMTP failed: " Sample.noSuchHost]))
               [EvParseAddress "u@no.com"; EvIsFreeDomain "no.com";
                EvIsRoleAccount "u"; EvIsDisposable "no.com";
                EvTopLevelDomainExists "no.com"; EvCheckMX "no.com";
                EvCheckSMTP "no.com" "u"; EvCheckGravatar "u@no.com"]
               eq_refl)) _).
  intros [[] t].
  - exists (errWrap "CheckSMTP failed: " Sample.canceled),
      (classifiedResult Sample.world NewVerifier ""), [],
      (classifiedResult Sample.world NewVerifier ""),
      [EvCheckSMTP "no.com" "u"].
    reflexivity.
  - exists (errWrap "CheckSMTP failed: " Sample.noSuchHost),
      (classifiedResult Sample.world NewVerifier ""), [],
      (classifiedResult Sample.world NewVerifier ""),
      [EvCheckSMTP "no.com" "u"].
    reflexivity.
Defined.
